(** * Mixture of diagonal normals with shared covariance

    A shallow embedding of
    [pyro/distributions/diag_normal_mixture_shared_cov.py]:
    the constructor of [MixtureOfDiagNormalsSharedCovariance], its
    [log_prob], and the [forward] and [backward] passes of
    [_MixDiagNormalSharedCovarianceSample].

    Numbers are exact reals extended with the IEEE special values
    (the two infinities and NaN); rounding, overflow of finite values and
    the sign of zero are not modelled.  The last part reads [log_prob]
    and the softmax of the constructor with an exponential of limited
    range, which underflows to 0 and overflows to [+inf].  Tensors are a shape together with
    an element function; every axis list is kept innermost axis first, so
    that torch's negative axis [-1] is position [0], [-2] is position [1],
    and so on.  Operations that torch rejects return [None]. *)

From Stdlib Require Import Reals Lra Lia List Bool Arith PeanoNat.
Import ListNotations.

Open Scope R_scope.

(** ** The error function on the reals *)

Definition gauss (t : R) : R := exp (- (t * t)).

Lemma gauss_continuous (x : R) : continuity_pt gauss x.
Proof.
  apply derivable_continuous_pt.
  unfold gauss.
  apply (derivable_pt_comp (fun t => - (t * t)) exp).
  - apply derivable_pt_opp.
    apply (derivable_pt_mult id id); apply derivable_pt_id.
  - apply derivable_pt_exp.
Qed.

Lemma gauss_integrable (a b : R) : Riemann_integrable gauss a b.
Proof.
  destruct (Rle_dec a b) as [Hab | Hab].
  - apply continuity_implies_RiemannInt; [exact Hab | intros; apply gauss_continuous].
  - apply RiemannInt_P1.
    apply continuity_implies_RiemannInt; [lra | intros; apply gauss_continuous].
Qed.

(** [erf x = 2/sqrt(pi) * integral of exp(-t^2) from 0 to x]. *)
Definition erf (x : R) : R := 2 / sqrt PI * RiemannInt (gauss_integrable 0 x).

(** ** Numbers: reals with the IEEE special values *)

Inductive num : Type :=
| Fin (r : R)
| PInf
| NInf
| NaN.

Definition is_finite (x : num) : Prop :=
  match x with Fin _ => True | _ => False end.

Module Num.

Definition zero : num := Fin 0.

Definition of_sign (r : R) : num :=
    if Rlt_dec r 0 then NInf else PInf.

Definition neg (x : num) : num :=
    match x with
    | Fin r => Fin (- r)
    | PInf => NInf
    | NInf => PInf
    | NaN => NaN
    end.

Definition add (x y : num) : num :=
    match x, y with
    | NaN, _ | _, NaN => NaN
    | Fin a, Fin b => Fin (a + b)
    | PInf, NInf | NInf, PInf => NaN
    | PInf, _ | _, PInf => PInf
    | NInf, _ | _, NInf => NInf
    end.

Definition sub (x y : num) : num := add x (neg y).

  (** An infinity scaled by a finite factor: NaN for a zero factor. *)
Definition scale_inf (pos : bool) (r : R) : num :=
    if Req_dec_T r 0 then NaN
    else if Rlt_dec r 0 then (if pos then NInf else PInf)
         else (if pos then PInf else NInf).

Definition mul (x y : num) : num :=
    match x, y with
    | NaN, _ | _, NaN => NaN
    | Fin a, Fin b => Fin (a * b)
    | PInf, Fin r | Fin r, PInf => scale_inf true r
    | NInf, Fin r | Fin r, NInf => scale_inf false r
    | PInf, PInf | NInf, NInf => PInf
    | PInf, NInf | NInf, PInf => NInf
    end.

Definition div (x y : num) : num :=
    match x, y with
    | NaN, _ | _, NaN => NaN
    | Fin a, Fin b =>
        if Req_dec_T b 0
        then (if Req_dec_T a 0 then NaN else of_sign a)
        else Fin (a / b)
    | Fin _, _ => Fin 0
    | PInf, Fin r => of_sign r
    | NInf, Fin r => neg (of_sign r)
    | _, _ => NaN
    end.

  (** [torch.pow(x, 2.0)]. *)
Definition sq (x : num) : num := mul x x.

Definition sqrt (x : num) : num :=
    match x with
    | Fin r => if Rlt_dec r 0 then NaN else Fin (R_sqrt.sqrt r)
    | PInf => PInf
    | _ => NaN
    end.

Definition exp (x : num) : num :=
    match x with
    | Fin r => Fin (Rtrigo_def.exp r)
    | PInf => PInf
    | NInf => Fin 0
    | NaN => NaN
    end.

Definition log (x : num) : num :=
    match x with
    | Fin r =>
        if Req_dec_T r 0 then NInf
        else if Rlt_dec r 0 then NaN else Fin (ln r)
    | PInf => PInf
    | _ => NaN
    end.

Definition erf (x : num) : num :=
    match x with
    | Fin r => Fin (erf r)
    | PInf => Fin 1
    | NInf => Fin (-1)
    | NaN => NaN
    end.

  (** [torch.max] and [torch.min] reductions propagate NaN. *)
Definition max (x y : num) : num :=
    match x, y with
    | NaN, _ | _, NaN => NaN
    | PInf, _ | _, PInf => PInf
    | NInf, z | z, NInf => z
    | Fin a, Fin b => Fin (Rmax a b)
    end.

Definition min (x y : num) : num :=
    match x, y with
    | NaN, _ | _, NaN => NaN
    | NInf, _ | _, NInf => NInf
    | PInf, z | z, PInf => z
    | Fin a, Fin b => Fin (Rmin a b)
    end.

End Num.

(** ** Failure: a torch operation that raises returns [None] *)

Definition bind {A B : Type} (m : option A) (k : A -> option B) : option B :=
  match m with Some a => k a | None => None end.

Notation "x <- m ;; k" := (bind m (fun x => k))
  (at level 61, m at next level, right associativity).

(** ** Shapes and indices (innermost axis first) *)

Definition shape := list nat.
Definition index := list nat.

Definition insert_at {A : Type} (p : nat) (x : A) (l : list A) : list A :=
  firstn p l ++ x :: skipn p l.

Definition remove_at {A : Type} (p : nat) (l : list A) : list A :=
  firstn p l ++ skipn (S p) l.

Definition set_at {A : Type} (p : nat) (x : A) (l : list A) : list A :=
  firstn p l ++ x :: skipn (S p) l.

(** Broadcasting of one pair of sizes. *)
Definition bdim (a b : nat) : option nat :=
  if a =? b then Some a
  else if a =? 1 then Some b
  else if b =? 1 then Some a
  else None.

(** Broadcasting of two shapes, aligned at the innermost axis. *)
Fixpoint bshape (s1 s2 : shape) : option shape :=
  match s1, s2 with
  | [], s => Some s
  | s, [] => Some s
  | a :: r1, b :: r2 =>
      d <- bdim a b ;;
      r <- bshape r1 r2 ;;
      Some (d :: r)
  end.

(** The index at which a tensor of shape [s] is read when it is
    broadcast to a larger shape and the result is read at [i]. *)
Fixpoint bidx (s : shape) (i : index) : index :=
  match s with
  | [] => []
  | n :: r => (if n =? 1 then 0%nat else hd 0%nat i) :: bidx r (tl i)
  end.

Fixpoint in_range (s : shape) (i : index) : Prop :=
  match s, i with
  | [], [] => True
  | n :: r, k :: j => (k < n)%nat /\ in_range r j
  | _, _ => False
  end.

Definition shape_eqb (s1 s2 : shape) : bool :=
  if list_eq_dec Nat.eq_dec s1 s2 then true else false.

(** [expand]: every size of the source equals the target's or is 1, and
    the target has at least the source's rank. *)
Fixpoint expandable (src tgt : shape) : bool :=
  match src, tgt with
  | [], _ => true
  | _ :: _, [] => false
  | a :: r1, b :: r2 => ((a =? b) || (a =? 1)) && expandable r1 r2
  end.

(** All indices of a shape, used by checks that inspect every element. *)
Fixpoint all_indices (s : shape) : list index :=
  match s with
  | [] => [[]]
  | n :: r => flat_map (fun j => map (fun k => k :: j) (seq 0 n)) (all_indices r)
  end.

(** ** Tensors *)

Record tensor (A : Type) : Type := mkT { tshape : shape; tdata : index -> A }.
Arguments mkT {A} _ _.
Arguments tshape {A} _.
Arguments tdata {A} _ _.

Definition rank {A : Type} (t : tensor A) : nat := length (tshape t).

(** [size t p] is torch's [t.size(-(p+1))]. *)
Definition size {A : Type} (t : tensor A) (p : nat) : option nat :=
  nth_error (tshape t) p.

(** Reading with broadcasting. *)
Definition tget {A : Type} (t : tensor A) (i : index) : A :=
  tdata t (bidx (tshape t) i).

Notation "t @ i" := (tget t i) (at level 20, i at next level).

(** *** Sums and reductions over one axis *)

Fixpoint nsum (n : nat) (f : nat -> num) : num :=
  match n with
  | O => Fin 0
  | S m => Num.add (nsum m f) (f m)
  end.

(** Reduction of a non-empty range with a binary operation. *)
Fixpoint nfold (op : num -> num -> num) (n : nat) (f : nat -> num) : num :=
  match n with
  | O => f 0%nat
  | S m => op (nfold op m f) (f (S m))
  end.

Definition nreduce (op : num -> num -> num) (n : nat) (f : nat -> num)
  : option num :=
  match n with
  | O => None
  | S m => Some (nfold op m f)
  end.

(** Sum over all indices of a list of axes. *)
Fixpoint msum (ds : shape) (f : index -> num) : num :=
  match ds with
  | [] => f []
  | n :: r => nsum n (fun k => msum r (fun m => f (k :: m)))
  end.

Module T.

Definition map {A B : Type} (f : A -> B) (t : tensor A) : tensor B :=
    mkT (tshape t) (fun i => f (tdata t i)).

  (** Elementwise binary operation with broadcasting. *)
Definition bop {A B C : Type} (f : A -> B -> C) (a : tensor A) (b : tensor B)
    : option (tensor C) :=
    s <- bshape (tshape a) (tshape b) ;;
    Some (mkT s (fun i => f (a @ i) (b @ i))).

  (** In-place variant [a op= b]: the broadcast shape must be [a]'s. *)
Definition bop_ {A B : Type} (f : A -> B -> A) (a : tensor A) (b : tensor B)
    : option (tensor A) :=
    s <- bshape (tshape a) (tshape b) ;;
    if shape_eqb s (tshape a)
    then Some (mkT s (fun i => f (a @ i) (b @ i)))
    else None.

Abbreviation add := (bop Num.add).
Abbreviation sub := (bop Num.sub).
Abbreviation mul := (bop Num.mul).
Abbreviation div := (bop Num.div).
Abbreviation sub_ := (bop_ Num.sub).
Abbreviation mul_ := (bop_ Num.mul).
Abbreviation div_ := (bop_ Num.div).

Abbreviation neg := (map Num.neg).
Abbreviation pow2 := (map Num.sq).
Abbreviation sqrt := (map Num.sqrt).
Abbreviation exp := (map Num.exp).
Abbreviation log := (map Num.log).
Abbreviation erf := (map Num.erf).
(** Multiplication and division by a Python float. *)
Abbreviation smul c := (map (Num.mul (Fin c))).
Abbreviation sdiv c := (map (fun x => Num.div x (Fin c))).

(** [t.unsqueeze(-(p+1))]. *)
Definition unsqueeze {A : Type} (p : nat) (t : tensor A) : option (tensor A) :=
    if (p <=? rank t)%nat
    then Some (mkT (insert_at p 1%nat (tshape t))
                   (fun i => tdata t (remove_at p i)))
    else None.

  (** [t.squeeze(-(p+1))]: drops the axis when its size is 1. *)
Definition squeeze {A : Type} (p : nat) (t : tensor A) : option (tensor A) :=
    match nth_error (tshape t) p with
    | None => None
    | Some n =>
        if (n =? 1)%nat
        then Some (mkT (remove_at p (tshape t))
                       (fun i => tdata t (insert_at p 0%nat i)))
        else Some t
    end.

Definition expand {A : Type} (t : tensor A) (s : shape) : option (tensor A) :=
    if expandable (tshape t) s
    then Some (mkT s (fun i => t @ i))
    else None.

  (** [t.sum(-(p+1))]. *)
Definition sum (p : nat) (t : tensor num) : option (tensor num) :=
    n <- nth_error (tshape t) p ;;
    Some (mkT (remove_at p (tshape t))
              (fun i => nsum n (fun k => tdata t (insert_at p k i)))).

  (** [t.sum(-(p+1), keepdim=True)]. *)
Definition sum_keep (p : nat) (t : tensor num) : option (tensor num) :=
    n <- nth_error (tshape t) p ;;
    Some (mkT (set_at p 1%nat (tshape t))
              (fun i => nsum n (fun k => tdata t (set_at p k i)))).

  (** [torch.max(t, -(p+1))[0]] and [torch.min]: an empty axis raises. *)
Definition reduce (op : num -> num -> num) (p : nat) (t : tensor num)
    : option (tensor num) :=
    n <- nth_error (tshape t) p ;;
    match n with
    | O => None
    | S m =>
        Some (mkT (remove_at p (tshape t))
                  (fun i => nfold op m (fun k => tdata t (insert_at p k i))))
    end.

Definition reduce_keep (op : num -> num -> num) (p : nat) (t : tensor num)
    : option (tensor num) :=
    n <- nth_error (tshape t) p ;;
    match n with
    | O => None
    | S m =>
        Some (mkT (set_at p 1%nat (tshape t))
                  (fun i => nfold op m (fun k => tdata t (set_at p k i))))
    end.

Abbreviation max := (reduce Num.max).
Abbreviation min := (reduce Num.min).
Abbreviation max_keep := (reduce_keep Num.max).

  (** [torch.transpose(t, -1, -2)]. *)
Definition transpose {A : Type} (t : tensor A) : option (tensor A) :=
    match tshape t with
    | a :: b :: r =>
        Some (mkT (b :: a :: r)
                  (fun i => match i with
                            | x :: y :: j => tdata t (y :: x :: j)
                            | _ => tdata t i
                            end))
    | _ => None
    end.

  (** [t[..., d, d, :] = 0.0] with [d = LongTensor(range(K))]: the
      entries whose indices on axes -3 and -2 are the same [k < K]. *)
Definition zero_diagonal (K : nat) (t : tensor num) : option (tensor num) :=
    match tshape t with
    | _ :: n1 :: n2 :: _ =>
        if ((K <=? n1) && (K <=? n2))%nat
        then Some (mkT (tshape t)
                       (fun i => match i with
                                 | _ :: j :: k :: _ =>
                                     if ((j =? k) && (j <? K))%nat
                                     then Fin 0 else tdata t i
                                 | _ => tdata t i
                                 end))
        else None
    | _ => None
    end.

  (** [torch.gather(t, -(p+1), idx)]: ranks agree, every size of [idx]
      off the gather axis is at most [t]'s, every entry of [idx] is a
      valid position on the gather axis. *)
Fixpoint gather_sizes_ok (p k : nat) (ts xs : shape) : bool :=
    match ts, xs with
    | [], [] => true
    | a :: r1, b :: r2 =>
        ((k =? p) || (b <=? a))%nat && gather_sizes_ok p (S k) r1 r2
    | _, _ => false
    end.

Definition gather {A : Type} (p : nat) (t : tensor A) (idx : tensor nat)
    : option (tensor A) :=
    n <- nth_error (tshape t) p ;;
    if gather_sizes_ok p 0 (tshape t) (tshape idx)
       && forallb (fun i => (tdata idx i <? n)%nat) (all_indices (tshape idx))
    then Some (mkT (tshape idx) (fun i => tdata t (set_at p (tdata idx i) i)))
    else None.

End T.

(** ** External collaborators *)

(** Modelled from the spec: [pyro.distributions.util.sum_leftmost] is
    not part of the file under verification.  It is called with a
    negative [dim = -n] and then sums over all leading axes, keeping the
    [n] innermost ones (the spec's "sum over leading sample axes"); with
    no leading axis the value is returned as it is.  A tensor of rank
    below [n] is outside its contract. *)
Definition sum_leftmost (t : tensor num) (n : nat) : option (tensor num) :=
  if (n <=? rank t)%nat
  then Some (mkT (firstn n (tshape t))
                 (fun i => msum (skipn n (tshape t))
                                (fun m => tdata t (firstn n i ++ m))))
  else None.

(** [torch.distributions.Categorical(logits=...).probs]: the softmax of
    the logits along the last axis; torch refuses logits of rank 0. *)
Definition categorical_probs (logits : tensor num) : option (tensor num) :=
  if (rank logits =? 0)%nat then None
  else
    let e := T.exp logits in
    tot <- T.sum_keep 0 e ;;
    T.div e tot.

(** ** The distribution object and its constructor *)

Record dist : Type := mkDist {
  batch_mode : bool;
  locs : tensor num;
  scale : tensor num;
  logits : tensor num;
  dim : nat;
  probs : tensor num;
  batch_shape : shape;
  event_shape : shape
}.

(** A Python [assert]. *)
Definition assert (b : bool) : option unit := if b then Some tt else None.

(** [t.size(a)] for a front axis [a >= 0]. *)
Definition size_front {A : Type} (t : tensor A) (a : nat) : option nat :=
  if (a <? rank t)%nat then nth_error (tshape t) (rank t - 1 - a) else None.

Definition opt_eqb (a b : option nat) : bool :=
  match a, b with
  | Some x, Some y => (x =? y)%nat
  | _, _ => false
  end.

(** [MixtureOfDiagNormalsSharedCovariance.__init__]. *)
Definition init (locs scale logits : tensor num) : option dist :=
  let batch_mode := (2 <? rank locs)%nat in
  _ <- assert (batch_mode || (rank locs =? 2)%nat) ;;
  batch_shape <-
    (if negb batch_mode then
       _ <- assert (rank scale =? 1)%nat ;;
       _ <- assert (rank logits =? 1)%nat ;;
       _ <- assert (opt_eqb (size_front logits 0) (size_front locs 0)) ;;
       Some []
     else
       _ <- assert (1 <? rank scale)%nat ;;
       _ <- assert (1 <? rank logits)%nat ;;
       _ <- assert (opt_eqb (size logits 0) (size locs 1)) ;;
       Some (skipn 2 (tshape locs))) ;;
  dim <- size locs 0 ;;
  probs <- categorical_probs logits ;;
  Some (mkDist batch_mode locs scale logits dim probs batch_shape [dim]).

(** ** [log_prob] *)

(** The local variables of [log_prob] that the properties below speak
    about; [lp_exponent] is the argument of [torch.exp] on line 53. *)
Record log_prob_locals : Type := mkLP {
  lp_eps_sqr : tensor num;
  lp_eps_sqr_min : tensor num;
  lp_exponent : tensor num;
  lp_total : tensor num;
  lp_result : tensor num
}.

Definition log_prob_run (d : dist) (value : tensor num)
  : option log_prob_locals :=
  scale' <- (if batch_mode d then T.unsqueeze 1 (scale d) else Some (scale d)) ;;
  v <- T.unsqueeze 1 value ;;
  diff <- T.sub v (locs d) ;;
  epsilon <- T.div diff scale' ;;
  ssq <- T.sum 0 (T.pow2 epsilon) ;;
  let eps_sqr := T.smul (1 / 2) ssq in
  eps_sqr_min <- T.min 0 eps_sqr ;;
  m <- T.unsqueeze 0 eps_sqr_min ;;
  e <- T.add (T.neg eps_sqr) m ;;
  terms <- T.mul (probs d) (T.exp e) ;;
  tot <- T.sum 0 terms ;;
  let result := T.log tot in
  let result :=
    T.map (fun x => Num.sub x (Fin (1 / 2 * ln (2 * PI) * INR (dim d)))) result in
  lsc <- T.sum 0 (T.log (scale d)) ;;
  result <- T.sub_ result lsc ;;
  result <- T.sub_ result eps_sqr_min ;;
  Some (mkLP eps_sqr eps_sqr_min e tot result).

Definition log_prob (d : dist) (value : tensor num) : option (tensor num) :=
  option_map lp_result (log_prob_run d value).

(** ** The sampling function: [forward] *)

Record saved : Type := mkSaved {
  s_z : tensor num;
  s_scale : tensor num;
  s_locs : tensor num;
  s_logits : tensor num;
  s_pis : tensor num
}.

(** [for _ in range(n): which = which.unsqueeze(-1)]. *)
Fixpoint unsqueeze_loop (n : nat) (which : tensor nat) : option (tensor nat) :=
  match n with
  | O => Some which
  | S m => w <- T.unsqueeze 0 which ;; unsqueeze_loop m w
  end.

(** [forward]; the standard normal draw [locs.new(noise_shape).normal_()]
    is the argument [noise], read at the indices of [noise_shape]. *)
Definition forward (locs scale logits pis : tensor num) (which : tensor nat)
    (noise_shape : shape) (noise : index -> num)
  : option (tensor num * saved) :=
  dim <- size scale 0 ;;
  let white := mkT noise_shape noise in
  let n_unsqueezes := (rank locs - rank which)%nat in
  which <- unsqueeze_loop n_unsqueezes which ;;
  let expand_tuple := dim :: tl (tshape which) in
  idx <- T.expand which expand_tuple ;;
  g <- T.gather 1 locs idx ;;
  loc <- T.squeeze 1 g ;;
  sw <- T.mul scale white ;;
  z <- T.add loc sw ;;
  Some (z, mkSaved z scale locs logits pis).

(** [rsample]; the categorical draw is the argument [which_data]. *)
Definition rsample (d : dist) (sample_shape : shape)
    (which_data : index -> nat) (noise : index -> num)
  : option (tensor num * saved) :=
  let which := mkT (tl (tshape (logits d)) ++ sample_shape) which_data in
  forward (locs d) (scale d) (logits d) (probs d) which
          (tshape (scale d) ++ sample_shape) noise.

(** ** The gradient: [backward] *)

(** The local variables of [backward] under their names in the source,
    and the three gradients it returns (the remaining three entries of
    the returned tuple are [None]). *)
Record locals : Type := mkLocals {
  z_tilde : tensor num;
  locs_tilde : tensor num;
  mu_ab : tensor num;
  mu_ll_ab : tensor num;
  z_ll_ab : tensor num;
  z_perp_ab_sqr : tensor num;
  epsilons : tensor num;
  log_q_j : tensor num;
  log_q_j_max : tensor num;
  q_j_prime_arg : tensor num;
  q_j_prime : tensor num;
  q_j : tensor num;
  q_tot : tensor num;
  q_tot_prime : tensor num;
  perp_arg : tensor num;
  prefactor : tensor num;
  locs_grad : tensor num;
  scale_grad : tensor num;
  logits_grad : tensor num
}.

Definition backward_run (ctx : saved) (grad_output : tensor num)
  : option locals :=
  let z := s_z ctx in
  let scale := s_scale ctx in
  let locs := s_locs ctx in
  let logits := s_logits ctx in
  let pis := s_pis ctx in
  K <- size logits 0 ;;
  (* [scale.dim() - 1]; a scale of rank 0 is rejected by line 90 below
     before [batch_dims] is used *)
  let batch_dims := (rank scale - 1)%nat in
  let g := grad_output in
  z_tilde <- T.div z scale ;;
  scale_u <- T.unsqueeze 1 scale ;;
  locs_tilde <- T.div locs scale_u ;;
  lt_k <- T.unsqueeze 1 locs_tilde ;;
  lt_j <- T.unsqueeze 2 locs_tilde ;;
  mu_ab <- T.sub lt_k lt_j ;;
  mu_sq <- T.sum 0 (T.pow2 mu_ab) ;;
  let mu_ab_norm := T.sqrt mu_sq in
  norm_u <- T.unsqueeze 0 mu_ab_norm ;;
  mu_ab <- T.div_ mu_ab norm_u ;;
  mu_ab <- T.zero_diagonal K mu_ab ;;
  lt_k' <- T.unsqueeze 1 locs_tilde ;;
  lt_mu <- T.mul lt_k' mu_ab ;;
  mu_ll_ab <- T.sum 0 lt_mu ;;
  zt1 <- T.unsqueeze 1 z_tilde ;;
  zt2 <- T.unsqueeze 1 zt1 ;;
  z_mu <- T.mul zt2 mu_ab ;;
  z_ll_ab <- T.sum 0 z_mu ;;
  zt1' <- T.unsqueeze 1 z_tilde ;;
  zt2' <- T.unsqueeze 1 zt1' ;;
  z_ll_u <- T.unsqueeze 0 z_ll_ab ;;
  z_par <- T.mul z_ll_u mu_ab ;;
  z_perp_ab <- T.sub zt2' z_par ;;
  z_perp_ab_sqr <- T.sum 0 (T.pow2 z_perp_ab) ;;
  zt_e <- T.unsqueeze 1 z_tilde ;;
  epsilons <- T.sub zt_e locs_tilde ;;
  let log_qs := T.smul (- (1 / 2)) (T.pow2 epsilons) in
  log_q_j <- T.sum_keep 0 log_qs ;;
  log_q_j_max <- T.max_keep 1 log_q_j ;;
  q_j_prime_arg <- T.sub log_q_j log_q_j_max ;;
  let q_j_prime := T.exp q_j_prime_arg in
  let q_j := T.exp log_q_j in
  pis_u <- T.unsqueeze 0 pis ;;
  pq <- T.mul pis_u q_j ;;
  q_tot <- T.sum 1 pq ;;
  pis_u' <- T.unsqueeze 0 pis ;;
  pq' <- T.mul pis_u' q_j_prime ;;
  pq_sum' <- T.sum 1 pq' ;;
  q_tot_prime <- T.unsqueeze 0 pq_sum' ;;
  let root_two := sqrt 2 in
  mu_ll_ba <- T.transpose mu_ll_ab ;;
  arg1 <- T.sub z_ll_ab mu_ll_ab ;;
  arg2 <- T.add z_ll_ab mu_ll_ba ;;
  logits_grad <- T.sub (T.erf (T.sdiv root_two arg1))
                       (T.erf (T.sdiv root_two arg2)) ;;
  let perp_arg := T.smul (- (1 / 2)) z_perp_ab_sqr in
  logits_grad <- T.mul_ logits_grad (T.exp perp_arg) ;;
  sg <- T.mul scale g ;;
  sg1 <- T.unsqueeze 1 sg ;;
  sg2 <- T.unsqueeze 1 sg1 ;;
  sg_mu <- T.mul sg2 mu_ab ;;
  mu_ab_sigma_g <- T.sum 0 sg_mu ;;
  pis_q <- T.unsqueeze 1 pis ;;
  fac <- T.mul (T.neg mu_ab_sigma_g) pis_q ;;
  logits_grad <- T.mul_ logits_grad fac ;;
  lg_sum <- T.sum 0 logits_grad ;;
  lg_q <- T.div lg_sum q_tot ;;
  lg_l <- sum_leftmost lg_q (1 + batch_dims) ;;
  logits_grad <- T.mul pis lg_l ;;
  let logits_grad :=
    T.map (fun x => Num.mul x (Fin (sqrt (1 / 2 * PI)))) logits_grad in
  pis_p <- T.unsqueeze 0 pis ;;
  pf1 <- T.mul pis_p q_j_prime ;;
  g_u <- T.unsqueeze 1 g ;;
  pf2 <- T.mul pf1 g_u ;;
  prefactor <- T.div pf2 q_tot_prime ;;
  locs_grad <- sum_leftmost prefactor (2 + batch_dims) ;;
  pe <- T.mul prefactor epsilons ;;
  pe_l <- sum_leftmost pe (2 + batch_dims) ;;
  scale_grad <- T.sum 1 pe_l ;;
  Some (mkLocals z_tilde locs_tilde mu_ab mu_ll_ab z_ll_ab z_perp_ab_sqr
                 epsilons log_q_j log_q_j_max q_j_prime_arg q_j_prime q_j
                 q_tot q_tot_prime perp_arg prefactor
                 locs_grad scale_grad logits_grad).

Definition backward (ctx : saved) (grad_output : tensor num)
  : option (tensor num * tensor num * tensor num) :=
  option_map (fun l => (locs_grad l, scale_grad l, logits_grad l))
             (backward_run ctx grad_output).

(** ** [backward] over a store: which tensors are written

    Tensors live in a store of storages.  A reference names a storage
    and a view of it; [unsqueeze] and [transpose] return views of their
    argument's storage, every other operation allocates a new storage
    for its result, and an in-place operation overwrites the storage of
    its target.  The saved tensors and [grad_output] are references into
    the caller's store, possibly views, possibly sharing storages. *)

Definition store := list (tensor num).

Record ref : Type := mkRef {
  sid : nat;
  vw : tensor num -> option (tensor num)
}.

(** The reference to a whole storage. *)
Definition base (n : nat) : ref := mkRef n Some.

Definition value (st : store) (h : ref) : option (tensor num) :=
  t <- nth_error st (sid h) ;; vw h t.

Definition M (A : Type) : Type := store -> option (A * store).

Definition ret {A : Type} (a : A) : M A := fun st => Some (a, st).

Definition sbind {A B : Type} (m : M A) (k : A -> M B) : M B :=
  fun st => r <- m st ;; k (fst r) (snd r).

Notation "x <~ m ;; k" := (sbind m (fun x => k))
  (at level 61, m at next level, right associativity).

Module S.

(** An operation with two tensor arguments and a new result. *)
Definition op2 (f : tensor num -> tensor num -> option (tensor num))
    (h1 h2 : ref) : M nat :=
  fun st =>
    a <- value st h1 ;;
    b <- value st h2 ;;
    c <- f a b ;;
    Some (length st, st ++ [c]).

(** An operation with one tensor argument and a new result. *)
Definition op1 (f : tensor num -> option (tensor num)) (h : ref) : M nat :=
  fun st =>
    a <- value st h ;;
    c <- f a ;;
    Some (length st, st ++ [c]).

(** An elementwise function, allocating its result. *)
Definition map1 (f : tensor num -> tensor num) (h : ref) : M nat :=
  fun st =>
    a <- value st h ;;
    Some (length st, st ++ [f a]).

(** A view: no storage is allocated. *)
Definition view (f : tensor num -> option (tensor num)) (h : ref) : M ref :=
  fun st =>
    a <- value st h ;;
    _ <- f a ;;
    Some (mkRef (sid h) (fun t => x <- vw h t ;; f x), st).

Definition write (n : nat) (c : tensor num) (st : store)
  : option (unit * store) :=
  if (n <? length st)%nat then Some (tt, set_at n c st) else None.

(** [target op= h2]: the target's storage is overwritten. *)
Definition inplace2 (f : tensor num -> tensor num -> option (tensor num))
    (target : nat) (h2 : ref) : M unit :=
  fun st =>
    a <- value st (base target) ;;
    b <- value st h2 ;;
    c <- f a b ;;
    write target c st.

(** An in-place operation without a second tensor. *)
Definition inplace1 (f : tensor num -> option (tensor num)) (target : nat)
  : M unit :=
  fun st =>
    a <- value st (base target) ;;
    c <- f a ;;
    write target c st.

(** Reading a size or a rank. *)
Definition meta {A : Type} (f : tensor num -> option A) (h : ref) : M A :=
  fun st =>
    a <- value st h ;;
    x <- f a ;;
    Some (x, st).

End S.

(** The statements of [backward] in their order; each temporary of an
    expression has a storage of its own.  [sum_leftmost] is taken to
    allocate its result (it may return its argument when there is no
    leading axis; its arguments here are temporaries). *)
Definition backward_st (hz hscale hlocs hlogits hpis hg : ref)
  : M (nat * nat * nat) :=
  K <~ S.meta (fun t => size t 0) hlogits ;;
  rk <~ S.meta (fun t => Some (rank t)) hscale ;;
  let batch_dims := (rk - 1)%nat in
  z_tilde <~ S.op2 T.div hz hscale ;;
  scale_u <~ S.view (T.unsqueeze 1) hscale ;;
  locs_tilde <~ S.op2 T.div hlocs scale_u ;;
  lt_k <~ S.view (T.unsqueeze 1) (base locs_tilde) ;;
  lt_j <~ S.view (T.unsqueeze 2) (base locs_tilde) ;;
  mu_ab <~ S.op2 T.sub lt_k lt_j ;;
  mu_pow <~ S.map1 T.pow2 (base mu_ab) ;;
  mu_sq <~ S.op1 (T.sum 0) (base mu_pow) ;;
  mu_ab_norm <~ S.map1 T.sqrt (base mu_sq) ;;
  norm_u <~ S.view (T.unsqueeze 0) (base mu_ab_norm) ;;
  _ <~ S.inplace2 T.div_ mu_ab norm_u ;;
  _ <~ S.inplace1 (T.zero_diagonal K) mu_ab ;;
  lt_k' <~ S.view (T.unsqueeze 1) (base locs_tilde) ;;
  lt_mu <~ S.op2 T.mul lt_k' (base mu_ab) ;;
  mu_ll_ab <~ S.op1 (T.sum 0) (base lt_mu) ;;
  zt1 <~ S.view (T.unsqueeze 1) (base z_tilde) ;;
  zt2 <~ S.view (T.unsqueeze 1) zt1 ;;
  z_mu <~ S.op2 T.mul zt2 (base mu_ab) ;;
  z_ll_ab <~ S.op1 (T.sum 0) (base z_mu) ;;
  zt1' <~ S.view (T.unsqueeze 1) (base z_tilde) ;;
  zt2' <~ S.view (T.unsqueeze 1) zt1' ;;
  z_ll_u <~ S.view (T.unsqueeze 0) (base z_ll_ab) ;;
  z_par <~ S.op2 T.mul z_ll_u (base mu_ab) ;;
  z_perp_ab <~ S.op2 T.sub zt2' (base z_par) ;;
  z_perp_pow <~ S.map1 T.pow2 (base z_perp_ab) ;;
  z_perp_ab_sqr <~ S.op1 (T.sum 0) (base z_perp_pow) ;;
  zt_e <~ S.view (T.unsqueeze 1) (base z_tilde) ;;
  epsilons <~ S.op2 T.sub zt_e (base locs_tilde) ;;
  eps_pow <~ S.map1 T.pow2 (base epsilons) ;;
  log_qs <~ S.map1 (T.smul (- (1 / 2))) (base eps_pow) ;;
  log_q_j <~ S.op1 (T.sum_keep 0) (base log_qs) ;;
  log_q_j_max <~ S.op1 (T.max_keep 1) (base log_q_j) ;;
  q_j_prime_arg <~ S.op2 T.sub (base log_q_j) (base log_q_j_max) ;;
  q_j_prime <~ S.map1 T.exp (base q_j_prime_arg) ;;
  q_j <~ S.map1 T.exp (base log_q_j) ;;
  pis_u <~ S.view (T.unsqueeze 0) hpis ;;
  pq <~ S.op2 T.mul pis_u (base q_j) ;;
  q_tot <~ S.op1 (T.sum 1) (base pq) ;;
  pis_u' <~ S.view (T.unsqueeze 0) hpis ;;
  pq' <~ S.op2 T.mul pis_u' (base q_j_prime) ;;
  pq_sum' <~ S.op1 (T.sum 1) (base pq') ;;
  q_tot_prime <~ S.view (T.unsqueeze 0) (base pq_sum') ;;
  mu_ll_ba <~ S.view T.transpose (base mu_ll_ab) ;;
  arg1 <~ S.op2 T.sub (base z_ll_ab) (base mu_ll_ab) ;;
  arg1s <~ S.map1 (T.sdiv (sqrt 2)) (base arg1) ;;
  erf1 <~ S.map1 T.erf (base arg1s) ;;
  arg2 <~ S.op2 T.add (base z_ll_ab) mu_ll_ba ;;
  arg2s <~ S.map1 (T.sdiv (sqrt 2)) (base arg2) ;;
  erf2 <~ S.map1 T.erf (base arg2s) ;;
  logits_grad <~ S.op2 T.sub (base erf1) (base erf2) ;;
  perp_arg <~ S.map1 (T.smul (- (1 / 2))) (base z_perp_ab_sqr) ;;
  perp_exp <~ S.map1 T.exp (base perp_arg) ;;
  _ <~ S.inplace2 T.mul_ logits_grad (base perp_exp) ;;
  sg <~ S.op2 T.mul hscale hg ;;
  sg1 <~ S.view (T.unsqueeze 1) (base sg) ;;
  sg2 <~ S.view (T.unsqueeze 1) sg1 ;;
  sg_mu <~ S.op2 T.mul sg2 (base mu_ab) ;;
  mu_ab_sigma_g <~ S.op1 (T.sum 0) (base sg_mu) ;;
  neg_sigma <~ S.map1 T.neg (base mu_ab_sigma_g) ;;
  pis_q <~ S.view (T.unsqueeze 1) hpis ;;
  fac <~ S.op2 T.mul (base neg_sigma) pis_q ;;
  _ <~ S.inplace2 T.mul_ logits_grad (base fac) ;;
  lg_sum <~ S.op1 (T.sum 0) (base logits_grad) ;;
  lg_q <~ S.op2 T.div (base lg_sum) (base q_tot) ;;
  lg_l <~ S.op1 (fun t => sum_leftmost t (1 + batch_dims)) (base lg_q) ;;
  logits_grad' <~ S.op2 T.mul hpis (base lg_l) ;;
  _ <~ S.inplace1
         (fun t => Some (T.map (fun x => Num.mul x (Fin (sqrt (1 / 2 * PI)))) t))
         logits_grad' ;;
  pis_p <~ S.view (T.unsqueeze 0) hpis ;;
  pf1 <~ S.op2 T.mul pis_p (base q_j_prime) ;;
  g_u <~ S.view (T.unsqueeze 1) hg ;;
  pf2 <~ S.op2 T.mul (base pf1) g_u ;;
  prefactor <~ S.op2 T.div (base pf2) q_tot_prime ;;
  locs_grad <~ S.op1 (fun t => sum_leftmost t (2 + batch_dims)) (base prefactor) ;;
  pe <~ S.op2 T.mul (base prefactor) (base epsilons) ;;
  pe_l <~ S.op1 (fun t => sum_leftmost t (2 + batch_dims)) (base pe) ;;
  scale_grad <~ S.op1 (T.sum 1) (base pe_l) ;;
  ret (locs_grad, scale_grad, logits_grad').

(** * Properties *)

(** ** Shapes, indices and broadcasting *)

Lemma bind_some {A B : Type} (a : A) (k : A -> option B) :
  bind (Some a) k = k a.
Proof. reflexivity. Qed.

(** The index used for one axis of size [n] under broadcasting. *)
Definition bix (n k : nat) : nat := if (n =? 1)%nat then 0%nat else k.

Lemma bidx_cons (n : nat) (s : shape) (k : nat) (i : index) :
  bidx (n :: s) (k :: i) = bix n k :: bidx s i.
Proof. reflexivity. Qed.

Lemma bix_lt (n k : nat) : (k < n)%nat -> bix n k = k.
Proof.
  unfold bix. destruct (Nat.eqb_spec n 1); [lia | reflexivity].
Qed.

Lemma bix_1 (k : nat) : bix 1 k = 0%nat.
Proof. reflexivity. Qed.

Lemma bdim_refl (n : nat) : bdim n n = Some n.
Proof. unfold bdim. now rewrite Nat.eqb_refl. Qed.

Lemma bdim_1_r (n : nat) : bdim n 1 = Some n.
Proof.
  unfold bdim. destruct (Nat.eqb_spec n 1) as [-> | _]; [reflexivity |].
  reflexivity.
Qed.

Lemma bdim_1_l (n : nat) : bdim 1 n = Some n.
Proof.
  unfold bdim. destruct (Nat.eqb_spec 1 n) as [<- | _]; reflexivity.
Qed.

Lemma bdim_inv (a b d : nat) :
  bdim a b = Some d -> (a = d \/ a = 1%nat) /\ (b = d \/ b = 1%nat).
Proof.
  unfold bdim.
  destruct (Nat.eqb_spec a b); [intros [= <-]; subst; auto |].
  destruct (Nat.eqb_spec a 1); [intros [= <-]; auto |].
  destruct (Nat.eqb_spec b 1); [intros [= <-]; auto | discriminate].
Qed.

Lemma bshape_nil_r (s : shape) : bshape s [] = Some s.
Proof. destruct s; reflexivity. Qed.

Lemma bshape_refl (s : shape) : bshape s s = Some s.
Proof.
  induction s as [| a s IH]; [reflexivity |].
  simpl. rewrite bdim_refl, IH. reflexivity.
Qed.

Lemma bshape_app_l (s t : shape) : bshape (s ++ t) s = Some (s ++ t).
Proof.
  induction s as [| a s IH]; simpl; [apply bshape_nil_r |].
  rewrite bdim_refl, IH. reflexivity.
Qed.

Lemma bshape_app_r (s t : shape) : bshape s (s ++ t) = Some (s ++ t).
Proof.
  induction s as [| a s IH]; simpl; [reflexivity |].
  rewrite bdim_refl, IH. reflexivity.
Qed.

Lemma bshape_cons (a b d : nat) (r1 r2 r : shape) :
  bdim a b = Some d -> bshape r1 r2 = Some r ->
  bshape (a :: r1) (b :: r2) = Some (d :: r).
Proof. intros Hd Hr. simpl. rewrite Hd, Hr. reflexivity. Qed.

Lemma in_range_length (s : shape) (i : index) :
  in_range s i -> length i = length s.
Proof.
  revert i; induction s as [| n s IH]; intros [| k i]; simpl; try tauto.
  intros [_ H]. f_equal. now apply IH.
Qed.

Lemma bidx_in_range (s : shape) (i : index) : in_range s i -> bidx s i = i.
Proof.
  revert i; induction s as [| n s IH]; intros [| k i]; simpl; try tauto.
  intros [Hk H]. fold (bix n k). rewrite bix_lt by exact Hk. f_equal. now apply IH.
Qed.

Lemma in_range_app (s t : shape) (i j : index) :
  in_range s i -> in_range t j -> in_range (s ++ t) (i ++ j).
Proof.
  revert i; induction s as [| n s IH]; intros [| k i]; simpl; try tauto.
  intros [Hk H] Hj. split; [exact Hk | now apply IH].
Qed.

Lemma in_range_app_inv (s t : shape) (r : index) :
  in_range (s ++ t) r ->
  in_range s (firstn (length s) r) /\ in_range t (skipn (length s) r).
Proof.
  revert r; induction s as [| n s IH]; intros r; simpl.
  - intros H. split; [exact I | exact H].
  - destruct r as [| k r]; [tauto |]. intros [Hk H].
    destruct (IH r H) as [H1 H2]. simpl. tauto.
Qed.

Lemma bidx_prefix (s t : shape) (r : index) :
  in_range (s ++ t) r -> bidx s r = firstn (length s) r.
Proof.
  revert r; induction s as [| n s IH]; intros r; simpl; [reflexivity |].
  destruct r as [| k r]; [tauto |]. intros [Hk H]. simpl.
  fold (bix n k). rewrite bix_lt by exact Hk. f_equal. now apply IH.
Qed.

Lemma firstn_app_length {A : Type} (l1 l2 : list A) :
  firstn (length l1) (l1 ++ l2) = l1.
Proof.
  induction l1 as [| a l1 IH]; simpl; [reflexivity | now rewrite IH].
Qed.

Lemma skipn_app_length {A : Type} (l1 l2 : list A) :
  skipn (length l1) (l1 ++ l2) = l2.
Proof. induction l1 as [| a l1 IH]; simpl; auto. Qed.

(** Broadcasting reads the operands inside their own shapes. *)
Lemma bshape_in_range (s1 s2 s : shape) (i : index) :
  bshape s1 s2 = Some s -> in_range s i ->
  in_range s1 (bidx s1 i) /\ in_range s2 (bidx s2 i).
Proof.
  revert s2 s i; induction s1 as [| a r1 IH]; intros s2 s i.
  - simpl. intros [= <-] Hi. split; [exact I |].
    now rewrite bidx_in_range.
  - destruct s2 as [| b r2].
    + intros H Hi. simpl in H. injection H as <-. split; [| exact I].
      now rewrite (bidx_in_range _ _ Hi).
    + simpl. destruct (bdim a b) as [d |] eqn:Hd; [| discriminate].
      destruct (bshape r1 r2) as [r |] eqn:Hr; [| discriminate].
      simpl. intros [= <-]. destruct i as [| k i]; [simpl; tauto |].
      intros [Hk Hi]. destruct (IH r2 r i Hr Hi) as [H1 H2].
      simpl. fold (bix a k) (bix b k).
      destruct (bdim_inv _ _ _ Hd) as [[-> | ->] [-> | ->]];
        repeat split; auto; unfold bix;
        repeat match goal with
               | |- context [(?x =? 1)%nat] => destruct (Nat.eqb_spec x 1)
               end; lia.
Qed.

Lemma in_range_insert (p n k : nat) (s : shape) (i : index) :
  nth_error s p = Some n -> (k < n)%nat -> in_range (remove_at p s) i ->
  in_range s (insert_at p k i).
Proof.
  unfold remove_at, insert_at.
  revert s i; induction p as [| p IH]; intros [| a s] i; simpl; try discriminate.
  - intros [= ->] Hk Hi. tauto.
  - intros Hn Hk. destruct i as [| x i]; [tauto |]. intros [Hx Hi].
    simpl. split; [exact Hx | now apply IH].
Qed.

Lemma in_range_set (p n k : nat) (s : shape) (i : index) :
  nth_error s p = Some n -> (k < n)%nat -> in_range (set_at p 1%nat s) i ->
  in_range s (set_at p k i).
Proof.
  unfold set_at.
  revert s i; induction p as [| p IH]; intros [| a s] i; simpl; try discriminate.
  - intros [= ->] Hk. destruct i as [| x i]; [tauto |]. simpl. tauto.
  - intros Hn Hk. destruct i as [| x i]; [tauto |]. intros [Hx Hi].
    simpl. split; [exact Hx | now apply IH].
Qed.

Lemma in_range_remove (p : nat) (s : shape) (i : index) :
  (p <= length s)%nat -> in_range (insert_at p 1%nat s) i ->
  in_range s (remove_at p i).
Proof.
  unfold remove_at, insert_at.
  revert s i; induction p as [| p IH]; intros s i; simpl.
  - intros _. destruct i as [| x i]; [tauto |]. tauto.
  - destruct s as [| a s]; simpl; [lia |]. intros Hp.
    destruct i as [| x i]; [tauto |]. intros [Hx Hi].
    simpl. split; [exact Hx |]. apply IH; [lia | exact Hi].
Qed.

(** ** Sums *)

Lemma nsum_ext (n : nat) (f g : nat -> num) :
  (forall k, (k < n)%nat -> f k = g k) -> nsum n f = nsum n g.
Proof.
  induction n as [| n IH]; intros H; simpl; [reflexivity |].
  rewrite IH by (intros; apply H; lia). rewrite H by lia. reflexivity.
Qed.

Lemma nfold_ext (op : num -> num -> num) (n : nat) (f g : nat -> num) :
  (forall k, (k <= n)%nat -> f k = g k) -> nfold op n f = nfold op n g.
Proof.
  induction n as [| n IH]; intros H; simpl; [apply H; lia |].
  rewrite IH by (intros; apply H; lia). rewrite H by lia. reflexivity.
Qed.

Lemma msum_ext (ds : shape) (f g : index -> num) :
  (forall m, in_range ds m -> f m = g m) -> msum ds f = msum ds g.
Proof.
  revert f g; induction ds as [| n ds IH]; intros f g H; simpl.
  - apply H. exact I.
  - apply nsum_ext. intros k Hk. apply IH. intros m Hm. apply H. simpl. tauto.
Qed.

(** ** What a tensor holds: shape and entries inside the shape *)

Definition agrees {A : Type} (t : tensor A) (s : shape) (f : index -> A) : Prop :=
  tshape t = s /\ forall i, in_range s i -> tdata t i = f i.

Lemma agrees_self {A : Type} (s : shape) (f : index -> A) : agrees (mkT s f) s f.
Proof. split; [reflexivity | intros; reflexivity]. Qed.

Lemma agrees_ext {A : Type} (t : tensor A) (s : shape) (f f' : index -> A) :
  agrees t s f -> (forall i, in_range s i -> f i = f' i) -> agrees t s f'.
Proof.
  intros [Hs Hd] H. split; [exact Hs |].
  intros i Hi. rewrite Hd by exact Hi. now apply H.
Qed.

Lemma agrees_data {A : Type} (t : tensor A) (s : shape) (f : index -> A) (i : index) :
  agrees t s f -> in_range s i -> tdata t i = f i.
Proof. intros [_ H]. apply H. Qed.

Lemma agrees_shape {A : Type} (t : tensor A) (s : shape) (f : index -> A) :
  agrees t s f -> tshape t = s.
Proof. now intros [H _]. Qed.

Section OpSpecs.

Context {A B C : Type}.

Lemma map_ok (h : A -> B) (a : tensor A) (s : shape) (fa : index -> A) :
    agrees a s fa -> agrees (T.map h a) s (fun i => h (fa i)).
  Proof.
    intros [Hs Hd]. split; [exact Hs |].
    intros i Hi. simpl. now rewrite Hd.
  Qed.

Lemma bop_ok (h : A -> B -> C) (a : tensor A) (b : tensor B)
      (sa sb s : shape) (fa : index -> A) (fb : index -> B) :
    agrees a sa fa -> agrees b sb fb -> bshape sa sb = Some s ->
    exists c, T.bop h a b = Some c /\
              agrees c s (fun i => h (fa (bidx sa i)) (fb (bidx sb i))).
  Proof.
    intros [Hsa Hda] [Hsb Hdb] Hs. unfold T.bop. rewrite Hsa, Hsb, Hs.
    eexists; split; [reflexivity |]. split; [reflexivity |].
    intros i Hi. simpl. unfold tget. rewrite Hsa, Hsb.
    destruct (bshape_in_range _ _ _ _ Hs Hi) as [H1 H2].
    now rewrite Hda, Hdb.
  Qed.

Lemma bop_inplace_ok (h : A -> B -> A) (a : tensor A) (b : tensor B)
      (sa sb : shape) (fa : index -> A) (fb : index -> B) :
    agrees a sa fa -> agrees b sb fb -> bshape sa sb = Some sa ->
    exists c, T.bop_ h a b = Some c /\
              agrees c sa (fun i => h (fa i) (fb (bidx sb i))).
  Proof.
    intros [Hsa Hda] [Hsb Hdb] Hs. unfold T.bop_. rewrite Hsa, Hsb, Hs.
    cbn [bind]. unfold shape_eqb.
    destruct (list_eq_dec Nat.eq_dec sa sa) as [_ | Hne]; [| congruence].
    eexists; split; [reflexivity |]. split; [reflexivity |].
    intros i Hi. simpl. unfold tget. rewrite Hsa, Hsb.
    destruct (bshape_in_range _ _ _ _ Hs Hi) as [H1 H2].
    rewrite Hda, Hdb by assumption.
    now rewrite (bidx_in_range _ _ Hi).
  Qed.

Lemma unsqueeze_ok (p : nat) (a : tensor A) (s : shape) (fa : index -> A) :
    agrees a s fa -> (p <= length s)%nat ->
    exists c, T.unsqueeze p a = Some c /\
              agrees c (insert_at p 1%nat s) (fun i => fa (remove_at p i)).
  Proof.
    intros [Hs Hd] Hp. unfold T.unsqueeze, rank. rewrite Hs.
    destruct (Nat.leb_spec p (length s)) as [_ | H]; [| lia].
    eexists; split; [reflexivity |]. split; [reflexivity |].
    intros i Hi. simpl. apply Hd. now apply in_range_remove.
  Qed.

Lemma transpose_ok (a : tensor A) (n m : nat) (r : shape) (fa : index -> A) :
    agrees a (n :: m :: r) fa ->
    exists c, T.transpose a = Some c /\
              agrees c (m :: n :: r)
                     (fun i => match i with
                               | x :: y :: j => fa (y :: x :: j)
                               | _ => fa i
                               end).
  Proof.
    intros [Hs Hd]. unfold T.transpose. rewrite Hs.
    eexists; split; [reflexivity |]. split; [reflexivity |].
    intros [| x [| y j]]; simpl; try tauto.
    intros (Hx & Hy & Hj). apply Hd. simpl. tauto.
  Qed.

End OpSpecs.

Lemma sum_ok (p n : nat) (a : tensor num) (s : shape) (fa : index -> num) :
  agrees a s fa -> nth_error s p = Some n ->
  exists c, T.sum p a = Some c /\
            agrees c (remove_at p s)
                   (fun i => nsum n (fun k => fa (insert_at p k i))).
Proof.
  intros [Hs Hd] Hn. unfold T.sum. rewrite Hs, Hn. cbn [bind].
  eexists; split; [reflexivity |]. split; [reflexivity |].
  intros i Hi. simpl. apply nsum_ext. intros k Hk. apply Hd.
  now apply (in_range_insert p n).
Qed.

Lemma sum_keep_ok (p n : nat) (a : tensor num) (s : shape) (fa : index -> num) :
  agrees a s fa -> nth_error s p = Some n ->
  exists c, T.sum_keep p a = Some c /\
            agrees c (set_at p 1%nat s)
                   (fun i => nsum n (fun k => fa (set_at p k i))).
Proof.
  intros [Hs Hd] Hn. unfold T.sum_keep. rewrite Hs, Hn. cbn [bind].
  eexists; split; [reflexivity |]. split; [reflexivity |].
  intros i Hi. simpl. apply nsum_ext. intros k Hk. apply Hd.
  now apply (in_range_set p n).
Qed.

Lemma reduce_ok (op : num -> num -> num) (p m : nat) (a : tensor num)
    (s : shape) (fa : index -> num) :
  agrees a s fa -> nth_error s p = Some (S m) ->
  exists c, T.reduce op p a = Some c /\
            agrees c (remove_at p s)
                   (fun i => nfold op m (fun k => fa (insert_at p k i))).
Proof.
  intros [Hs Hd] Hn. unfold T.reduce. rewrite Hs, Hn. cbn [bind].
  eexists; split; [reflexivity |]. split; [reflexivity |].
  intros i Hi. simpl. apply nfold_ext. intros k Hk. apply Hd.
  apply (in_range_insert p (S m)); [exact Hn | lia | exact Hi].
Qed.

Lemma reduce_keep_ok (op : num -> num -> num) (p m : nat) (a : tensor num)
    (s : shape) (fa : index -> num) :
  agrees a s fa -> nth_error s p = Some (S m) ->
  exists c, T.reduce_keep op p a = Some c /\
            agrees c (set_at p 1%nat s)
                   (fun i => nfold op m (fun k => fa (set_at p k i))).
Proof.
  intros [Hs Hd] Hn. unfold T.reduce_keep. rewrite Hs, Hn. cbn [bind].
  eexists; split; [reflexivity |]. split; [reflexivity |].
  intros i Hi. simpl. apply nfold_ext. intros k Hk. apply Hd.
  apply (in_range_set p (S m)); [exact Hn | lia | exact Hi].
Qed.

Lemma zero_diagonal_ok (K n0 n1 n2 : nat) (r : shape) (a : tensor num)
    (fa : index -> num) :
  agrees a (n0 :: n1 :: n2 :: r) fa -> (K <= n1)%nat -> (K <= n2)%nat ->
  exists c, T.zero_diagonal K a = Some c /\
            agrees c (n0 :: n1 :: n2 :: r)
                   (fun i => match i with
                             | _ :: j :: k :: _ =>
                                 if ((j =? k) && (j <? K))%nat
                                 then Fin 0 else fa i
                             | _ => fa i
                             end).
Proof.
  intros [Hs Hd] H1 H2. unfold T.zero_diagonal. rewrite Hs.
  destruct (Nat.leb_spec K n1) as [_ | H]; [| lia].
  destruct (Nat.leb_spec K n2) as [_ | H]; [| lia].
  eexists; split; [reflexivity |]. split; [reflexivity |].
  intros [| x [| j [| k i]]] Hi; simpl; try (apply Hd; exact Hi).
  destruct ((j =? k) && (j <? K))%nat; [reflexivity | now apply Hd].
Qed.

Lemma sum_leftmost_ok (a : tensor num) (s1 s2 : shape) (n : nat)
    (fa : index -> num) :
  agrees a (s1 ++ s2) fa -> n = length s1 ->
  exists c, sum_leftmost a n = Some c /\
            agrees c s1 (fun i => msum s2 (fun m => fa (i ++ m))).
Proof.
  intros [Hs Hd] ->. unfold sum_leftmost, rank. rewrite Hs.
  rewrite length_app.
  destruct (Nat.leb_spec (length s1) (length s1 + length s2)) as [_ | H]; [| lia].
  rewrite firstn_app_length, skipn_app_length.
  eexists; split; [reflexivity |]. split; [reflexivity |].
  intros i Hi. simpl. apply msum_ext. intros m Hm.
  rewrite <- (in_range_length _ _ Hi), firstn_all.
  apply Hd. now apply in_range_app.
Qed.

(** ** The constructor *)

(** The rank and size constraints as the specification words them:
    [batch_mode = rank(locs) > 2]; without batch mode [scale] and
    [logits] have rank 1 and [logits.size == locs.size(-2)]; in batch
    mode both have rank above 1 and [logits.size(-1) == locs.size(-2)].
    A size that does not exist equals nothing. *)
Definition shape_constraints (locs scale logits : tensor num) : Prop :=
  if (2 <? rank locs)%nat
  then (1 < rank scale)%nat /\ (1 < rank logits)%nat /\
       exists K, size logits 0 = Some K /\ size locs 1 = Some K
  else rank scale = 1%nat /\ rank logits = 1%nat /\
       exists K, size logits 0 = Some K /\ size locs 1 = Some K.

(** The batch shape the specification assigns (outermost axis last). *)
Definition spec_batch_shape (locs : tensor num) : shape :=
  if (2 <? rank locs)%nat then skipn 2 (tshape locs) else [].

(** Reading one axis of an index, and the axes after the first [p]. *)
Definition ax (p : nat) (i : index) : nat := nth p i 0%nat.
Definition rest (p : nat) (i : index) : index := skipn p i.

(** Normalisation of index expressions: list surgery is computed,
    broadcasting of an index inside its range is the identity. *)
Ltac idx_norm :=
  unfold set_at, insert_at, remove_at, ax, rest;
  cbn [firstn skipn app tl hd nth];
  rewrite ?bidx_cons;
  cbn [firstn skipn app tl hd nth];
  rewrite ?bix_1;
  repeat match goal with
         | H : (?k < ?n)%nat |- context [bix ?n ?k] => rewrite (bix_lt n k H)
         | H : in_range ?s ?i |- context [bidx ?s ?i] =>
             rewrite (bidx_in_range s i H)
         end.

Lemma agrees_refl {A : Type} (t : tensor A) : agrees t (tshape t) (tdata t).
Proof. split; [reflexivity | intros; reflexivity]. Qed.

(** The probabilities are the softmax of the logits. *)
Lemma categorical_probs_ok (logits : tensor num) (K : nat) (r : shape)
    (fl : index -> num) :
  agrees logits (K :: r) fl ->
  exists p, categorical_probs logits = Some p /\
            agrees p (K :: r)
                   (fun i => Num.div (Num.exp (fl i))
                                     (nsum K (fun k => Num.exp (fl (k :: tl i))))).
Proof.
  intros Hl. unfold categorical_probs, rank.
  rewrite (agrees_shape _ _ _ Hl). cbn [length Nat.eqb].
  pose proof (map_ok Num.exp _ _ _ Hl) as He.
  destruct (sum_keep_ok 0 K _ _ _ He eq_refl) as (tot & Et & Ht).
  rewrite Et. cbn [bind].
  destruct (bop_ok Num.div _ _ _ _ (K :: r) _ _ He Ht) as (p & Ep & Hp).
  { unfold set_at. cbn [firstn skipn app bshape].
    rewrite bdim_1_r, bshape_refl. reflexivity. }
  rewrite Ep. exists p. split; [reflexivity |].
  apply (agrees_ext _ _ _ _ Hp).
  intros [| k i] Hi; [simpl in Hi; tauto |]. destruct Hi as [Hk Hi].
  idx_norm. reflexivity.
Qed.

Lemma categorical_probs_some (logits : tensor num) :
  (0 < rank logits)%nat -> exists p, categorical_probs logits = Some p.
Proof.
  unfold rank. intros H.
  destruct (tshape logits) as [| K r] eqn:Hs; [simpl in H; lia |].
  destruct (categorical_probs_ok logits K r (tdata logits)) as (p & Hp & _).
  { rewrite <- Hs. apply agrees_refl. }
  eauto.
Qed.

Lemma opt_eqb_true (a b : option nat) :
  opt_eqb a b = true <-> exists n, a = Some n /\ b = Some n.
Proof.
  destruct a as [x |], b as [y |]; simpl; split;
    try discriminate; try (intros (n & H1 & H2); discriminate).
  - intros H. apply Nat.eqb_eq in H. subst. eauto.
  - intros (n & [= ->] & [= ->]). apply Nat.eqb_refl.
Qed.

Lemma size_front_rank1 {A : Type} (t : tensor A) :
  rank t = 1%nat -> size_front t 0 = size t 0.
Proof. unfold size_front, size. intros ->. reflexivity. Qed.

Lemma size_front_rank2 {A : Type} (t : tensor A) :
  rank t = 2%nat -> size_front t 0 = size t 1.
Proof. unfold size_front, size. intros ->. reflexivity. Qed.

Lemma size_some {A : Type} (t : tensor A) (p : nat) :
  (p < rank t)%nat -> exists n, size t p = Some n.
Proof.
  unfold size, rank. intros H.
  destruct (nth_error (tshape t) p) eqn:E; [eauto |].
  apply nth_error_None in E. lia.
Qed.

Lemma size_none {A : Type} (t : tensor A) (p : nat) :
  (rank t <= p)%nat -> size t p = None.
Proof. unfold size, rank. intros H. now apply nth_error_None. Qed.

(** The constructor succeeds exactly under the constraints. *)
Lemma init_some_iff (locs scale logits : tensor num) :
  (exists d, init locs scale logits = Some d) <->
  shape_constraints locs scale logits.
Proof.
  unfold init, shape_constraints.
  destruct (Nat.ltb_spec 2 (rank locs)) as [Hb | Hb]; cbn [orb negb].
  - (* batch mode *)
    cbn [assert bind].
    destruct (Nat.ltb_spec 1 (rank scale)) as [Hs | Hs]; cbn [assert bind];
      [| split; [intros [d H]; discriminate | intros (H & _); lia]].
    destruct (Nat.ltb_spec 1 (rank logits)) as [Hl | Hl]; cbn [assert bind];
      [| split; [intros [d H]; discriminate | intros (_ & H & _); lia]].
    destruct (opt_eqb (size logits 0) (size locs 1)) eqn:E; cbn [assert bind].
    + apply opt_eqb_true in E.
      destruct (size_some locs 0 ltac:(lia)) as [D HD]. rewrite HD. cbn [bind].
      destruct (categorical_probs_some logits ltac:(lia)) as [p Hp].
      rewrite Hp. cbn [bind]. split; [intros _; auto | intros _; eauto].
    + split; [intros [d H]; discriminate |].
      intros (_ & _ & HK). apply opt_eqb_true in HK. congruence.
  - (* no batch mode *)
    destruct (Nat.eqb_spec (rank locs) 2) as [H2 | H2]; cbn [assert bind].
    + destruct (Nat.eqb_spec (rank scale) 1) as [Hs | Hs]; cbn [assert bind];
        [| split; [intros [d H]; discriminate | intros (H & _); lia]].
      destruct (Nat.eqb_spec (rank logits) 1) as [Hl | Hl]; cbn [assert bind];
        [| split; [intros [d H]; discriminate | intros (_ & H & _); lia]].
      rewrite (size_front_rank1 logits Hl), (size_front_rank2 locs H2).
      destruct (opt_eqb (size logits 0) (size locs 1)) eqn:E; cbn [assert bind].
      * apply opt_eqb_true in E.
        destruct (size_some locs 0 ltac:(lia)) as [D HD]. rewrite HD. cbn [bind].
        destruct (categorical_probs_some logits ltac:(lia)) as [p Hp].
        rewrite Hp. cbn [bind]. split; [intros _; auto | intros _; eauto].
      * split; [intros [d H]; discriminate |].
        intros (_ & _ & HK). apply opt_eqb_true in HK. congruence.
    + split; [intros [d H]; discriminate |].
      intros (_ & _ & K & _ & HK).
      rewrite size_none in HK by lia. discriminate.
Qed.


Lemma init_fields (ml sc lg : tensor num) (d : dist) :
  init ml sc lg = Some d ->
  batch_mode d = (2 <? rank ml)%nat /\
  batch_shape d = spec_batch_shape ml /\
  size ml 0 = Some (dim d) /\
  event_shape d = [dim d] /\
  locs d = ml /\ scale d = sc /\ logits d = lg /\
  categorical_probs lg = Some (probs d).
Proof.
  unfold init, spec_batch_shape.
  destruct (assert _); [| discriminate]. cbn [bind].
  destruct (2 <? rank ml)%nat; cbn [negb];
    repeat (destruct (assert _); [| discriminate]; cbn [bind]);
    (destruct (size ml 0) as [D |]; [| discriminate]); cbn [bind];
    (destruct (categorical_probs lg) as [p |]; [| discriminate]); cbn [bind];
    intros [= <-]; cbn; repeat split; reflexivity.
Qed.

(** C8, the part that holds: the constructor raises exactly when the
    rank and size constraints are violated, and on success the batch
    shape is [()] without batch mode and [locs.shape[:-2]] in batch
    mode. *)
Theorem init_raises_iff_constraints_violated (ml sc lg : tensor num) :
  (init ml sc lg = None <-> ~ shape_constraints ml sc lg) /\
  (forall d, init ml sc lg = Some d ->
             batch_mode d = (2 <? rank ml)%nat /\
             batch_shape d = spec_batch_shape ml).
Proof.
  split.
  - pose proof (init_some_iff ml sc lg) as H.
    destruct (init ml sc lg) as [d |].
    + split; [discriminate |]. intros Hn. exfalso. apply Hn, H. eauto.
    + split; [| reflexivity]. intros _ Hc. apply H in Hc.
      destruct Hc as [d Hd]. discriminate.
  - intros d Hd. destruct (init_fields _ _ _ _ Hd) as (H1 & H2 & _).
    split; assumption.
Qed.

(** A concrete instance whose scale has length 2 while [D = 3]. *)
Definition const_tensor (s : shape) (c : R) : tensor num :=
  mkT s (fun _ => Fin c).

Definition cx_locs : tensor num := const_tensor [3; 2]%nat 0.
Definition cx_scale : tensor num := const_tensor [2]%nat 1.
Definition cx_logits : tensor num := const_tensor [2]%nat 0.
Definition cx_value : tensor num := const_tensor [3]%nat 0.

(** C8 as stated fails: construction succeeds for [locs] of shape
    [(2,3)], [scale] of shape [(2,)] and [logits] of shape [(2,)], and
    [log_prob] then raises on a value of the event shape [(3,)], since
    [(1,3) - (2,3)] divided by a tensor of shape [(2,)] does not
    broadcast. *)
Lemma shape_error_after_construction :
  exists d, init cx_locs cx_scale cx_logits = Some d /\
            tshape cx_value = event_shape d /\
            log_prob d cx_value = None.
Proof.
  eexists. split; [reflexivity |]. split; reflexivity.
Qed.

(** C10: for a [locs] of rank 2, a [scale] of rank 1 and any length, and
    a [logits] of rank 1 whose length is [locs.size(0)], the constructor
    succeeds, and the event shape is [locs.size(-1)] whatever the length
    of [scale]. *)
Theorem init_ignores_scale_length (D K n : nat) (fl fs fg : index -> num) :
  exists d, init (mkT [D; K] fl) (mkT [n] fs) (mkT [K] fg) = Some d /\
            event_shape d = [D] /\ batch_shape d = [] /\
            tshape (scale d) = [n].
Proof.
  destruct (proj2 (init_some_iff (mkT [D; K] fl) (mkT [n] fs) (mkT [K] fg)))
    as [d Hd].
  { unfold shape_constraints, rank, size. cbn.
    repeat split; try reflexivity. exists K. split; reflexivity. }
  exists d. split; [exact Hd |].
  destruct (init_fields _ _ _ _ Hd) as (_ & Hb & HD & He & _ & Hs & _).
  cbn in HD. injection HD as HD. rewrite He, Hb, Hs, <- HD.
  repeat split; reflexivity.
Qed.

(** ** Finite arithmetic *)

Fixpoint rsum (n : nat) (f : nat -> R) : R :=
  match n with
  | O => 0
  | S m => rsum m f + f m
  end.

Fixpoint rfold (op : R -> R -> R) (n : nat) (f : nat -> R) : R :=
  match n with
  | O => f 0%nat
  | S m => op (rfold op m f) (f (S m))
  end.

Fixpoint rmsum (ds : shape) (f : index -> R) : R :=
  match ds with
  | [] => f []
  | n :: r => rsum n (fun k => rmsum r (fun m => f (k :: m)))
  end.

Lemma nsum_fin (n : nat) (f : nat -> R) :
  nsum n (fun k => Fin (f k)) = Fin (rsum n f).
Proof.
  induction n as [| n IH]; simpl; [reflexivity | now rewrite IH].
Qed.

Lemma nsum_fin_ext (n : nat) (f : nat -> num) (g : nat -> R) :
  (forall k, (k < n)%nat -> f k = Fin (g k)) -> nsum n f = Fin (rsum n g).
Proof.
  intros H. rewrite (nsum_ext n f (fun k => Fin (g k)) H). apply nsum_fin.
Qed.

Lemma nfold_fin (op : num -> num -> num) (rop : R -> R -> R) (n : nat)
    (f : nat -> R) :
  (forall a b, op (Fin a) (Fin b) = Fin (rop a b)) ->
  nfold op n (fun k => Fin (f k)) = Fin (rfold rop n f).
Proof.
  intros Hop. induction n as [| n IH]; simpl; [reflexivity |].
  now rewrite IH, Hop.
Qed.

Lemma nfold_fin_ext (op : num -> num -> num) (rop : R -> R -> R) (n : nat)
    (f : nat -> num) (g : nat -> R) :
  (forall a b, op (Fin a) (Fin b) = Fin (rop a b)) ->
  (forall k, (k <= n)%nat -> f k = Fin (g k)) ->
  nfold op n f = Fin (rfold rop n g).
Proof.
  intros Hop H. rewrite (nfold_ext op n f (fun k => Fin (g k)) H).
  now apply nfold_fin.
Qed.

Lemma msum_fin_ext (ds : shape) (f : index -> num) (g : index -> R) :
  (forall m, in_range ds m -> f m = Fin (g m)) -> msum ds f = Fin (rmsum ds g).
Proof.
  revert f g; induction ds as [| n ds IH]; intros f g H; simpl.
  - apply H. exact I.
  - apply nsum_fin_ext. intros k Hk. apply IH. intros m Hm. apply H.
    simpl. tauto.
Qed.

Lemma rsum_ext (n : nat) (f g : nat -> R) :
  (forall k, (k < n)%nat -> f k = g k) -> rsum n f = rsum n g.
Proof.
  induction n as [| n IH]; intros H; simpl; [reflexivity |].
  rewrite IH by (intros; apply H; lia). rewrite H by lia. reflexivity.
Qed.

Lemma rfold_ext (op : R -> R -> R) (n : nat) (f g : nat -> R) :
  (forall k, (k <= n)%nat -> f k = g k) -> rfold op n f = rfold op n g.
Proof.
  induction n as [| n IH]; intros H; simpl; [apply H; lia |].
  rewrite IH by (intros; apply H; lia). rewrite H by lia. reflexivity.
Qed.

Lemma rmsum_ext (ds : shape) (f g : index -> R) :
  (forall m, in_range ds m -> f m = g m) -> rmsum ds f = rmsum ds g.
Proof.
  revert f g; induction ds as [| n ds IH]; intros f g H; simpl.
  - apply H. exact I.
  - apply rsum_ext. intros k Hk. apply IH. intros m Hm. apply H. simpl. tauto.
Qed.

Lemma rsum_scal (c : R) (n : nat) (f : nat -> R) :
  rsum n (fun k => c * f k) = c * rsum n f.
Proof. induction n as [| n IH]; simpl; [lra | rewrite IH; lra]. Qed.

Lemma rsum_div (c : R) (n : nat) (f : nat -> R) :
  rsum n (fun k => f k / c) = rsum n f / c.
Proof.
  induction n as [| n IH]; simpl; [unfold Rdiv; lra | rewrite IH; unfold Rdiv; lra].
Qed.

Lemma rsum_nonneg (n : nat) (f : nat -> R) :
  (forall k, (k < n)%nat -> 0 <= f k) -> 0 <= rsum n f.
Proof.
  induction n as [| n IH]; intros H; simpl; [lra |].
  assert (0 <= rsum n f) by (apply IH; intros; apply H; lia).
  assert (0 <= f n) by (apply H; lia). lra.
Qed.

Lemma rsum_pos (n : nat) (f : nat -> R) :
  (0 < n)%nat -> (forall k, (k < n)%nat -> 0 < f k) -> 0 < rsum n f.
Proof.
  intros Hn H. destruct n as [| n]; [lia |]. simpl.
  assert (0 <= rsum n f) by (apply rsum_nonneg; intros; apply Rlt_le, H; lia).
  assert (0 < f n) by (apply H; lia). lra.
Qed.

Lemma rsum_ge_term (n : nat) (f : nat -> R) (j : nat) :
  (forall k, (k < n)%nat -> 0 <= f k) -> (j < n)%nat -> f j <= rsum n f.
Proof.
  induction n as [| n IH]; intros H Hj; [lia |]. simpl.
  assert (0 <= rsum n f) by (apply rsum_nonneg; intros; apply H; lia).
  assert (0 <= f n) by (apply H; lia).
  destruct (Nat.eq_dec j n) as [-> | Hne]; [lra |].
  assert (f j <= rsum n f) by (apply IH; [intros; apply H; lia | lia]). lra.
Qed.

Lemma rsum_zero (n : nat) (f : nat -> R) :
  (forall k, (k < n)%nat -> f k = 0) -> rsum n f = 0.
Proof.
  induction n as [| n IH]; intros H; simpl; [reflexivity |].
  rewrite IH by (intros; apply H; lia). rewrite H by lia. lra.
Qed.

(** The minimum and maximum of a non-empty range bound and attain. *)
Lemma rfold_min_le (n : nat) (f : nat -> R) (k : nat) :
  (k <= n)%nat -> rfold Rmin n f <= f k.
Proof.
  induction n as [| n IH]; intros Hk; simpl.
  - replace k with 0%nat by lia. lra.
  - destruct (Nat.eq_dec k (S n)) as [-> | Hne]; [apply Rmin_r |].
    eapply Rle_trans; [apply Rmin_l | apply IH; lia].
Qed.

Lemma rfold_min_attained (n : nat) (f : nat -> R) :
  exists k, (k <= n)%nat /\ rfold Rmin n f = f k.
Proof.
  induction n as [| n [k [Hk IH]]]; simpl; [exists 0%nat; split; [lia | reflexivity] |].
  destruct (Rle_dec (rfold Rmin n f) (f (S n))) as [Hle | Hgt].
  - exists k. split; [lia |]. now rewrite Rmin_left.
  - exists (S n). split; [lia |]. rewrite Rmin_right by lra. reflexivity.
Qed.

Lemma rfold_max_ge (n : nat) (f : nat -> R) (k : nat) :
  (k <= n)%nat -> f k <= rfold Rmax n f.
Proof.
  induction n as [| n IH]; intros Hk; simpl.
  - replace k with 0%nat by lia. lra.
  - destruct (Nat.eq_dec k (S n)) as [-> | Hne]; [apply Rmax_r |].
    eapply Rle_trans; [apply IH; lia | apply Rmax_l].
Qed.

Lemma rfold_max_attained (n : nat) (f : nat -> R) :
  exists k, (k <= n)%nat /\ rfold Rmax n f = f k.
Proof.
  induction n as [| n [k [Hk IH]]]; simpl; [exists 0%nat; split; [lia | reflexivity] |].
  destruct (Rle_dec (rfold Rmax n f) (f (S n))) as [Hle | Hgt].
  - exists (S n). split; [lia |]. now rewrite Rmax_right.
  - exists k. split; [lia |]. rewrite Rmax_left by lra. exact IH.
Qed.

Lemma div_fin (a b : R) : b <> 0 -> Num.div (Fin a) (Fin b) = Fin (a / b).
Proof.
  intros Hb. simpl. destruct (Req_dec_T b 0); [contradiction | reflexivity].
Qed.

Lemma div_zero_zero : Num.div (Fin 0) (Fin 0) = NaN.
Proof.
  simpl. destruct (Req_dec_T 0 0) as [_ | H]; [reflexivity | now destruct H].
Qed.

Lemma log_fin (a : R) : 0 < a -> Num.log (Fin a) = Fin (ln a).
Proof.
  intros Ha. simpl. destruct (Req_dec_T a 0); [lra |].
  destruct (Rlt_dec a 0); [lra | reflexivity].
Qed.

Lemma sqrt_fin (a : R) : 0 <= a -> Num.sqrt (Fin a) = Fin (sqrt a).
Proof.
  intros Ha. simpl. destruct (Rlt_dec a 0); [lra | reflexivity].
Qed.

Lemma bdim_comm (a b : nat) : bdim a b = bdim b a.
Proof.
  unfold bdim.
  destruct (Nat.eqb_spec a b), (Nat.eqb_spec b a); try congruence;
    destruct (Nat.eqb_spec a 1), (Nat.eqb_spec b 1); congruence.
Qed.

Lemma bshape_comm (a b : shape) : bshape a b = bshape b a.
Proof.
  revert b; induction a as [| x a IH]; intros [| y b]; simpl; try reflexivity.
  now rewrite bdim_comm, IH.
Qed.

Lemma bshape_absorb_r (a b s : shape) :
  bshape a b = Some s -> bshape s b = Some s.
Proof.
  revert b s; induction a as [| x a IH]; intros b s.
  - simpl. intros [= <-]. apply bshape_refl.
  - destruct b as [| y b]; [simpl; intros [= <-]; reflexivity |].
    simpl. destruct (bdim x y) as [d |] eqn:Hd; [| discriminate].
    destruct (bshape a b) as [r |] eqn:Hr; [| discriminate].
    cbn [bind]. intros [= <-]. apply bshape_cons; [| now apply IH].
    destruct (bdim_inv _ _ _ Hd) as [_ [-> | ->]];
      [apply bdim_refl | apply bdim_1_r].
Qed.

Lemma bshape_absorb_l (a b s : shape) :
  bshape a b = Some s -> bshape s a = Some s.
Proof.
  revert b s; induction a as [| x a IH]; intros b s.
  - simpl. intros [= <-]. apply bshape_nil_r.
  - destruct b as [| y b]; [simpl; intros [= <-]; apply bshape_refl |].
    simpl. destruct (bdim x y) as [d |] eqn:Hd; [| discriminate].
    destruct (bshape a b) as [r |] eqn:Hr; [| discriminate].
    cbn [bind]. intros [= <-]. apply bshape_cons; [| now apply (IH b)].
    destruct (bdim_inv _ _ _ Hd) as [[-> | ->] _];
      [apply bdim_refl | apply bdim_1_r].
Qed.

(** ** Stepping through a sequence of tensor operations *)

(** Splits an index along the explicit leading axes of its shape. *)
Ltac dest_idx i Hi :=
  lazymatch type of Hi with
  | in_range (_ :: _) _ =>
      let k := fresh "k" in
      let Hk := fresh "Hk" in
      destruct i as [| k i]; [simpl in Hi; tauto |];
      destruct Hi as [Hk Hi]; dest_idx i Hi
  | _ => idtac
  end.

(** [step L x]: runs the operation whose specification is [L], naming
    its result [x]; side conditions of [L] are left as goals. *)
(** Runs every operation whose result is already known. *)
Ltac advance :=
  repeat first
    [ rewrite bind_some
    | match goal with
      | E : ?m = Some _ |- context [bind ?m _] => rewrite E
      end ].

Ltac step_as L x E H :=
  destruct L as (x & E & H);
  [.. | rewrite E; advance;
        lazymatch type of H with
        | agrees ?t ?s ?f =>
            let s1 := eval unfold insert_at, remove_at, set_at in s in
            let s2 := eval cbn [firstn skipn app] in s1 in
            change (agrees t s2 f) in H
        end].

Tactic Notation "step" constr(L) ident(x) :=
  let E := fresh "E" x in
  let H := fresh "H" x in
  step_as L x E H.

(** [clean H f]: restates what a tensor holds as the function [f];
    the two agree by computation, or by the tactic given after [by]. *)
Ltac clean_with H f tac :=
  apply (fun h => agrees_ext _ _ _ f h) in H;
  [| let i := fresh "i" in
     let Hi := fresh "Hi" in
     intros i Hi; dest_idx i Hi; idx_norm; solve [tac] ].

Tactic Notation "clean" hyp(H) constr(f) := clean_with H f reflexivity.
Tactic Notation "clean" hyp(H) constr(f) "by" tactic(t) := clean_with H f t.

Ltac shape_tac :=
  unfold set_at, insert_at, remove_at;
  cbn [firstn skipn app bshape bind nth_error length];
  repeat (first [ rewrite bdim_refl | rewrite bdim_1_l | rewrite bdim_1_r
                | rewrite bshape_refl | rewrite bshape_nil_r
                | rewrite bshape_app_l | rewrite bshape_app_r ];
          cbn [bind]);
  try reflexivity.

(** ** [log_prob]: the value computed *)

Section LogProb.

Variables (D K' : nat) (bs vt os : shape) (vD : nat).
Variables (locsR scaleR logitsR valueR : index -> R).

Let K : nat := S K'.

(** Softmax of the logits. *)
Definition weightsR (b : index) (k : nat) : R :=
  exp (logitsR (k :: b)) / rsum K (fun j => exp (logitsR (j :: b))).

(** The specification's quantities, for a result index [r] (the
    leading axes [l] followed by the batch axes [b]; the batch part
    read by the parameters is [bidx bs r]). *)
Definition lp_value (r : index) (d : nat) : R :=
  valueR (bix vD d :: bidx vt r).

Definition lp_epsilon (r : index) (k d : nat) : R :=
  (lp_value r d - locsR (d :: k :: bidx bs r)) / scaleR (d :: bidx bs r).

Definition lp_eps_sqr_spec (r : index) (k : nat) : R :=
  1 / 2 * rsum D (fun d => lp_epsilon r k d * lp_epsilon r k d).

Definition lp_m (r : index) : R := rfold Rmin K' (lp_eps_sqr_spec r).

Definition lp_sum_spec (r : index) : R :=
  rsum K (fun k => weightsR (bidx bs r) k * exp (lp_m r - lp_eps_sqr_spec r k)).

Definition log_prob_spec (r : index) : R :=
  ln (lp_sum_spec r)
  - 1 / 2 * INR D * ln (2 * PI)
  - rsum D (fun d => ln (scaleR (d :: bidx bs r)))
  - lp_m r.

Hypothesis Hos : bshape vt bs = Some os.
Hypothesis HvD : bdim vD D = Some D.
Hypothesis scale_pos : forall i, in_range (D :: bs) i -> 0 < scaleR i.

Variables (ml sc lg value : tensor num) (d : dist).
Hypothesis Hml : agrees ml (D :: K :: bs) (fun i => Fin (locsR i)).
Hypothesis Hsc : agrees sc (D :: bs) (fun i => Fin (scaleR i)).
Hypothesis Hlg : agrees lg (K :: bs) (fun i => Fin (logitsR i)).
Hypothesis Hvalue : agrees value (vD :: vt) (fun i => Fin (valueR i)).
Hypothesis Hinit : init ml sc lg = Some d.

Lemma lp_batch_in_range (r : index) : in_range os r -> in_range bs (bidx bs r).
Proof. intros Hr. exact (proj2 (bshape_in_range _ _ _ _ Hos Hr)). Qed.

Lemma weightsR_pos (b : index) (k : nat) : 0 < weightsR b k.
Proof.
  unfold weightsR. apply Rdiv_lt_0_compat; [apply exp_pos |].
  apply rsum_pos; [unfold K; lia | intros; apply exp_pos].
Qed.

Lemma probs_agrees :
  agrees (probs d) (K :: bs)
         (fun i => match i with
                   | k :: b => Fin (weightsR b k)
                   | [] => Fin 0
                   end).
Proof.
  destruct (init_fields _ _ _ _ Hinit) as (_ & _ & _ & _ & _ & _ & _ & Hp).
  destruct (categorical_probs_ok _ _ _ _ Hlg) as (p & Ep & Hpa).
  rewrite Ep in Hp. injection Hp as <-.
  apply (agrees_ext _ _ _ _ Hpa). intros i Hi. dest_idx i Hi.
  cbn [Num.exp tl]. rewrite nsum_fin. rewrite div_fin; [reflexivity |].
  apply Rgt_not_eq, rsum_pos; [unfold K; lia | intros; apply exp_pos].
Qed.

(** The normalised residual [epsilon], whatever the batch mode. *)
Lemma lp_epsilon_ok :
  exists eps,
    (scale' <- (if batch_mode d then T.unsqueeze 1 (scale d) else Some (scale d)) ;;
     v <- T.unsqueeze 1 value ;;
     diff <- T.sub v (locs d) ;;
     T.div diff scale') = Some eps /\
    agrees eps (D :: K :: os)
           (fun i => match i with
                     | x :: k :: r => Fin (lp_epsilon r k x)
                     | _ => Fin 0
                     end).
Proof.
  destruct (init_fields _ _ _ _ Hinit) as (Hbm & _ & _ & _ & -> & -> & _ & _).
  rewrite Hbm. unfold rank. rewrite (agrees_shape _ _ _ Hml).
  assert (Hscale' : exists s' ss f,
            (if (2 <? length (D :: K :: bs))%nat
             then T.unsqueeze 1 sc else Some sc) = Some s' /\
            agrees s' ss f /\
            bshape (D :: K :: os) ss = Some (D :: K :: os) /\
            forall x k r, (x < D)%nat -> in_range os r ->
                          f (bidx ss (x :: k :: r)) = Fin (scaleR (x :: bidx bs r))).
  { destruct bs as [| b0 bs'] eqn:Hbs.
    - exists sc, [D], (fun i => Fin (scaleR i)).
      split; [reflexivity |]. split; [exact Hsc |]. split; [shape_tac |].
      intros x k r Hx Hr. idx_norm. reflexivity.
    - cbn [length Nat.ltb Nat.leb].
      step (unsqueeze_ok 1 _ _ _ Hsc) s'; [simpl; lia |].
      exists s', (D :: 1%nat :: b0 :: bs'), (fun i => Fin (scaleR (remove_at 1 i))).
      split; [reflexivity |]. split; [exact Hs' |]. split.
      + apply bshape_cons; [apply bdim_refl |].
        apply bshape_cons; [apply bdim_1_r |].
        now apply bshape_absorb_r with (a := vt).
      + intros x k r Hx Hr. rewrite !bidx_cons. idx_norm. reflexivity. }
  destruct Hscale' as (s' & ss & f & Es' & Hs' & Hss & Hread).
  rewrite Es'. cbn [bind].
  step (unsqueeze_ok 1 _ _ _ Hvalue) v; [simpl; lia |].
  step (bop_ok Num.sub _ _ _ _ (D :: K :: os) _ _ Hv Hml) diff.
  { apply bshape_cons; [exact HvD |]. apply bshape_cons; [apply bdim_1_l |].
    exact Hos. }
  step (bop_ok Num.div _ _ _ _ (D :: K :: os) _ _ Hdiff Hs') eps; [exact Hss |].
  exists eps. split; [reflexivity |].
  apply (agrees_ext _ _ _ _ Heps). intros i Hi. dest_idx i Hi.
  rewrite Hread by assumption. idx_norm.
  pose proof (lp_batch_in_range _ Hi) as Hb.
  cbn [Num.sub Num.add Num.neg]. rewrite div_fin.
  - reflexivity.
  - apply Rgt_not_eq, scale_pos. simpl. tauto.
Qed.

Lemma lp_dim : dim d = D.
Proof.
  destruct (init_fields _ _ _ _ Hinit) as (_ & _ & HD & _).
  unfold size in HD. rewrite (agrees_shape _ _ _ Hml) in HD.
  cbn in HD. now injection HD.
Qed.

Lemma lp_sum_spec_pos (r : index) : 0 < lp_sum_spec r.
Proof.
  unfold lp_sum_spec. apply rsum_pos; [unfold K; lia |].
  intros k _. apply Rmult_lt_0_compat; [apply weightsR_pos | apply exp_pos].
Qed.

(** What [log_prob] holds in its local variables when it returns. *)
Lemma log_prob_run_ok :
  exists L,
    log_prob_run d value = Some L /\
    agrees (lp_eps_sqr L) (K :: os)
           (fun i => Fin (lp_eps_sqr_spec (tl i) (hd 0%nat i))) /\
    agrees (lp_eps_sqr_min L) os (fun r => Fin (lp_m r)) /\
    agrees (lp_exponent L) (K :: os)
           (fun i => Fin (lp_m (tl i) - lp_eps_sqr_spec (tl i) (hd 0%nat i))) /\
    agrees (lp_total L) os (fun r => Fin (lp_sum_spec r)) /\
    agrees (lp_result L) os (fun r => Fin (log_prob_spec r)).
Proof.
  destruct lp_epsilon_ok as (eps & Eeps & Heps).
  unfold log_prob_run. revert Eeps.
  repeat match goal with
         | |- (bind ?m _ = Some _) -> _ =>
             destruct m eqn:?; cbn [bind]; [| discriminate]
         end.
  intros Eeps. rewrite Eeps. cbn [bind].
  pose proof (map_ok Num.sq _ _ _ Heps) as Hsq.
  step (sum_ok 0 D _ _ _ Hsq eq_refl) ssq.
  pose proof (map_ok (Num.mul (Fin (1 / 2))) _ _ _ Hssq) as Hes.
  clean Hes (fun i => Fin (lp_eps_sqr_spec (tl i) (hd 0%nat i)))
    by (cbn [Num.sq Num.mul hd tl]; rewrite nsum_fin; reflexivity).
  step (reduce_ok Num.min 0 K' _ _ _ Hes eq_refl) emin.
  clean Hemin (fun r => Fin (lp_m r))
    by (cbn [hd tl]; apply nfold_fin; reflexivity).
  step (unsqueeze_ok 0 _ _ _ Hemin) m; [simpl; lia |].
  pose proof (map_ok Num.neg _ _ _ Hes) as Hneg.
  step (bop_ok Num.add _ _ _ _ (K :: os) _ _ Hneg Hm) e; [shape_tac |].
  clean He (fun i => Fin (lp_m (tl i) - lp_eps_sqr_spec (tl i) (hd 0%nat i)))
    by (cbn [hd tl Num.neg Num.add]; f_equal; lra).
  pose proof (map_ok Num.exp _ _ _ He) as Hexp.
  pose proof probs_agrees as Hp.
  step (bop_ok Num.mul _ _ _ _ (K :: os) _ _ Hp Hexp) terms.
  { apply bshape_cons; [apply bdim_refl |].
    rewrite bshape_comm. exact (bshape_absorb_r _ _ _ Hos). }
  clean Hterms (fun i => Fin (weightsR (bidx bs (tl i)) (hd 0%nat i)
                              * exp (lp_m (tl i) - lp_eps_sqr_spec (tl i) (hd 0%nat i)))).
  step (sum_ok 0 K _ _ _ Hterms eq_refl) tot.
  clean Htot (fun r => Fin (lp_sum_spec r))
    by (cbn [hd tl]; apply nsum_fin).
  pose proof (map_ok Num.log _ _ _ Htot) as Hlog.
  pose proof (map_ok (fun x => Num.sub x (Fin (1 / 2 * ln (2 * PI) * INR (dim d))))
                     _ _ _ Hlog) as Hres1.
  pose proof (map_ok Num.log _ _ _ Hsc) as Hlsc0.
  destruct (init_fields _ _ _ _ Hinit) as (_ & _ & _ & _ & _ & Escale & _ & _).
  rewrite Escale.
  step (sum_ok 0 D _ _ _ Hlsc0 eq_refl) lsc.
  clean Hlsc (fun b => Fin (rsum D (fun x => ln (scaleR (x :: b)))))
    by (apply nsum_fin_ext; intros x Hx; apply log_fin, scale_pos; simpl; tauto).
  step (bop_inplace_ok Num.sub _ _ _ _ _ _ Hres1 Hlsc) res2.
  { exact (bshape_absorb_r _ _ _ Hos). }
  step (bop_inplace_ok Num.sub _ _ _ _ _ _ Hres2 Hemin) res3; [shape_tac |].
  eexists. split; [reflexivity |]. cbn [lp_eps_sqr lp_eps_sqr_min lp_exponent
                                         lp_total lp_result].
  split; [exact Hes |]. split; [exact Hemin |]. split; [exact He |].
  split; [exact Htot |].
  apply (agrees_ext _ _ _ _ Hres3). intros r Hr. idx_norm.
  rewrite (log_fin _ (lp_sum_spec_pos r)). cbn [Num.sub Num.add Num.neg].
  rewrite lp_dim. unfold log_prob_spec. f_equal. lra.
Qed.

Lemma log_prob_general :
  exists res, log_prob d value = Some res /\
              agrees res os (fun r => Fin (log_prob_spec r)).
Proof.
  destruct log_prob_run_ok as (L & EL & _ & _ & _ & _ & Hres).
  unfold log_prob. rewrite EL. exists (lp_result L). split; [reflexivity | exact Hres].
Qed.

(** The closed-form log-density of a diagonal Gaussian with mean
    [locs[b,0,:]] and scale [scale[b,:]]. *)
Definition gaussian_log_density (r : index) : R :=
  - (1 / 2) * rsum D (fun x => lp_epsilon r 0 x * lp_epsilon r 0 x)
  - rsum D (fun x => ln (scaleR (x :: bidx bs r)))
  - INR D / 2 * ln (2 * PI).

Lemma log_prob_spec_single (r : index) :
  K' = 0%nat -> log_prob_spec r = gaussian_log_density r.
Proof.
  intros HK. unfold log_prob_spec, gaussian_log_density, lp_sum_spec, lp_m, weightsR.
  unfold K. rewrite HK. cbn [rsum rfold].
  replace (lp_eps_sqr_spec r 0 - lp_eps_sqr_spec r 0) with 0 by lra.
  rewrite exp_0.
  pose proof (exp_pos (logitsR (0%nat :: bidx bs r))) as He.
  set (e := exp (logitsR (0%nat :: bidx bs r))) in *.
  replace (e / (0 + e) * 1) with 1 by (field; lra).
  rewrite Rplus_0_l, ln_1. unfold lp_eps_sqr_spec. lra.
Qed.

Lemma lp_exponent_nonpos (r : index) (k : nat) :
  (k < K)%nat -> lp_m r - lp_eps_sqr_spec r k <= 0.
Proof.
  intros Hk. unfold lp_m.
  pose proof (rfold_min_le K' (lp_eps_sqr_spec r) k ltac:(unfold K in Hk; lia)).
  lra.
Qed.

End LogProb.

(** *** The scenario [K=2], [D=1], [locs=[[-1],[1]]], [scale=[1]],
    [logits=[0,0]], evaluated at the value [0] *)

Definition sc_locsR (i : index) : R :=
  if (nth 1 i 0%nat =? 0)%nat then -1 else 1.

Definition sc_locs : tensor num := mkT [1; 2]%nat (fun i => Fin (sc_locsR i)).
Definition sc_scale : tensor num := mkT [1]%nat (fun _ => Fin 1).
Definition sc_logits : tensor num := mkT [2]%nat (fun _ => Fin 0).
Definition sc_value : tensor num := mkT [1]%nat (fun _ => Fin 0).

Lemma sc_init : exists d, init sc_locs sc_scale sc_logits = Some d.
Proof. eexists. reflexivity. Qed.

Lemma ln_quot (x y : R) : 0 < x -> 0 < y -> ln (x / y) = ln x - ln y.
Proof.
  intros Hx Hy. unfold Rdiv.
  rewrite ln_mult by (try apply Rinv_0_lt_compat; assumption).
  rewrite ln_Rinv by assumption. lra.
Qed.

Lemma ln_root (x : R) : 0 < x -> ln (sqrt x) = ln x / 2.
Proof.
  intros Hx. pose proof (sqrt_lt_R0 x Hx) as Hs.
  assert (H : ln x = ln (sqrt x) + ln (sqrt x)).
  { rewrite <- ln_mult by assumption. now rewrite sqrt_sqrt by lra. }
  lra.
Qed.

Lemma sc_log_prob_spec :
  log_prob_spec 1 1 [] [] 1 sc_locsR (fun _ => 1) (fun _ => 0) (fun _ => 0) []
  = ln (exp (- (1 / 2)) / sqrt (2 * PI)).
Proof.
  assert (Hpi : 0 < 2 * PI) by (pose proof PI_RGT_0; lra).
  rewrite ln_quot; [| apply exp_pos | now apply sqrt_lt_R0].
  rewrite ln_exp, ln_root by exact Hpi.
  unfold log_prob_spec, lp_sum_spec, lp_m, lp_eps_sqr_spec, lp_epsilon, lp_value,
    weightsR, sc_locsR.
  cbn [rsum rfold bidx bix nth Nat.eqb INR].
  replace (1 / 2 * (0 + (0 - -1) / 1 * ((0 - -1) / 1))) with (1 / 2) by field.
  replace (1 / 2 * (0 + (0 - 1) / 1 * ((0 - 1) / 1))) with (1 / 2) by field.
  rewrite Rmin_left by lra.
  replace (1 / 2 - 1 / 2) with 0 by lra.
  rewrite exp_0, ln_1.
  replace (0 + 1 / (0 + 1 + 1) * 1 + 1 / (0 + 1 + 1) * 1) with 1 by field.
  rewrite ln_1. lra.
Qed.

Lemma sc_agrees_locs : agrees sc_locs [1; 2]%nat (fun i => Fin (sc_locsR i)).
Proof. apply agrees_self. Qed.

Lemma sc_agrees_const (s : shape) (c : R) :
  agrees (mkT s (fun _ => Fin c)) s (fun _ => Fin c).
Proof. apply agrees_self. Qed.

Lemma sc_scale_pos (i : index) : in_range [1%nat] i -> 0 < 1.
Proof. intros _. lra. Qed.

Lemma sc_log_prob :
  exists d res, init sc_locs sc_scale sc_logits = Some d /\
                log_prob d sc_value = Some res /\
                tshape res = [] /\
                tdata res [] = Fin (ln (exp (- (1 / 2)) / sqrt (2 * PI))).
Proof.
  destruct sc_init as [d Hd]. exists d.
  destruct (log_prob_general 1 1 [] [] [] 1 sc_locsR (fun _ => 1) (fun _ => 0)
              (fun _ => 0) eq_refl eq_refl sc_scale_pos
              sc_locs sc_scale sc_logits sc_value d
              sc_agrees_locs (sc_agrees_const _ _) (sc_agrees_const _ _)
              (sc_agrees_const _ _) Hd) as (res & Eres & Hres).
  exists res. split; [exact Hd |]. split; [exact Eres |].
  split; [exact (agrees_shape _ _ _ Hres) |].
  rewrite (agrees_data _ _ _ [] Hres I). f_equal. apply sc_log_prob_spec.
Qed.

(** C5: for every instance built by the constructor from parameters
    with a positive scale and a shared batch shape, and every value
    that broadcasts against [(batch_shape, D)], [log_prob] returns, at
    every index, [log(sum_k weights[b,k] * exp(m - eps_sqr[k])) -
    0.5*D*log(2*pi) - sum_d log(scale[b,d]) - m] with [eps_sqr] half the
    squared normalised distance and [m] its minimum over the
    components; for a single component this is the closed-form diagonal
    Gaussian log-density; and in the scenario [K=2], [D=1],
    [locs=[[-1],[1]]], [scale=[1]], [logits=[0,0]] the value at [0] is
    [log(exp(-0.5)/sqrt(2*pi))]. *)
Theorem log_prob_formula :
  (forall (D K' : nat) (bs vt os : shape) (vD : nat)
          (locsR scaleR logitsR valueR : index -> R)
          (ml sc lg value : tensor num) (d : dist),
      bshape vt bs = Some os ->
      bdim vD D = Some D ->
      (forall i, in_range (D :: bs) i -> 0 < scaleR i) ->
      agrees ml (D :: S K' :: bs) (fun i => Fin (locsR i)) ->
      agrees sc (D :: bs) (fun i => Fin (scaleR i)) ->
      agrees lg (S K' :: bs) (fun i => Fin (logitsR i)) ->
      agrees value (vD :: vt) (fun i => Fin (valueR i)) ->
      init ml sc lg = Some d ->
      (exists res,
          log_prob d value = Some res /\
          agrees res os
                 (fun r => Fin (log_prob_spec D K' bs vt vD locsR scaleR
                                              logitsR valueR r))) /\
      (K' = 0%nat ->
       forall r, log_prob_spec D K' bs vt vD locsR scaleR logitsR valueR r
                 = gaussian_log_density D bs vt vD locsR scaleR valueR r)) /\
  (exists d res, init sc_locs sc_scale sc_logits = Some d /\
                 log_prob d sc_value = Some res /\
                 tshape res = [] /\
                 tdata res [] = Fin (ln (exp (- (1 / 2)) / sqrt (2 * PI)))).
Proof.
  split; [| exact sc_log_prob].
  intros D K' bs vt os vD locsR scaleR logitsR valueR ml sc lg value d
         Hos HvD Hpos Hml Hsc Hlg Hv Hinit.
  split.
  - exact (log_prob_general D K' bs vt os vD locsR scaleR logitsR valueR
             Hos HvD Hpos ml sc lg value d Hml Hsc Hlg Hv Hinit).
  - intros HK r. now apply log_prob_spec_single.
Qed.

Lemma log_prob_formula_witness :
  exists d, init sc_locs sc_scale sc_logits = Some d /\
    (exists res,
        log_prob d sc_value = Some res /\
        agrees res []
               (fun r => Fin (log_prob_spec 1 1 [] [] 1 sc_locsR (fun _ => 1)
                                            (fun _ => 0) (fun _ => 0) r))).
Proof.
  destruct sc_init as [d Hd]. exists d. split; [exact Hd |].
  exact (proj1 (proj1 log_prob_formula 1%nat 1%nat [] [] [] 1%nat sc_locsR
                  (fun _ => 1) (fun _ => 0) (fun _ => 0)
                  sc_locs sc_scale sc_logits sc_value d
                  eq_refl eq_refl sc_scale_pos
                  sc_agrees_locs (sc_agrees_const _ _) (sc_agrees_const _ _)
                  (sc_agrees_const _ _) Hd)).
Defined.

(** A value at squared normalised distances [0.5 * 202^2 = 20402] and
    [0.5 * 200^2 = 20000] from the two components of the scenario. *)
Definition far_value : tensor num := mkT [1]%nat (fun _ => Fin 201).

(** ** [forward] in batch mode with a sample axis *)

(** Batch shape [(2,)], one component, [D = 1]: [locs[b,0,0] = 10*b],
    unit scale; a draw of sample shape [(2,)] whose indices are all 0
    and whose noise is 0. *)
Definition fi_locsR (i : index) : R :=
  match nth 2 i 0%nat with O => 0 | S _ => 10 end.

Definition fi_locs : tensor num := mkT [1; 1; 2]%nat (fun i => Fin (fi_locsR i)).
Definition fi_scale : tensor num := mkT [1; 2]%nat (fun _ => Fin 1).
Definition fi_logits : tensor num := mkT [1; 2]%nat (fun _ => Fin 0).
Definition fi_sample_shape : shape := [2]%nat.
Definition fi_which_data (i : index) : nat := 0%nat.
Definition fi_noise (i : index) : num := Fin 0.

(** C7 at this input: the instance is built by the constructor and
    [rsample] returns without raising, but the sample for draw [l = 0]
    and batch element [b = 1] is [locs[0,0,:] = 0], the mean of batch
    element [l], where the claim has [locs[1, which[0,1], :] + scale *
    white = 10]: [gather] pairs the leading axis of the indices, the
    sample axis, with the leading axis of [locs], the batch axis.  The
    saved context is the one the claim names. *)
Theorem forward_batch_sample_axis_misaligned :
  exists d z ctx,
    init fi_locs fi_scale fi_logits = Some d /\
    rsample d fi_sample_shape fi_which_data fi_noise = Some (z, ctx) /\
    tshape z = [1; 2; 2]%nat /\
    tdata z [0; 1; 0]%nat = Fin 0 /\
    Num.add (tdata (locs d) [0; fi_which_data [1; 0]; 1]%nat)
            (Num.mul (tdata (scale d) [0; 1]%nat) (fi_noise [0; 1; 0]%nat))
    = Fin 10 /\
    ctx = mkSaved z (scale d) (locs d) (logits d) (probs d).
Proof.
  eexists. eexists. eexists.
  split; [reflexivity |]. split; [reflexivity |]. split; [reflexivity |].
  split; [| split; [| reflexivity]].
  - cbn. f_equal. unfold fi_locsR. cbn. lra.
  - cbn. f_equal. unfold fi_locsR. cbn. lra.
Qed.

(** ** The sign of the error function *)

Lemma gauss_integral_pos (a b : R) (pr : Riemann_integrable gauss a b) :
  a < b -> 0 < RiemannInt pr.
Proof.
  intros Hab.
  set (c := exp (- (Rmax (a * a) (b * b)))).
  assert (Hc : 0 < c) by apply exp_pos.
  pose proof (RiemannInt_P14 a b c) as prc.
  assert (Hle : RiemannInt prc <= RiemannInt pr).
  { apply RiemannInt_P19; [lra |]. intros t Ht. unfold fct_cte, gauss, c.
    destruct (Rle_dec (- (t * t)) (- Rmax (a * a) (b * b))) as [Hl | Hg].
    - assert (Hm : Rmax (a * a) (b * b) <= t * t) by lra.
      pose proof (Rmax_l (a * a) (b * b)). pose proof (Rmax_r (a * a) (b * b)).
      exfalso. destruct (Rle_dec 0 t); nra.
    - apply Rlt_le, exp_increasing. lra. }
  rewrite RiemannInt_P15 in Hle.
  assert (0 < c * (b - a)) by (apply Rmult_lt_0_compat; lra). lra.
Qed.

Lemma erf_scale_pos : 0 < 2 / sqrt PI.
Proof.
  apply Rdiv_lt_0_compat; [lra |]. apply sqrt_lt_R0, PI_RGT_0.
Qed.

Lemma erf_pos (x : R) : 0 < x -> 0 < erf x.
Proof.
  intros Hx. unfold erf.
  apply Rmult_lt_0_compat; [apply erf_scale_pos | now apply gauss_integral_pos].
Qed.

Lemma erf_neg (x : R) : x < 0 -> erf x < 0.
Proof.
  intros Hx. unfold erf.
  rewrite (RiemannInt_P8 (gauss_integrable 0 x) (gauss_integrable x 0)).
  pose proof (gauss_integral_pos x 0 (gauss_integrable x 0) Hx).
  pose proof erf_scale_pos. nra.
Qed.

Lemma erf_0 : erf 0 = 0.
Proof. unfold erf. rewrite RiemannInt_P9. lra. Qed.

(** ** [backward]: the values computed *)

Lemma bidx_app_l (s : shape) (b m : index) :
  in_range s b -> bidx s (b ++ m) = b.
Proof.
  revert b; induction s as [| n s IH]; intros [| k b]; simpl; try tauto.
  intros [Hk Hb]. fold (bix n k). rewrite bix_lt by exact Hk.
  f_equal. now apply IH.
Qed.

Lemma in_range_bidx_prefix (s t : shape) (r : index) :
  in_range (s ++ t) r -> in_range s (bidx s r).
Proof.
  intros H. rewrite (bidx_prefix _ _ _ H).
  exact (proj1 (in_range_app_inv _ _ _ H)).
Qed.

Lemma rsum_plus (n : nat) (f h : nat -> R) :
  rsum n (fun k => f k + h k) = rsum n f + rsum n h.
Proof. induction n as [| n IH]; simpl; [lra | rewrite IH; lra]. Qed.

Lemma rsum_const_zero (n : nat) : rsum n (fun _ => 0) = 0.
Proof. apply rsum_zero. reflexivity. Qed.

(** Sums over the sample axes and over one more axis commute. *)
Lemma rmsum_rsum_swap (ds : shape) (n : nat) (f : index -> nat -> R) :
  rmsum ds (fun m => rsum n (fun k => f m k))
  = rsum n (fun k => rmsum ds (fun m => f m k)).
Proof.
  revert f; induction ds as [| a ds IH]; intros f; simpl; [reflexivity |].
  rewrite (rsum_ext a _ (fun j => rsum n (fun k => rmsum ds (fun m => f (j :: m) k))))
    by (intros j _; apply IH).
  clear IH. induction a as [| a IHa]; simpl.
  - now rewrite rsum_const_zero.
  - rewrite IHa, <- rsum_plus. reflexivity.
Qed.

Section Backward.

Variables (D K' : nat) (bs ls : shape).
Variables (zR scaleR locsR pisR gR : index -> R).

Let K : nat := S K'.

(** *** Quantities that do not involve the pairwise directions; [r] is
    an index of the leading sample axes and batch axes of [z], [b] an
    index of the batch axes *)

Definition zt (r : index) (x : nat) : R :=
  zR (x :: r) / scaleR (x :: bidx bs r).

Definition lt (b : index) (j x : nat) : R :=
  locsR (x :: j :: b) / scaleR (x :: b).

Definition eps (r : index) (j x : nat) : R := zt r x - lt (bidx bs r) j x.

Definition log_q (r : index) (j : nat) : R :=
  rsum D (fun x => - (1 / 2) * (eps r j x * eps r j x)).

Definition log_q_max (r : index) : R := rfold Rmax K' (log_q r).

Definition qp (r : index) (j : nat) : R := exp (log_q r j - log_q_max r).

Definition qj (r : index) (j : nat) : R := exp (log_q r j).

Definition qtot (r : index) : R :=
  rsum K (fun j => pisR (j :: bidx bs r) * qj r j).

Definition qtotp (r : index) : R :=
  rsum K (fun j => pisR (j :: bidx bs r) * qp r j).

Definition pref (r : index) (j x : nat) : R :=
  pisR (j :: bidx bs r) * qp r j * gR (x :: r) / qtotp r.

Definition locs_grad_val (b : index) (j x : nat) : R :=
  rmsum ls (fun l => pref (b ++ l) j x).

Definition scale_grad_val (b : index) (x : nat) : R :=
  rsum K (fun j => rmsum ls (fun l => pref (b ++ l) j x * eps (b ++ l) j x)).

(** *** The pairwise directions and what is computed from them; these
    can be NaN *)

Definition mu_diff (b : index) (k j x : nat) : R := lt b k x - lt b j x.

Definition mu_norm (b : index) (k j : nat) : R :=
  sqrt (rsum D (fun x => mu_diff b k j x * mu_diff b k j x)).

Definition mu (b : index) (k j x : nat) : num :=
  if ((j =? k) && (j <? K))%nat then Fin 0
  else Num.div (Fin (mu_diff b k j x)) (Fin (mu_norm b k j)).

Definition mu_ll (b : index) (k j : nat) : num :=
  nsum D (fun x => Num.mul (Fin (lt b k x)) (mu b k j x)).

Definition z_ll (r : index) (k j : nat) : num :=
  nsum D (fun x => Num.mul (Fin (zt r x)) (mu (bidx bs r) k j x)).

Definition z_perp_sqr (r : index) (k j : nat) : num :=
  nsum D (fun x =>
            Num.sq (Num.sub (Fin (zt r x))
                            (Num.mul (z_ll r k j) (mu (bidx bs r) k j x)))).

Definition sigma_g (r : index) (k j : nat) : num :=
  nsum D (fun x =>
            Num.mul (Fin (scaleR (x :: bidx bs r) * gR (x :: r)))
                    (mu (bidx bs r) k j x)).

Definition lg_term (r : index) (k j : nat) : num :=
  Num.mul
    (Num.mul
       (Num.sub
          (Num.erf (Num.div (Num.sub (z_ll r k j) (mu_ll (bidx bs r) k j))
                            (Fin (sqrt 2))))
          (Num.erf (Num.div (Num.add (z_ll r k j) (mu_ll (bidx bs r) j k))
                            (Fin (sqrt 2)))))
       (Num.exp (Num.mul (Fin (- (1 / 2))) (z_perp_sqr r k j))))
    (Num.mul (Num.neg (sigma_g r k j)) (Fin (pisR (j :: bidx bs r)))).

Definition logits_grad_val (b : index) (k : nat) : num :=
  Num.mul
    (Num.mul (Fin (pisR (k :: b)))
             (msum ls (fun l =>
                         Num.div (nsum K (fun j => lg_term (b ++ l) k j))
                                 (Fin (qtot (b ++ l))))))
    (Fin (sqrt (1 / 2 * PI))).

Variables (ctx : saved) (g : tensor num).

Hypothesis scale_pos : forall i, in_range (D :: bs) i -> 0 < scaleR i.
Hypothesis pis_pos : forall i, in_range (K :: bs) i -> 0 < pisR i.
Hypothesis Hz : agrees (s_z ctx) (D :: bs ++ ls) (fun i => Fin (zR i)).
Hypothesis Hsc : agrees (s_scale ctx) (D :: bs) (fun i => Fin (scaleR i)).
Hypothesis Hml : agrees (s_locs ctx) (D :: K :: bs) (fun i => Fin (locsR i)).
Hypothesis Hlg : tshape (s_logits ctx) = K :: bs.
Hypothesis Hpis : agrees (s_pis ctx) (K :: bs) (fun i => Fin (pisR i)).
Hypothesis Hg : agrees g (D :: bs ++ ls) (fun i => Fin (gR i)).

Lemma bw_batch (r : index) : in_range (bs ++ ls) r -> in_range bs (bidx bs r).
Proof. apply in_range_bidx_prefix. Qed.

Lemma bw_scale_nz (b : index) (x : nat) :
  (x < D)%nat -> in_range bs b -> scaleR (x :: b) <> 0.
Proof. intros Hx Hb. apply Rgt_not_eq, scale_pos. simpl. tauto. Qed.

Lemma mu_sq_nonneg (b : index) (k j : nat) :
  0 <= rsum D (fun x => mu_diff b k j x * mu_diff b k j x).
Proof. apply rsum_nonneg. intros x _. nra. Qed.

Lemma qp_pos (r : index) (j : nat) : 0 < qp r j.
Proof. apply exp_pos. Qed.

Lemma qtotp_pos (r : index) : in_range (bs ++ ls) r -> 0 < qtotp r.
Proof.
  intros Hr. unfold qtotp. apply rsum_pos; [unfold K; lia |].
  intros j Hj. apply Rmult_lt_0_compat; [| apply qp_pos].
  apply pis_pos. simpl. split; [exact Hj | now apply bw_batch].
Qed.

Lemma qtot_pos (r : index) : in_range (bs ++ ls) r -> 0 < qtot r.
Proof.
  intros Hr. unfold qtot. apply rsum_pos; [unfold K; lia |].
  intros j Hj. apply Rmult_lt_0_compat; [| apply exp_pos].
  apply pis_pos. simpl. split; [exact Hj | now apply bw_batch].
Qed.

(** What [backward] holds in its local variables when it returns. *)
Lemma backward_run_ok :
  exists L,
    backward_run ctx g = Some L /\
    agrees (locs_grad L) (D :: K :: bs)
           (fun i => Fin (locs_grad_val (rest 2 i) (ax 1 i) (ax 0 i))) /\
    agrees (scale_grad L) (D :: bs)
           (fun i => Fin (scale_grad_val (rest 1 i) (ax 0 i))) /\
    agrees (logits_grad L) (K :: bs)
           (fun i => logits_grad_val (rest 1 i) (ax 0 i)) /\
    agrees (log_q_j L) (1%nat :: K :: bs ++ ls)
           (fun i => Fin (log_q (rest 2 i) (ax 1 i))) /\
    agrees (q_j_prime_arg L) (1%nat :: K :: bs ++ ls)
           (fun i => Fin (log_q (rest 2 i) (ax 1 i) - log_q_max (rest 2 i))) /\
    agrees (perp_arg L) (K :: K :: bs ++ ls)
           (fun i => Num.mul (Fin (- (1 / 2)))
                             (z_perp_sqr (rest 2 i) (ax 1 i) (ax 0 i))) /\
    q_j_prime L = T.exp (q_j_prime_arg L) /\
    q_j L = T.exp (log_q_j L) /\
    agrees (mu_ab L) (D :: K :: K :: bs)
           (fun i => mu (rest 3 i) (ax 2 i) (ax 1 i) (ax 0 i)) /\
    agrees (prefactor L) (D :: K :: bs ++ ls)
           (fun i => Fin (pref (rest 2 i) (ax 1 i) (ax 0 i))).
Proof.
  unfold backward_run.
  unfold size, rank. rewrite Hlg, (agrees_shape _ _ _ Hsc).
  cbn [nth_error bind length Nat.sub].
  step (bop_ok Num.div _ _ _ _ (D :: bs ++ ls) _ _ Hz Hsc) zt_; [shape_tac |].
  clean Hzt_ (fun i => Fin (zt (rest 1 i) (ax 0 i)))
    by (apply div_fin, bw_scale_nz; [assumption | now apply bw_batch]).
  step (unsqueeze_ok 1 _ _ _ Hsc) scale_u; [simpl; lia |].
  step (bop_ok Num.div _ _ _ _ (D :: K :: bs) _ _ Hml Hscale_u) lt_;
    [shape_tac |].
  clean Hlt_ (fun i => Fin (lt (rest 2 i) (ax 1 i) (ax 0 i)))
    by (apply div_fin, bw_scale_nz; assumption).
  (* the pairwise directions *)
  step (unsqueeze_ok 1 _ _ _ Hlt_) lt_k; [simpl; lia |].
  step (unsqueeze_ok 2 _ _ _ Hlt_) lt_j; [simpl; lia |].
  step (bop_ok Num.sub _ _ _ _ (D :: K :: K :: bs) _ _ Hlt_k Hlt_j) mu0;
    [shape_tac |].
  clean Hmu0 (fun i => Fin (mu_diff (rest 3 i) (ax 2 i) (ax 1 i) (ax 0 i))).
  pose proof (map_ok Num.sq _ _ _ Hmu0) as Hmu0sq.
  step (sum_ok 0 D _ _ _ Hmu0sq eq_refl) mu_sq.
  pose proof (map_ok Num.sqrt _ _ _ Hmu_sq) as Hnorm.
  clean Hnorm (fun i => Fin (mu_norm (rest 2 i) (ax 1 i) (ax 0 i)))
    by (cbn [Num.sq Num.mul]; rewrite nsum_fin; apply sqrt_fin, mu_sq_nonneg).
  step (unsqueeze_ok 0 _ _ _ Hnorm) norm_u; [simpl; lia |].
  step (bop_inplace_ok Num.div _ _ _ _ _ _ Hmu0 Hnorm_u) mu1; [shape_tac |].
  step (zero_diagonal_ok K _ _ _ _ _ _ Hmu1 (Nat.le_refl K) (Nat.le_refl K)) mu2.
  clean Hmu2 (fun i => mu (rest 3 i) (ax 2 i) (ax 1 i) (ax 0 i)).
  step (bop_ok Num.mul _ _ _ _ (D :: K :: K :: bs) _ _ Hlt_k Hmu2) lt_mu;
    [shape_tac |].
  clean Hlt_mu (fun i => Num.mul (Fin (lt (rest 3 i) (ax 2 i) (ax 0 i)))
                                 (mu (rest 3 i) (ax 2 i) (ax 1 i) (ax 0 i))).
  step (sum_ok 0 D _ _ _ Hlt_mu eq_refl) mu_ll_.
  clean Hmu_ll_ (fun i => mu_ll (rest 2 i) (ax 1 i) (ax 0 i)).
  step (unsqueeze_ok 1 _ _ _ Hzt_) zt1; [simpl; lia |].
  step (unsqueeze_ok 1 _ _ _ Hzt1) zt2; [simpl; lia |].
  step (bop_ok Num.mul _ _ _ _ (D :: K :: K :: bs ++ ls) _ _ Hzt2 Hmu2) z_mu;
    [shape_tac |].
  clean Hz_mu (fun i => Num.mul (Fin (zt (rest 3 i) (ax 0 i)))
                                (mu (bidx bs (rest 3 i)) (ax 2 i) (ax 1 i) (ax 0 i))).
  step (sum_ok 0 D _ _ _ Hz_mu eq_refl) z_ll_.
  clean Hz_ll_ (fun i => z_ll (rest 2 i) (ax 1 i) (ax 0 i)).
  step (unsqueeze_ok 0 _ _ _ Hz_ll_) z_ll_u; [simpl; lia |].
  step (bop_ok Num.mul _ _ _ _ (D :: K :: K :: bs ++ ls) _ _ Hz_ll_u Hmu2) z_par;
    [shape_tac |].
  step (bop_ok Num.sub _ _ _ _ (D :: K :: K :: bs ++ ls) _ _ Hzt2 Hz_par) z_perp;
    [shape_tac |].
  clean Hz_perp
        (fun i => Num.sub (Fin (zt (rest 3 i) (ax 0 i)))
                          (Num.mul (z_ll (rest 3 i) (ax 2 i) (ax 1 i))
                                   (mu (bidx bs (rest 3 i)) (ax 2 i) (ax 1 i) (ax 0 i)))).
  pose proof (map_ok Num.sq _ _ _ Hz_perp) as Hz_perp_sq.
  step (sum_ok 0 D _ _ _ Hz_perp_sq eq_refl) z_perp_sqr_.
  clean Hz_perp_sqr_ (fun i => z_perp_sqr (rest 2 i) (ax 1 i) (ax 0 i)).
  (* responsibilities *)
  step (bop_ok Num.sub _ _ _ _ (D :: K :: bs ++ ls) _ _ Hzt1 Hlt_) eps_;
    [shape_tac |].
  clean Heps_ (fun i => Fin (eps (rest 2 i) (ax 1 i) (ax 0 i))).
  pose proof (map_ok (Num.mul (Fin (- (1 / 2)))) _ _ _
                     (map_ok Num.sq _ _ _ Heps_)) as Hlog_qs.
  step (sum_keep_ok 0 D _ _ _ Hlog_qs eq_refl) lq.
  clean Hlq (fun i => Fin (log_q (rest 2 i) (ax 1 i)))
    by (cbn [Num.sq Num.mul]; apply nsum_fin).
  step (reduce_keep_ok Num.max 1 K' _ _ _ Hlq eq_refl) lqmax.
  clean Hlqmax (fun i => Fin (log_q_max (rest 2 i)))
    by (apply nfold_fin; reflexivity).
  step (bop_ok Num.sub _ _ _ _ (1%nat :: K :: bs ++ ls) _ _ Hlq Hlqmax) qparg;
    [shape_tac |].
  clean Hqparg (fun i => Fin (log_q (rest 2 i) (ax 1 i) - log_q_max (rest 2 i))).
  pose proof (map_ok Num.exp _ _ _ Hqparg) as Hqp.
  pose proof (map_ok Num.exp _ _ _ Hlq) as Hqj.
  step (unsqueeze_ok 0 _ _ _ Hpis) pis_u; [simpl; lia |].
  step (bop_ok Num.mul _ _ _ _ (1%nat :: K :: bs ++ ls) _ _ Hpis_u Hqj) pq;
    [shape_tac |].
  clean Hpq (fun i => Fin (pisR (ax 1 i :: bidx bs (rest 2 i))
                           * qj (rest 2 i) (ax 1 i))).
  step (sum_ok 1 K _ _ _ Hpq eq_refl) qtot_.
  clean Hqtot_ (fun i => Fin (qtot (rest 1 i)))
    by (apply nsum_fin).
  step (bop_ok Num.mul _ _ _ _ (1%nat :: K :: bs ++ ls) _ _ Hpis_u Hqp) pq';
    [shape_tac |].
  clean Hpq' (fun i => Fin (pisR (ax 1 i :: bidx bs (rest 2 i))
                            * qp (rest 2 i) (ax 1 i))).
  step (sum_ok 1 K _ _ _ Hpq' eq_refl) pqs'.
  step (unsqueeze_ok 0 _ _ _ Hpqs') qtotp_; [simpl; lia |].
  clean Hqtotp_ (fun i => Fin (qtotp (rest 2 i)))
    by (apply nsum_fin).
  (* the logits gradient *)
  rewrite Nat.sub_0_r.
  step (transpose_ok _ _ _ _ _ Hmu_ll_) mu_ll_ba.
  step (bop_ok Num.sub _ _ _ _ (K :: K :: bs ++ ls) _ _ Hz_ll_ Hmu_ll_) arg1;
    [shape_tac |].
  step (bop_ok Num.add _ _ _ _ (K :: K :: bs ++ ls) _ _ Hz_ll_ Hmu_ll_ba) arg2;
    [shape_tac |].
  pose proof (map_ok Num.erf _ _ _
                (map_ok (fun x => Num.div x (Fin (sqrt 2))) _ _ _ Harg1)) as He1.
  pose proof (map_ok Num.erf _ _ _
                (map_ok (fun x => Num.div x (Fin (sqrt 2))) _ _ _ Harg2)) as He2.
  step (bop_ok Num.sub _ _ _ _ (K :: K :: bs ++ ls) _ _ He1 He2) lg0;
    [shape_tac |].
  pose proof (map_ok Num.exp _ _ _
                (map_ok (Num.mul (Fin (- (1 / 2)))) _ _ _ Hz_perp_sqr_)) as Hperp.
  step (bop_inplace_ok Num.mul _ _ _ _ _ _ Hlg0 Hperp) lg1; [shape_tac |].
  step (bop_ok Num.mul _ _ _ _ (D :: bs ++ ls) _ _ Hsc Hg) sg; [shape_tac |].
  clean Hsg (fun i => Fin (scaleR (ax 0 i :: bidx bs (rest 1 i)) * gR i)).
  step (unsqueeze_ok 1 _ _ _ Hsg) sg1; [simpl; lia |].
  step (unsqueeze_ok 1 _ _ _ Hsg1) sg2; [simpl; lia |].
  step (bop_ok Num.mul _ _ _ _ (D :: K :: K :: bs ++ ls) _ _ Hsg2 Hmu2) sg_mu;
    [shape_tac |].
  clean Hsg_mu
        (fun i => Num.mul (Fin (scaleR (ax 0 i :: bidx bs (rest 3 i))
                                * gR (ax 0 i :: rest 3 i)))
                          (mu (bidx bs (rest 3 i)) (ax 2 i) (ax 1 i) (ax 0 i))).
  step (sum_ok 0 D _ _ _ Hsg_mu eq_refl) sig.
  clean Hsig (fun i => sigma_g (rest 2 i) (ax 1 i) (ax 0 i)).
  step (unsqueeze_ok 1 _ _ _ Hpis) pis_q; [simpl; lia |].
  pose proof (map_ok Num.neg _ _ _ Hsig) as Hnsig.
  step (bop_ok Num.mul _ _ _ _ (K :: K :: bs ++ ls) _ _ Hnsig Hpis_q) fac;
    [shape_tac |].
  step (bop_inplace_ok Num.mul _ _ _ _ _ _ Hlg1 Hfac) lg2; [shape_tac |].
  clean Hlg2 (fun i => lg_term (rest 2 i) (ax 1 i) (ax 0 i)).
  step (sum_ok 0 K _ _ _ Hlg2 eq_refl) lg_sum.
  step (bop_ok Num.div _ _ _ _ (K :: bs ++ ls) _ _ Hlg_sum Hqtot_) lg_q;
    [shape_tac |].
  clean Hlg_q (fun i => Num.div (nsum K (fun j => lg_term (rest 1 i) (ax 0 i) j))
                                (Fin (qtot (rest 1 i)))).
  step (sum_leftmost_ok _ (K :: bs) ls (1 + length bs)%nat _ Hlg_q eq_refl) lg_l.
  step (bop_ok Num.mul _ _ _ _ (K :: bs) _ _ Hpis Hlg_l) lg3; [shape_tac |].
  pose proof (map_ok (fun x => Num.mul x (Fin (sqrt (1 / 2 * PI)))) _ _ _ Hlg3)
    as Hlg4.
  clean Hlg4 (fun i => logits_grad_val (rest 1 i) (ax 0 i)).
  (* the gradients of the means and of the scale *)
  step (unsqueeze_ok 1 _ _ _ Hg) g_u; [simpl; lia |].
  step (bop_ok Num.mul _ _ _ _ (D :: K :: bs ++ ls) _ _ Hpq' Hg_u) pf2;
    [shape_tac |].
  step (bop_ok Num.div _ _ _ _ (D :: K :: bs ++ ls) _ _ Hpf2 Hqtotp_) pf;
    [shape_tac |].
  clean Hpf (fun i => Fin (pref (rest 2 i) (ax 1 i) (ax 0 i)))
    by (cbn [Num.mul]; apply div_fin, Rgt_not_eq, qtotp_pos; assumption).
  step (sum_leftmost_ok _ (D :: K :: bs) ls (2 + length bs)%nat _ Hpf eq_refl) lgr.
  clean Hlgr (fun i => Fin (locs_grad_val (rest 2 i) (ax 1 i) (ax 0 i)))
    by (apply msum_fin_ext; intros; reflexivity).
  step (bop_ok Num.mul _ _ _ _ (D :: K :: bs ++ ls) _ _ Hpf Heps_) pe;
    [shape_tac |].
  clean Hpe (fun i => Fin (pref (rest 2 i) (ax 1 i) (ax 0 i)
                           * eps (rest 2 i) (ax 1 i) (ax 0 i))).
  step (sum_leftmost_ok _ (D :: K :: bs) ls (2 + length bs)%nat _ Hpe eq_refl) pe_l.
  clean Hpe_l (fun i => Fin (rmsum ls (fun l => pref (rest 2 i ++ l) (ax 1 i) (ax 0 i)
                                                * eps (rest 2 i ++ l) (ax 1 i) (ax 0 i))))
    by (apply msum_fin_ext; intros; reflexivity).
  step (sum_ok 1 K _ _ _ Hpe_l eq_refl) sgr.
  clean Hsgr (fun i => Fin (scale_grad_val (rest 1 i) (ax 0 i)))
    by (apply nsum_fin).
  eexists. split; [reflexivity |].
  cbn [locs_grad scale_grad logits_grad log_q_j q_j_prime_arg perp_arg
       q_j_prime q_j mu_ab prefactor].
  split; [exact Hlgr |]. split; [exact Hsgr |]. split; [exact Hlg4 |].
  split; [exact Hlq |]. split; [exact Hqparg |].
  split; [exact (map_ok _ _ _ _ Hz_perp_sqr_) |].
  split; [reflexivity |]. split; [reflexivity |].
  split; [exact Hmu2 | exact Hpf].
Qed.

(** *** The specification's formulas *)

(** [epsilon], [log_q], [q'], [q_tot'], [prefactor] and the two
    gradients as the specification words them. *)
Definition eps_spec (r : index) (j x : nat) : R :=
  zR (x :: r) / scaleR (x :: bidx bs r)
  - locsR (x :: j :: bidx bs r) / scaleR (x :: bidx bs r).

Definition log_q_spec (r : index) (j : nat) : R :=
  - (1 / 2) * rsum D (fun x => eps_spec r j x * eps_spec r j x).

Definition qp_spec (r : index) (j : nat) : R :=
  exp (log_q_spec r j - rfold Rmax K' (log_q_spec r)).

Definition qtotp_spec (r : index) : R :=
  rsum K (fun j => pisR (j :: bidx bs r) * qp_spec r j).

Definition pref_spec (r : index) (j x : nat) : R :=
  pisR (j :: bidx bs r) * qp_spec r j * gR (x :: r) / qtotp_spec r.

Definition grad_locs_spec (b : index) (j x : nat) : R :=
  rmsum ls (fun l => pref_spec (b ++ l) j x).

Definition grad_scale_spec (b : index) (x : nat) : R :=
  rmsum ls (fun l =>
              rsum K (fun j => pref_spec (b ++ l) j x * eps_spec (b ++ l) j x)).

Definition qtot_spec (r : index) : R :=
  rsum K (fun j => pisR (j :: bidx bs r) * exp (log_q_spec r j)).

(** The unit separating direction, zero for [p = q]. *)
Definition mu_spec (b : index) (p q x : nat) : R :=
  if (p =? q)%nat then 0
  else (lt b p x - lt b q x)
       / sqrt (rsum D (fun y => (lt b p y - lt b q y) * (lt b p y - lt b q y))).

(** The projection of a mean on a pairwise axis: [<locs~[q,:],
    mu[p,q,:]>] in the specification's words, [<locs~[p,:], mu[p,q,:]>]
    in the code ([locs_tilde.unsqueeze(-2)] on line 97 varies with the
    first index of [mu_ab]). *)
Definition mu_ll_spec (b : index) (p q : nat) : R :=
  rsum D (fun x => lt b q x * mu_spec b p q x).

Definition mu_ll_code (b : index) (p q : nat) : R :=
  rsum D (fun x => lt b p x * mu_spec b p q x).

Definition z_ll_spec (r : index) (p q : nat) : R :=
  rsum D (fun x => zt r x * mu_spec (bidx bs r) p q x).

Definition z_perp_sqr_spec (r : index) (p q : nat) : R :=
  rsum D (fun x =>
            (zt r x - z_ll_spec r p q * mu_spec (bidx bs r) p q x)
            * (zt r x - z_ll_spec r p q * mu_spec (bidx bs r) p q x)).

Definition sigma_g_spec (r : index) (p q : nat) : R :=
  rsum D (fun x => scaleR (x :: bidx bs r) * gR (x :: r)
                   * mu_spec (bidx bs r) p q x).

(** [term[l,b,p,q]], for a given reading [mull] of [mu_ll]. *)
Definition term_with (mull : index -> nat -> nat -> R) (r : index) (p q : nat)
  : R :=
  (erf ((z_ll_spec r p q - mull (bidx bs r) p q) / sqrt 2)
   - erf ((z_ll_spec r p q + mull (bidx bs r) q p) / sqrt 2))
  * exp (- (1 / 2) * z_perp_sqr_spec r p q)
  * - sigma_g_spec r p q
  * pisR (q :: bidx bs r).

Definition grad_logits_with (mull : index -> nat -> nat -> R) (b : index)
    (p : nat) : R :=
  pisR (p :: b) * sqrt (PI / 2)
  * rmsum ls (fun l =>
                rsum K (fun q => term_with mull (b ++ l) p q / qtot_spec (b ++ l))).

Lemma eps_spec_eq (r : index) (j x : nat) : eps r j x = eps_spec r j x.
Proof. reflexivity. Qed.

Lemma log_q_spec_eq (r : index) (j : nat) : log_q r j = log_q_spec r j.
Proof. unfold log_q, log_q_spec. now rewrite rsum_scal. Qed.

Lemma log_q_max_spec_eq (r : index) :
  log_q_max r = rfold Rmax K' (log_q_spec r).
Proof.
  unfold log_q_max. apply rfold_ext. intros j _. apply log_q_spec_eq.
Qed.

Lemma qp_spec_eq (r : index) (j : nat) : qp r j = qp_spec r j.
Proof. unfold qp, qp_spec. now rewrite log_q_spec_eq, log_q_max_spec_eq. Qed.

Lemma qtotp_spec_eq (r : index) : qtotp r = qtotp_spec r.
Proof.
  unfold qtotp, qtotp_spec. apply rsum_ext. intros j _. now rewrite qp_spec_eq.
Qed.

Lemma qtot_spec_eq (r : index) : qtot r = qtot_spec r.
Proof.
  unfold qtot, qtot_spec, qj. apply rsum_ext. intros j _.
  now rewrite log_q_spec_eq.
Qed.

Lemma pref_spec_eq (r : index) (j x : nat) : pref r j x = pref_spec r j x.
Proof. unfold pref, pref_spec. now rewrite qp_spec_eq, qtotp_spec_eq. Qed.

Lemma locs_grad_val_spec (b : index) (j x : nat) :
  locs_grad_val b j x = grad_locs_spec b j x.
Proof.
  unfold locs_grad_val, grad_locs_spec. apply rmsum_ext. intros l _.
  apply pref_spec_eq.
Qed.

Lemma scale_grad_val_spec (b : index) (x : nat) :
  scale_grad_val b x = grad_scale_spec b x.
Proof.
  unfold scale_grad_val, grad_scale_spec.
  rewrite rmsum_rsum_swap. apply rsum_ext. intros j _.
  apply rmsum_ext. intros l _. now rewrite pref_spec_eq, eps_spec_eq.
Qed.

Lemma backward_locs_scale :
  exists gl gs glg,
    backward ctx g = Some (gl, gs, glg) /\
    agrees gl (D :: K :: bs)
           (fun i => Fin (grad_locs_spec (rest 2 i) (ax 1 i) (ax 0 i))) /\
    agrees gs (D :: bs)
           (fun i => Fin (grad_scale_spec (rest 1 i) (ax 0 i))).
Proof.
  destruct backward_run_ok as (L & EL & Hl & Hs & _).
  exists (locs_grad L), (scale_grad L), (logits_grad L).
  unfold backward. rewrite EL. split; [reflexivity |]. split.
  - apply (agrees_ext _ _ _ _ Hl). intros i _. now rewrite locs_grad_val_spec.
  - apply (agrees_ext _ _ _ _ Hs). intros i _. now rewrite scale_grad_val_spec.
Qed.

(** *** The logits gradient when the normalised means are pairwise
    distinct *)

Hypothesis distinct_means :
  forall b p q, in_range bs b -> (p < K)%nat -> (q < K)%nat -> p <> q ->
                exists x, (x < D)%nat /\ locsR (x :: p :: b) <> locsR (x :: q :: b).

Lemma mu_norm_pos (b : index) (p q : nat) :
  in_range bs b -> (p < K)%nat -> (q < K)%nat -> p <> q -> 0 < mu_norm b p q.
Proof.
  intros Hb Hp Hq Hpq. unfold mu_norm. apply sqrt_lt_R0.
  destruct (distinct_means b p q Hb Hp Hq Hpq) as (x & Hx & Hne).
  assert (Hs : 0 < scaleR (x :: b)) by (apply scale_pos; simpl; tauto).
  assert (Hd : mu_diff b p q x <> 0).
  { unfold mu_diff, lt. intros H. apply Hne.
    assert (H' : locsR (x :: p :: b) / scaleR (x :: b)
                 = locsR (x :: q :: b) / scaleR (x :: b)) by lra.
    unfold Rdiv in H'. apply Rmult_eq_reg_r in H'; [exact H' |].
    apply Rinv_neq_0_compat. lra. }
  eapply Rlt_le_trans;
    [| apply (rsum_ge_term D (fun y => mu_diff b p q y * mu_diff b p q y) x)].
  - cbv beta. nra.
  - intros y _. nra.
  - exact Hx.
Qed.

Lemma mu_fin (b : index) (k j x : nat) :
  in_range bs b -> (k < K)%nat -> (j < K)%nat ->
  mu b k j x = Fin (mu_spec b k j x).
Proof.
  intros Hb Hk Hj. unfold mu, mu_spec.
  destruct (Nat.ltb_spec j K) as [_ | H]; [| lia].
  rewrite Bool.andb_true_r, (Nat.eqb_sym k j).
  destruct (Nat.eqb_spec j k) as [_ | Hne]; [reflexivity |].
  rewrite div_fin; [reflexivity |].
  apply Rgt_not_eq, mu_norm_pos; auto.
Qed.

Lemma mu_ll_fin (b : index) (k j : nat) :
  in_range bs b -> (k < K)%nat -> (j < K)%nat ->
  mu_ll b k j = Fin (mu_ll_code b k j).
Proof.
  intros Hb Hk Hj. unfold mu_ll, mu_ll_code. apply nsum_fin_ext.
  intros x _. now rewrite mu_fin.
Qed.

Lemma z_ll_fin (r : index) (k j : nat) :
  in_range (bs ++ ls) r -> (k < K)%nat -> (j < K)%nat ->
  z_ll r k j = Fin (z_ll_spec r k j).
Proof.
  intros Hr Hk Hj. unfold z_ll, z_ll_spec. apply nsum_fin_ext.
  intros x _. rewrite mu_fin by (auto using bw_batch). reflexivity.
Qed.

Lemma z_perp_sqr_fin (r : index) (k j : nat) :
  in_range (bs ++ ls) r -> (k < K)%nat -> (j < K)%nat ->
  z_perp_sqr r k j = Fin (z_perp_sqr_spec r k j).
Proof.
  intros Hr Hk Hj. unfold z_perp_sqr, z_perp_sqr_spec. apply nsum_fin_ext.
  intros x _. rewrite z_ll_fin, mu_fin by (auto using bw_batch). reflexivity.
Qed.

Lemma sigma_g_fin (r : index) (k j : nat) :
  in_range (bs ++ ls) r -> (k < K)%nat -> (j < K)%nat ->
  sigma_g r k j = Fin (sigma_g_spec r k j).
Proof.
  intros Hr Hk Hj. unfold sigma_g, sigma_g_spec. apply nsum_fin_ext.
  intros x _. rewrite mu_fin by (auto using bw_batch). reflexivity.
Qed.

Lemma sqrt2_neq_0 : sqrt 2 <> 0.
Proof. apply Rgt_not_eq, sqrt_lt_R0. lra. Qed.

Lemma lg_term_fin (r : index) (k j : nat) :
  in_range (bs ++ ls) r -> (k < K)%nat -> (j < K)%nat ->
  lg_term r k j = Fin (term_with mu_ll_code r k j).
Proof.
  intros Hr Hk Hj. unfold lg_term, term_with.
  rewrite z_ll_fin, z_perp_sqr_fin, sigma_g_fin by assumption.
  rewrite !mu_ll_fin by (auto using bw_batch).
  cbn [Num.sub Num.add Num.neg]. rewrite !div_fin by apply sqrt2_neq_0.
  cbn [Num.erf Num.sub Num.add Num.neg Num.mul Num.exp]. f_equal.
  unfold Rminus. ring.
Qed.

Lemma logits_grad_val_fin (b : index) (k : nat) :
  in_range bs b -> (k < K)%nat ->
  logits_grad_val b k = Fin (grad_logits_with mu_ll_code b k).
Proof.
  intros Hb Hk. unfold logits_grad_val, grad_logits_with.
  rewrite (msum_fin_ext ls _
             (fun l => rsum K (fun q => term_with mu_ll_code (b ++ l) k q
                                        / qtot_spec (b ++ l)))).
  - cbn [Num.mul]. f_equal.
    replace (1 / 2 * PI) with (PI / 2) by lra. ring.
  - intros l Hl.
    assert (Hr : in_range (bs ++ ls) (b ++ l)) by now apply in_range_app.
    rewrite (nsum_fin_ext K _ (fun q => term_with mu_ll_code (b ++ l) k q))
      by (intros q Hq; now apply lg_term_fin).
    rewrite div_fin by (apply Rgt_not_eq, qtot_pos, Hr).
    rewrite rsum_div, qtot_spec_eq. reflexivity.
Qed.

Lemma backward_logits :
  exists gl gs glg,
    backward ctx g = Some (gl, gs, glg) /\
    agrees glg (K :: bs)
           (fun i => Fin (grad_logits_with mu_ll_code (rest 1 i) (ax 0 i))).
Proof.
  destruct backward_run_ok as (L & EL & _ & _ & Hlg' & _).
  exists (locs_grad L), (scale_grad L), (logits_grad L).
  unfold backward. rewrite EL. split; [reflexivity |].
  apply (agrees_ext _ _ _ _ Hlg'). intros i Hi. dest_idx i Hi. idx_norm.
  now apply logits_grad_val_fin.
Qed.

End Backward.

(** *** A saved context with two components at [-1] and [1] *)

Definition gx_zero (_ : index) : R := 0.
Definition gx_one (_ : index) : R := 1.
Definition gx_half (_ : index) : R := 1 / 2.

Definition gx_ctx : saved :=
  mkSaved (mkT [1]%nat (fun i => Fin (gx_zero i)))
          (mkT [1]%nat (fun i => Fin (gx_one i)))
          sc_locs
          sc_logits
          (mkT [2]%nat (fun i => Fin (gx_half i))).

Definition gx_g : tensor num := mkT [1]%nat (fun i => Fin (gx_one i)).

Lemma gx_scale_pos (i : index) : in_range [1%nat] i -> 0 < gx_one i.
Proof. intros _. unfold gx_one. lra. Qed.

Lemma gx_pis_pos (i : index) : in_range [2%nat] i -> 0 < gx_half i.
Proof. intros _. unfold gx_half. lra. Qed.

Lemma gx_distinct (b : index) (p q : nat) :
  in_range [] b -> (p < 2)%nat -> (q < 2)%nat -> p <> q ->
  exists x, (x < 1)%nat /\ sc_locsR (x :: p :: b) <> sc_locsR (x :: q :: b).
Proof.
  intros _ Hp Hq Hpq. exists 0%nat. split; [lia |].
  unfold sc_locsR. cbn [nth].
  destruct p as [| [| p]], q as [| [| q]]; try lia; cbn [Nat.eqb]; lra.
Qed.

Lemma gx_mu01 : mu_spec 1 gx_one sc_locsR [] 0 1 0 = -1.
Proof.
  unfold mu_spec. cbn [Nat.eqb rsum]. unfold lt, sc_locsR, gx_one.
  cbn [nth Nat.eqb].
  replace (0 + (-1 / 1 - 1 / 1) * (-1 / 1 - 1 / 1)) with (2 * 2) by field.
  rewrite sqrt_square by lra. field.
Qed.

Lemma gx_mu10 : mu_spec 1 gx_one sc_locsR [] 1 0 0 = 1.
Proof.
  unfold mu_spec. cbn [Nat.eqb rsum]. unfold lt, sc_locsR, gx_one.
  cbn [nth Nat.eqb].
  replace (0 + (1 / 1 - -1 / 1) * (1 / 1 - -1 / 1)) with (2 * 2) by field.
  rewrite sqrt_square by lra. field.
Qed.

Lemma gx_lt0 : lt gx_one sc_locsR [] 0 0 = -1.
Proof. unfold lt, sc_locsR, gx_one. cbn [nth Nat.eqb]. field. Qed.

Lemma gx_lt1 : lt gx_one sc_locsR [] 1 0 = 1.
Proof. unfold lt, sc_locsR, gx_one. cbn [nth Nat.eqb]. field. Qed.

Lemma gx_zt : zt [] gx_zero gx_one [] 0 = 0.
Proof. unfold zt, gx_zero, gx_one. cbn [bidx]. field. Qed.

Lemma gx_z_ll (p q : nat) : z_ll_spec 1 [] gx_zero gx_one sc_locsR [] p q = 0.
Proof. unfold z_ll_spec. cbn [rsum]. rewrite gx_zt. ring. Qed.

Lemma gx_z_perp (p q : nat) :
  z_perp_sqr_spec 1 [] gx_zero gx_one sc_locsR [] p q = 0.
Proof. unfold z_perp_sqr_spec. cbn [rsum]. rewrite gx_zt, gx_z_ll. ring. Qed.

(** For [p = q] the term vanishes under both readings of [mu_ll]. *)
Lemma gx_term_diag (mull : index -> nat -> nat -> R) (p : nat) :
  term_with 1 [] gx_zero gx_one sc_locsR gx_half gx_one mull [] p p = 0.
Proof.
  unfold term_with, sigma_g_spec, mu_spec. cbn [rsum].
  rewrite Nat.eqb_refl. ring.
Qed.

Lemma gx_term_code :
  term_with 1 [] gx_zero gx_one sc_locsR gx_half gx_one
            (mu_ll_code 1 gx_one sc_locsR) [] 0 1
  = (erf ((0 - 1) / sqrt 2) - erf ((0 + 1) / sqrt 2)) * (1 / 2).
Proof.
  unfold term_with, sigma_g_spec, mu_ll_code. cbn [rsum bidx].
  rewrite gx_z_ll, gx_z_perp, gx_mu01, gx_mu10, gx_lt0, gx_lt1.
  unfold gx_one, gx_half.
  replace (- (1 / 2) * 0) with 0 by ring. rewrite exp_0.
  replace (0 + -1 * -1) with 1 by ring. replace (0 + 1 * 1) with 1 by ring.
  ring.
Qed.

Lemma gx_term_spec :
  term_with 1 [] gx_zero gx_one sc_locsR gx_half gx_one
            (mu_ll_spec 1 gx_one sc_locsR) [] 0 1
  = (erf ((0 - -1) / sqrt 2) - erf ((0 + -1) / sqrt 2)) * (1 / 2).
Proof.
  unfold term_with, sigma_g_spec, mu_ll_spec. cbn [rsum bidx].
  rewrite gx_z_ll, gx_z_perp, gx_mu01, gx_mu10, gx_lt0, gx_lt1.
  unfold gx_one, gx_half.
  replace (- (1 / 2) * 0) with 0 by ring. rewrite exp_0.
  replace (0 + 1 * -1) with (-1) by ring. replace (0 + -1 * 1) with (-1) by ring.
  ring.
Qed.

Lemma gx_qtot_pos : 0 < qtot_spec 1 1 [] gx_zero gx_one sc_locsR gx_half [].
Proof.
  unfold qtot_spec. apply rsum_pos; [lia |]. intros j _.
  apply Rmult_lt_0_compat; [unfold gx_half; lra | apply exp_pos].
Qed.

Lemma gx_grad_logits (mull : index -> nat -> nat -> R) :
  grad_logits_with 1 1 [] [] gx_zero gx_one sc_locsR gx_half gx_one mull [] 0
  = 1 / 2 * sqrt (PI / 2)
    * (term_with 1 [] gx_zero gx_one sc_locsR gx_half gx_one mull [] 0 1
       / qtot_spec 1 1 [] gx_zero gx_one sc_locsR gx_half []).
Proof.
  unfold grad_logits_with. cbn [rmsum rsum app]. rewrite gx_term_diag.
  unfold gx_half at 1. unfold Rdiv. ring.
Qed.

Lemma gx_root_pos : 0 < sqrt (PI / 2).
Proof. apply sqrt_lt_R0. pose proof PI_RGT_0. lra. Qed.

Lemma gx_erf_gap : erf ((0 - 1) / sqrt 2) < 0 < erf ((0 + 1) / sqrt 2).
Proof.
  assert (Hs : 0 < / sqrt 2) by (apply Rinv_0_lt_compat, sqrt_lt_R0; lra).
  split.
  - apply erf_neg. unfold Rdiv. nra.
  - apply erf_pos. unfold Rdiv. nra.
Qed.

Lemma gx_grad_code_neg :
  grad_logits_with 1 1 [] [] gx_zero gx_one sc_locsR gx_half gx_one
                   (mu_ll_code 1 gx_one sc_locsR) [] 0 < 0.
Proof.
  rewrite gx_grad_logits, gx_term_code.
  pose proof gx_erf_gap as [H1 H2]. pose proof gx_root_pos as Hr.
  pose proof (Rinv_0_lt_compat _ gx_qtot_pos) as Hq.
  unfold Rdiv at 3.
  set (e1 := erf ((0 - 1) / sqrt 2)) in *. set (e2 := erf ((0 + 1) / sqrt 2)) in *.
  set (q := / qtot_spec 1 1 [] gx_zero gx_one sc_locsR gx_half []) in *.
  set (s := sqrt (PI / 2)) in *.
  assert (0 < 1 / 2 * s * q) by (apply Rmult_lt_0_compat; nra).
  nra.
Qed.

Lemma gx_grad_spec_pos :
  0 < grad_logits_with 1 1 [] [] gx_zero gx_one sc_locsR gx_half gx_one
                       (mu_ll_spec 1 gx_one sc_locsR) [] 0.
Proof.
  rewrite gx_grad_logits, gx_term_spec.
  replace (0 - -1) with (0 + 1) by ring. replace (0 + -1) with (0 - 1) by ring.
  pose proof gx_erf_gap as [H1 H2]. pose proof gx_root_pos as Hr.
  pose proof (Rinv_0_lt_compat _ gx_qtot_pos) as Hq.
  unfold Rdiv at 3.
  set (e1 := erf ((0 - 1) / sqrt 2)) in *. set (e2 := erf ((0 + 1) / sqrt 2)) in *.
  set (q := / qtot_spec 1 1 [] gx_zero gx_one sc_locsR gx_half []) in *.
  set (s := sqrt (PI / 2)) in *.
  assert (0 < 1 / 2 * s * q) by (apply Rmult_lt_0_compat; nra).
  nra.
Qed.

Lemma gx_agrees (s : shape) (f : index -> R) :
  agrees (mkT s (fun i => Fin (f i))) s (fun i => Fin (f i)).
Proof. apply agrees_self. Qed.

(** C2: for every saved context with positive scale and positive
    weights and every upstream gradient [g] of [z]'s shape, [backward]
    returns [grad_locs[b,j,:]], the sum over the leading sample axes of
    [prefactor[l,b,j,:]], and [grad_scale[b,:]], the sum over the
    leading sample axes and the components of [prefactor * epsilon],
    with [epsilon], [prefactor], [q'] and [q_tot'] as the specification
    defines them. *)
Theorem backward_locs_scale_gradients
    (D K' : nat) (bs ls : shape) (zR scaleR locsR pisR gR : index -> R)
    (ctx : saved) (g : tensor num) :
  (forall i, in_range (D :: bs) i -> 0 < scaleR i) ->
  (forall i, in_range (S K' :: bs) i -> 0 < pisR i) ->
  agrees (s_z ctx) (D :: bs ++ ls) (fun i => Fin (zR i)) ->
  agrees (s_scale ctx) (D :: bs) (fun i => Fin (scaleR i)) ->
  agrees (s_locs ctx) (D :: S K' :: bs) (fun i => Fin (locsR i)) ->
  tshape (s_logits ctx) = S K' :: bs ->
  agrees (s_pis ctx) (S K' :: bs) (fun i => Fin (pisR i)) ->
  agrees g (D :: bs ++ ls) (fun i => Fin (gR i)) ->
  exists gl gs glg,
    backward ctx g = Some (gl, gs, glg) /\
    tshape gl = D :: S K' :: bs /\
    tshape gs = D :: bs /\
    (forall b j x, in_range bs b -> (j < S K')%nat -> (x < D)%nat ->
       tdata gl (x :: j :: b)
       = Fin (grad_locs_spec D K' bs ls zR scaleR locsR pisR gR b j x)) /\
    (forall b x, in_range bs b -> (x < D)%nat ->
       tdata gs (x :: b)
       = Fin (grad_scale_spec D K' bs ls zR scaleR locsR pisR gR b x)).
Proof.
  intros Hsp Hpp Hz Hsc Hml Hlg Hpis Hg.
  destruct (backward_locs_scale D K' bs ls zR scaleR locsR pisR gR ctx g
              Hsp Hpp Hz Hsc Hml Hlg Hpis Hg)
    as (gl & gs & glg & E & Hl & Hs).
  exists gl, gs, glg. split; [exact E |].
  split; [exact (agrees_shape _ _ _ Hl) |].
  split; [exact (agrees_shape _ _ _ Hs) |]. split.
  - intros b j x Hb Hj Hx.
    rewrite (agrees_data _ _ _ (x :: j :: b) Hl) by (simpl; tauto).
    reflexivity.
  - intros b x Hb Hx.
    rewrite (agrees_data _ _ _ (x :: b) Hs) by (simpl; tauto).
    reflexivity.
Qed.

Lemma backward_locs_scale_gradients_witness :
  exists gl gs glg,
    backward gx_ctx gx_g = Some (gl, gs, glg) /\
    tshape gl = [1; 2]%nat /\
    tshape gs = [1]%nat /\
    (forall b j x, in_range [] b -> (j < 2)%nat -> (x < 1)%nat ->
       tdata gl (x :: j :: b)
       = Fin (grad_locs_spec 1 1 [] [] gx_zero gx_one sc_locsR gx_half gx_one
                             b j x)) /\
    (forall b x, in_range [] b -> (x < 1)%nat ->
       tdata gs (x :: b)
       = Fin (grad_scale_spec 1 1 [] [] gx_zero gx_one sc_locsR gx_half gx_one
                              b x)).
Proof.
  exact (backward_locs_scale_gradients 1 1 [] [] gx_zero gx_one sc_locsR
           gx_half gx_one gx_ctx gx_g gx_scale_pos gx_pis_pos
           (gx_agrees _ _) (gx_agrees _ _) sc_agrees_locs eq_refl
           (gx_agrees _ _) (gx_agrees _ _)).
Defined.

(** C1 as stated fails: with [mu_ll[p,q] = <locs~[q,:], mu[p,q,:]>], as
    the specification defines it, the formula gives a positive logits
    gradient for component 0 of the context above, while [backward]
    returns a negative one. *)
Lemma logits_gradient_differs_from_stated_formula :
  exists gl gs glg,
    backward gx_ctx gx_g = Some (gl, gs, glg) /\
    tdata glg [0%nat]
    <> Fin (grad_logits_with 1 1 [] [] gx_zero gx_one sc_locsR gx_half gx_one
                             (mu_ll_spec 1 gx_one sc_locsR) [] 0).
Proof.
  destruct (backward_logits 1 1 [] [] gx_zero gx_one sc_locsR gx_half gx_one
              gx_ctx gx_g gx_scale_pos gx_pis_pos
              (gx_agrees _ _) (gx_agrees _ _) sc_agrees_locs eq_refl
              (gx_agrees _ _) (gx_agrees _ _) gx_distinct)
    as (gl & gs & glg & E & Hlg).
  exists gl, gs, glg. split; [exact E |].
  rewrite (agrees_data _ _ _ [0%nat] Hlg) by (simpl; lia).
  unfold rest, ax. cbn [skipn nth].
  intros H. injection H as H.
  pose proof gx_grad_code_neg. pose proof gx_grad_spec_pos. lra.
Qed.

(** C1, amended: for every saved context with positive scale, positive
    weights and pairwise distinct component means, and every upstream
    gradient, the logits gradient is [weights[b,p] * sqrt(pi/2)] times
    the sum over the leading sample axes and over the components [q] of
    [term[l,b,p,q] / q_tot[l,b]], where [term] is the specification's
    with [mu_ll[p,q] = <locs~[p,:], mu[p,q,:]>]. *)
Theorem backward_logits_gradient
    (D K' : nat) (bs ls : shape) (zR scaleR locsR pisR gR : index -> R)
    (ctx : saved) (g : tensor num) :
  (forall i, in_range (D :: bs) i -> 0 < scaleR i) ->
  (forall i, in_range (S K' :: bs) i -> 0 < pisR i) ->
  agrees (s_z ctx) (D :: bs ++ ls) (fun i => Fin (zR i)) ->
  agrees (s_scale ctx) (D :: bs) (fun i => Fin (scaleR i)) ->
  agrees (s_locs ctx) (D :: S K' :: bs) (fun i => Fin (locsR i)) ->
  tshape (s_logits ctx) = S K' :: bs ->
  agrees (s_pis ctx) (S K' :: bs) (fun i => Fin (pisR i)) ->
  agrees g (D :: bs ++ ls) (fun i => Fin (gR i)) ->
  (forall b p q, in_range bs b -> (p < S K')%nat -> (q < S K')%nat -> p <> q ->
     exists x, (x < D)%nat /\ locsR (x :: p :: b) <> locsR (x :: q :: b)) ->
  exists gl gs glg,
    backward ctx g = Some (gl, gs, glg) /\
    tshape glg = S K' :: bs /\
    forall b p, in_range bs b -> (p < S K')%nat ->
      tdata glg (p :: b)
      = Fin (grad_logits_with D K' bs ls zR scaleR locsR pisR gR
                              (mu_ll_code D scaleR locsR) b p).
Proof.
  intros Hsp Hpp Hz Hsc Hml Hlg Hpis Hg Hdist.
  destruct (backward_logits D K' bs ls zR scaleR locsR pisR gR ctx g
              Hsp Hpp Hz Hsc Hml Hlg Hpis Hg Hdist)
    as (gl & gs & glg & E & Hl).
  exists gl, gs, glg. split; [exact E |].
  split; [exact (agrees_shape _ _ _ Hl) |].
  intros b p Hb Hp.
  rewrite (agrees_data _ _ _ (p :: b) Hl) by (simpl; tauto).
  reflexivity.
Qed.

Lemma backward_logits_gradient_witness :
  exists gl gs glg,
    backward gx_ctx gx_g = Some (gl, gs, glg) /\
    tshape glg = [2]%nat /\
    forall b p, in_range [] b -> (p < 2)%nat ->
      tdata glg (p :: b)
      = Fin (grad_logits_with 1 1 [] [] gx_zero gx_one sc_locsR gx_half gx_one
                              (mu_ll_code 1 gx_one sc_locsR) b p).
Proof.
  exact (backward_logits_gradient 1 1 [] [] gx_zero gx_one sc_locsR
           gx_half gx_one gx_ctx gx_g gx_scale_pos gx_pis_pos
           (gx_agrees _ _) (gx_agrees _ _) sc_agrees_locs eq_refl
           (gx_agrees _ _) (gx_agrees _ _) gx_distinct).
Defined.

(** ** NaN propagation *)

Lemma add_nan_r (x : num) : Num.add x NaN = NaN.
Proof. destruct x; reflexivity. Qed.

Lemma add_nan_l (x : num) : Num.add NaN x = NaN.
Proof. destruct x; reflexivity. Qed.

Lemma mul_nan_r (x : num) : Num.mul x NaN = NaN.
Proof. destruct x; reflexivity. Qed.

Lemma nsum_nan (n : nat) (f : nat -> num) (k : nat) :
  (k < n)%nat -> f k = NaN -> nsum n f = NaN.
Proof.
  induction n as [| n IH]; intros Hk Hf; [lia |]. simpl.
  destruct (Nat.eq_dec k n) as [-> | Hne].
  - rewrite Hf. apply add_nan_r.
  - rewrite IH by (try lia; exact Hf). apply add_nan_l.
Qed.

Lemma msum_nan (ds : shape) (f : index -> num) (m : index) :
  in_range ds m -> f m = NaN -> msum ds f = NaN.
Proof.
  revert f m; induction ds as [| n ds IH]; intros f [| k m]; simpl; try tauto.
  intros [Hk Hm] H. apply (nsum_nan n _ k Hk). now apply (IH _ m).
Qed.

(** ** Coincident component means *)

Section Degenerate.

Variables (D K' : nat) (bs ls : shape).
Variables (zR scaleR locsR pisR gR : index -> R).
Variables (b : index) (p q : nat) (l0 : index).

Hypothesis Hb : in_range bs b.
Hypothesis Hl0 : in_range ls l0.
Hypothesis HD : (0 < D)%nat.
Hypothesis Hp : (p < S K')%nat.
Hypothesis Hq : (q < S K')%nat.
Hypothesis Hpq : p <> q.
Hypothesis Hsame : forall x, (x < D)%nat ->
                             locsR (x :: p :: b) = locsR (x :: q :: b).

Lemma mu_coincident (x : nat) :
  (x < D)%nat -> mu D K' scaleR locsR b p q x = NaN.
Proof.
  intros Hx. unfold mu.
  destruct (Nat.eqb_spec q p) as [E | _]; [congruence |]. cbn [andb].
  assert (Hd : forall y, (y < D)%nat -> mu_diff scaleR locsR b p q y = 0).
  { intros y Hy. unfold mu_diff, lt. rewrite (Hsame y Hy). lra. }
  unfold mu_norm. rewrite (rsum_zero D) by (intros y Hy; rewrite Hd by exact Hy; lra).
  rewrite sqrt_0, Hd by exact Hx. apply div_zero_zero.
Qed.

Lemma sigma_g_coincident (r : index) :
  bidx bs r = b -> sigma_g D K' bs scaleR locsR gR r p q = NaN.
Proof.
  intros Hr. unfold sigma_g. apply (nsum_nan D _ 0%nat HD).
  rewrite Hr, mu_coincident by exact HD. reflexivity.
Qed.

Lemma lg_term_coincident (r : index) :
  bidx bs r = b -> lg_term D K' bs zR scaleR locsR pisR gR r p q = NaN.
Proof.
  intros Hr. unfold lg_term. rewrite (sigma_g_coincident r Hr).
  cbn [Num.neg Num.mul]. apply mul_nan_r.
Qed.

Lemma logits_grad_val_coincident :
  logits_grad_val D K' bs ls zR scaleR locsR pisR gR b p = NaN.
Proof.
  unfold logits_grad_val.
  rewrite (msum_nan ls _ l0 Hl0).
  - reflexivity.
  - rewrite (nsum_nan (S K') _ q Hq); [reflexivity |].
    apply lg_term_coincident. now apply bidx_app_l.
Qed.

End Degenerate.

(** A saved context whose two components share the mean [1]. *)
Definition cz_ctx : saved :=
  mkSaved (mkT [1]%nat (fun i => Fin (gx_zero i)))
          (mkT [1]%nat (fun i => Fin (gx_one i)))
          (mkT [1; 2]%nat (fun i => Fin (gx_one i)))
          sc_logits
          (mkT [2]%nat (fun i => Fin (gx_half i))).

(** C3, what the code does where the specification asks for a zero
    contribution: when two distinct components [p] and [q] of a batch
    element have identical mean rows, [backward] does not raise and the
    gradients of the means and of the scale are finite, but the logits
    gradient of [p] and of [q] is NaN: the direction of the pair is
    [0/0], and only the directions with [p = q] are set to zero. *)
Theorem backward_coincident_means
    (D K' : nat) (bs ls : shape) (zR scaleR locsR pisR gR : index -> R)
    (ctx : saved) (g : tensor num) (b : index) (p q : nat) (l0 : index) :
  (forall i, in_range (D :: bs) i -> 0 < scaleR i) ->
  (forall i, in_range (S K' :: bs) i -> 0 < pisR i) ->
  agrees (s_z ctx) (D :: bs ++ ls) (fun i => Fin (zR i)) ->
  agrees (s_scale ctx) (D :: bs) (fun i => Fin (scaleR i)) ->
  agrees (s_locs ctx) (D :: S K' :: bs) (fun i => Fin (locsR i)) ->
  tshape (s_logits ctx) = S K' :: bs ->
  agrees (s_pis ctx) (S K' :: bs) (fun i => Fin (pisR i)) ->
  agrees g (D :: bs ++ ls) (fun i => Fin (gR i)) ->
  in_range bs b -> in_range ls l0 -> (0 < D)%nat ->
  (p < S K')%nat -> (q < S K')%nat -> p <> q ->
  (forall x, (x < D)%nat -> locsR (x :: p :: b) = locsR (x :: q :: b)) ->
  exists gl gs glg,
    backward ctx g = Some (gl, gs, glg) /\
    (forall i, in_range (D :: S K' :: bs) i -> is_finite (tdata gl i)) /\
    (forall i, in_range (D :: bs) i -> is_finite (tdata gs i)) /\
    tdata glg (p :: b) = NaN /\
    tdata glg (q :: b) = NaN.
Proof.
  intros Hsp Hpp Hz Hsc Hml Hlg Hpis Hg Hb Hl0 HD Hp Hq Hpq Hsame.
  destruct (backward_run_ok D K' bs ls zR scaleR locsR pisR gR ctx g
              Hsp Hpp Hz Hsc Hml Hlg Hpis Hg)
    as (L & EL & Hl & Hs & Hlgr & _).
  exists (locs_grad L), (scale_grad L), (logits_grad L).
  unfold backward. rewrite EL. split; [reflexivity |].
  split; [| split; [| split]].
  - intros i Hi. rewrite (agrees_data _ _ _ i Hl Hi). exact I.
  - intros i Hi. rewrite (agrees_data _ _ _ i Hs Hi). exact I.
  - rewrite (agrees_data _ _ _ (p :: b) Hlgr) by (simpl; tauto).
    unfold rest, ax. cbn [skipn nth].
    now apply (logits_grad_val_coincident D K' bs ls zR scaleR locsR pisR gR
                 b p q l0).
  - rewrite (agrees_data _ _ _ (q :: b) Hlgr) by (simpl; tauto).
    unfold rest, ax. cbn [skipn nth].
    apply (logits_grad_val_coincident D K' bs ls zR scaleR locsR pisR gR
             b q p l0); auto.
    intros x Hx. symmetry. now apply Hsame.
Qed.

Lemma backward_coincident_means_witness :
  exists gl gs glg,
    backward cz_ctx gx_g = Some (gl, gs, glg) /\
    (forall i, in_range [1; 2]%nat i -> is_finite (tdata gl i)) /\
    (forall i, in_range [1]%nat i -> is_finite (tdata gs i)) /\
    tdata glg [0%nat] = NaN /\
    tdata glg [1%nat] = NaN.
Proof.
  apply (backward_coincident_means 1 1 [] [] gx_zero gx_one gx_one gx_half
           gx_one cz_ctx gx_g [] 0%nat 1%nat [] gx_scale_pos gx_pis_pos
           (gx_agrees _ _) (gx_agrees _ _) (gx_agrees _ _) eq_refl
           (gx_agrees _ _) (gx_agrees _ _) I I).
  - lia.
  - lia.
  - lia.
  - lia.
  - reflexivity.
Defined.

(** C3 at a concrete input: with [locs = [[1],[1]]], [scale = [1]],
    [z = [0]], weights [[0.5, 0.5]] and upstream gradient [[1]] the
    logits gradient that [backward] returns is not finite. *)
Lemma coincident_means_give_nan :
  exists gl gs glg,
    backward cz_ctx gx_g = Some (gl, gs, glg) /\
    ~ is_finite (tdata glg [0%nat]).
Proof.
  destruct (backward_run_ok 1 1 [] [] gx_zero gx_one gx_one gx_half gx_one
              cz_ctx gx_g gx_scale_pos gx_pis_pos
              (gx_agrees _ _) (gx_agrees _ _) (gx_agrees _ _) eq_refl
              (gx_agrees _ _) (gx_agrees _ _))
    as (L & EL & _ & _ & Hlgr & _).
  exists (locs_grad L), (scale_grad L), (logits_grad L).
  unfold backward. rewrite EL. split; [reflexivity |].
  rewrite (agrees_data _ _ _ [0%nat] Hlgr) by (simpl; lia).
  unfold rest, ax. cbn [skipn nth].
  rewrite (logits_grad_val_coincident 1 1 [] [] gx_zero gx_one gx_one gx_half
             gx_one [] 0%nat 1%nat [] I I ltac:(lia) ltac:(lia) ltac:(lia));
    [intros H; exact H | reflexivity].
Qed.

(** ** Which exponentials of [backward] are taken relative to a maximum *)

(** The arguments [args 0 .. args n] have the form [x_j - M] with [M]
    the maximum of the exponents [x_0 .. x_n]. *)
Definition relative_to_max (n : nat) (args : nat -> num) : Prop :=
  exists xs : nat -> R,
    forall j, (j <= n)%nat -> args j = Fin (xs j - rfold Rmax n xs).

Lemma relative_to_max_attains_zero (n : nat) (args : nat -> num) :
  relative_to_max n args -> exists j, (j <= n)%nat /\ args j = Fin 0.
Proof.
  intros [xs H]. destruct (rfold_max_attained n xs) as (j & Hj & Hmax).
  exists j. split; [exact Hj |]. rewrite (H j Hj), Hmax. f_equal. lra.
Qed.

Lemma log_q_spec_nonpos (D : nat) (bs : shape) (zR scaleR locsR : index -> R)
    (r : index) (j : nat) :
  log_q_spec D bs zR scaleR locsR r j <= 0.
Proof.
  unfold log_q_spec.
  assert (0 <= rsum D (fun x => eps_spec bs zR scaleR locsR r j x
                                * eps_spec bs zR scaleR locsR r j x))
    by (apply rsum_nonneg; intros; nra).
  lra.
Qed.

Lemma z_perp_sqr_spec_nonneg (D : nat) (bs : shape)
    (zR scaleR locsR : index -> R) (r : index) (p q : nat) :
  0 <= z_perp_sqr_spec D bs zR scaleR locsR r p q.
Proof.
  unfold z_perp_sqr_spec. apply rsum_nonneg. intros x _.
  apply Rle_0_sqr.
Qed.

Lemma backward_exp_args
    (D K' : nat) (bs ls : shape) (zR scaleR locsR pisR gR : index -> R)
    (ctx : saved) (g : tensor num) :
  (forall i, in_range (D :: bs) i -> 0 < scaleR i) ->
  (forall i, in_range (S K' :: bs) i -> 0 < pisR i) ->
  agrees (s_z ctx) (D :: bs ++ ls) (fun i => Fin (zR i)) ->
  agrees (s_scale ctx) (D :: bs) (fun i => Fin (scaleR i)) ->
  agrees (s_locs ctx) (D :: S K' :: bs) (fun i => Fin (locsR i)) ->
  tshape (s_logits ctx) = S K' :: bs ->
  agrees (s_pis ctx) (S K' :: bs) (fun i => Fin (pisR i)) ->
  agrees g (D :: bs ++ ls) (fun i => Fin (gR i)) ->
  exists L,
    backward_run ctx g = Some L /\
    q_j_prime L = T.exp (q_j_prime_arg L) /\
    q_j L = T.exp (log_q_j L) /\
    (forall r j, in_range (bs ++ ls) r -> (j < S K')%nat ->
       tdata (q_j_prime_arg L) (0%nat :: j :: r)
       = Fin (log_q_spec D bs zR scaleR locsR r j
              - rfold Rmax K' (log_q_spec D bs zR scaleR locsR r))) /\
    (forall r j, in_range (bs ++ ls) r -> (j < S K')%nat ->
       tdata (log_q_j L) (0%nat :: j :: r)
       = Fin (log_q_spec D bs zR scaleR locsR r j)) /\
    ((forall b p q, in_range bs b -> (p < S K')%nat -> (q < S K')%nat ->
        p <> q ->
        exists x, (x < D)%nat /\ locsR (x :: p :: b) <> locsR (x :: q :: b)) ->
     forall r p q, in_range (bs ++ ls) r -> (p < S K')%nat -> (q < S K')%nat ->
       tdata (perp_arg L) (q :: p :: r)
       = Fin (- (1 / 2) * z_perp_sqr_spec D bs zR scaleR locsR r p q)).
Proof.
  intros Hsp Hpp Hz Hsc Hml Hlg Hpis Hg.
  destruct (backward_run_ok D K' bs ls zR scaleR locsR pisR gR ctx g
              Hsp Hpp Hz Hsc Hml Hlg Hpis Hg)
    as (L & EL & _ & _ & _ & Hlq & Hqp & Hperp & Eqp & Eqj & _).
  exists L. split; [exact EL |]. split; [exact Eqp |]. split; [exact Eqj |].
  split; [| split].
  - intros r j Hr Hj.
    rewrite (agrees_data _ _ _ (0%nat :: j :: r) Hqp)
      by (simpl; repeat split; auto; lia).
    unfold rest, ax. cbn [skipn nth].
    now rewrite log_q_spec_eq, log_q_max_spec_eq.
  - intros r j Hr Hj.
    rewrite (agrees_data _ _ _ (0%nat :: j :: r) Hlq)
      by (simpl; repeat split; auto; lia).
    unfold rest, ax. cbn [skipn nth]. now rewrite log_q_spec_eq.
  - intros Hdist r p q Hr Hp Hq.
    rewrite (agrees_data _ _ _ (q :: p :: r) Hperp) by (simpl; tauto).
    unfold rest, ax. cbn [skipn nth].
    rewrite (z_perp_sqr_fin D K' bs ls zR scaleR locsR Hsp Hdist r p q Hr Hp Hq).
    reflexivity.
Qed.

(** C4, amended: of the three exponentials of [backward], only the one
    giving [q'] is applied to exponents relative to their per-[(l,b)]
    maximum; the one giving [q] is applied to [log_q] itself and the
    one in the logits gradient to [-0.5 * z_perp_sqr] itself.  All
    three arguments are at most 0 (the last one when the component means
    are pairwise distinct), so no exponential exceeds 1. *)
Theorem backward_exponential_arguments
    (D K' : nat) (bs ls : shape) (zR scaleR locsR pisR gR : index -> R)
    (ctx : saved) (g : tensor num) :
  (forall i, in_range (D :: bs) i -> 0 < scaleR i) ->
  (forall i, in_range (S K' :: bs) i -> 0 < pisR i) ->
  agrees (s_z ctx) (D :: bs ++ ls) (fun i => Fin (zR i)) ->
  agrees (s_scale ctx) (D :: bs) (fun i => Fin (scaleR i)) ->
  agrees (s_locs ctx) (D :: S K' :: bs) (fun i => Fin (locsR i)) ->
  tshape (s_logits ctx) = S K' :: bs ->
  agrees (s_pis ctx) (S K' :: bs) (fun i => Fin (pisR i)) ->
  agrees g (D :: bs ++ ls) (fun i => Fin (gR i)) ->
  exists L,
    backward_run ctx g = Some L /\
    q_j_prime L = T.exp (q_j_prime_arg L) /\
    q_j L = T.exp (log_q_j L) /\
    (forall r, in_range (bs ++ ls) r ->
       relative_to_max K' (fun j => tdata (q_j_prime_arg L) (0%nat :: j :: r))) /\
    (forall r j, in_range (bs ++ ls) r -> (j < S K')%nat ->
       exists x, tdata (q_j_prime_arg L) (0%nat :: j :: r) = Fin x /\ x <= 0) /\
    (forall r j, in_range (bs ++ ls) r -> (j < S K')%nat ->
       tdata (log_q_j L) (0%nat :: j :: r)
       = Fin (log_q_spec D bs zR scaleR locsR r j) /\
       log_q_spec D bs zR scaleR locsR r j <= 0) /\
    ((forall b p q, in_range bs b -> (p < S K')%nat -> (q < S K')%nat ->
        p <> q ->
        exists x, (x < D)%nat /\ locsR (x :: p :: b) <> locsR (x :: q :: b)) ->
     forall r p q, in_range (bs ++ ls) r -> (p < S K')%nat -> (q < S K')%nat ->
       tdata (perp_arg L) (q :: p :: r)
       = Fin (- (1 / 2) * z_perp_sqr_spec D bs zR scaleR locsR r p q) /\
       - (1 / 2) * z_perp_sqr_spec D bs zR scaleR locsR r p q <= 0).
Proof.
  intros Hsp Hpp Hz Hsc Hml Hlg Hpis Hg.
  destruct (backward_exp_args D K' bs ls zR scaleR locsR pisR gR ctx g
              Hsp Hpp Hz Hsc Hml Hlg Hpis Hg)
    as (L & EL & Eqp & Eqj & Hval & Hlq & Hperp).
  exists L. split; [exact EL |]. split; [exact Eqp |]. split; [exact Eqj |].
  split; [| split; [| split]].
  - intros r Hr. exists (log_q_spec D bs zR scaleR locsR r).
    intros j Hj. apply Hval; [exact Hr | lia].
  - intros r j Hr Hj. eexists. split; [now apply Hval |].
    pose proof (rfold_max_ge K' (log_q_spec D bs zR scaleR locsR r) j ltac:(lia)).
    lra.
  - intros r j Hr Hj. split; [now apply Hlq | apply log_q_spec_nonpos].
  - intros Hdist r p q Hr Hp Hq. split; [now apply Hperp |].
    pose proof (z_perp_sqr_spec_nonneg D bs zR scaleR locsR r p q). lra.
Qed.

Lemma backward_exponential_arguments_witness :
  exists L,
    backward_run gx_ctx gx_g = Some L /\
    relative_to_max 1 (fun j => tdata (q_j_prime_arg L) [0; j]%nat) /\
    tdata (log_q_j L) [0; 0]%nat
    = Fin (log_q_spec 1 [] gx_zero gx_one sc_locsR [] 0).
Proof.
  destruct (backward_exponential_arguments 1 1 [] [] gx_zero gx_one sc_locsR
              gx_half gx_one gx_ctx gx_g gx_scale_pos gx_pis_pos
              (gx_agrees _ _) (gx_agrees _ _) sc_agrees_locs eq_refl
              (gx_agrees _ _) (gx_agrees _ _))
    as (L & EL & _ & _ & Hrel & _ & Hlq & _).
  exists L. split; [exact EL |]. split; [exact (Hrel [] I) |].
  exact (proj1 (Hlq [] 0%nat I ltac:(lia))).
Defined.

Lemma gx_log_q (j : nat) :
  (j < 2)%nat -> log_q_spec 1 [] gx_zero gx_one sc_locsR [] j = - (1 / 2).
Proof.
  intros Hj. unfold log_q_spec, eps_spec, sc_locsR, gx_zero, gx_one.
  cbn [rsum bidx nth].
  destruct j as [| [| j]]; [| | lia]; cbn [Nat.eqb]; field.
Qed.

(** C4 as stated fails: [q_j = exp(log_q_j)] on line 107 is applied to
    [log_q_j] itself; for the context with components at [-1] and [1]
    and [z = 0] both of its arguments are [-0.5], so they are not
    exponents from which their maximum was subtracted. *)
Lemma exponential_not_relative_to_max :
  exists L,
    backward_run gx_ctx gx_g = Some L /\
    q_j L = T.exp (log_q_j L) /\
    ~ relative_to_max 1 (fun j => tdata (log_q_j L) [0; j]%nat).
Proof.
  destruct (backward_exp_args 1 1 [] [] gx_zero gx_one sc_locsR
              gx_half gx_one gx_ctx gx_g gx_scale_pos gx_pis_pos
              (gx_agrees _ _) (gx_agrees _ _) sc_agrees_locs eq_refl
              (gx_agrees _ _) (gx_agrees _ _))
    as (L & EL & _ & Eqj & _ & Hlq & _).
  exists L. split; [exact EL |]. split; [exact Eqj |].
  intros Hrel. apply relative_to_max_attains_zero in Hrel.
  destruct Hrel as (j & Hj & H0). cbv beta in H0.
  rewrite (Hlq [] j I ltac:(lia)), gx_log_q in H0 by lia.
  injection H0 as H0. lra.
Qed.

(** ** [backward] over a store *)

Lemma bind_none {A B : Type} (k : A -> option B) : bind None k = None.
Proof. reflexivity. Qed.

Lemma value_old (st l : store) (h : ref) (t : tensor num) :
  value st h = Some t -> value (st ++ l) h = Some t.
Proof.
  unfold value. destruct (nth_error st (sid h)) as [x |] eqn:E; [| discriminate].
  intros H. rewrite nth_error_app1 by (apply nth_error_Some; congruence).
  now rewrite E.
Qed.

Lemma value_old_view (st l : store) (h : ref) (t : tensor num)
    (f : tensor num -> option (tensor num)) :
  value st h = Some t ->
  value (st ++ l) (mkRef (sid h) (fun u => x <- vw h u ;; f x)) = f t.
Proof.
  unfold value. cbn [sid vw].
  destruct (nth_error st (sid h)) as [x |] eqn:E; [| discriminate].
  intros H. rewrite nth_error_app1 by (apply nth_error_Some; congruence).
  rewrite E. cbn [bind] in *. now rewrite H.
Qed.

Lemma value_fresh (st l : store) (k : nat)
    (v : tensor num -> option (tensor num)) :
  value (st ++ l) (mkRef (length st + k) v) = (t <- nth_error l k ;; v t).
Proof.
  unfold value. cbn [sid vw].
  rewrite nth_error_app2 by lia.
  replace (length st + k - length st)%nat with k by lia. reflexivity.
Qed.

Lemma value_base_fresh (st l : store) (k : nat) :
  value (st ++ l) (base (length st + k)) = nth_error l k.
Proof.
  unfold base. rewrite value_fresh. now destruct (nth_error l k).
Qed.

Lemma write_fresh (st l : store) (k : nat) (c : tensor num) :
  (k < length l)%nat ->
  S.write (length st + k) c (st ++ l) = Some (tt, st ++ set_at k c l).
Proof.
  intros Hk. unfold S.write. rewrite length_app.
  destruct (Nat.ltb_spec (length st + k) (length st + length l)) as [_ | H];
    [| lia].
  do 2 f_equal. unfold set_at.
  rewrite firstn_app, skipn_app.
  replace (length st + k - length st)%nat with k by lia.
  replace (S (length st + k) - length st)%nat with (S k) by lia.
  rewrite firstn_all2 by lia. rewrite skipn_all2 by lia.
  cbn [app]. now rewrite <- app_assoc.
Qed.

Lemma alloc_fresh (st l : store) (c : tensor num) :
  (length (st ++ l), (st ++ l) ++ [c]) = (length st + length l, st ++ (l ++ [c]))%nat.
Proof. now rewrite length_app, <- app_assoc. Qed.

Lemma store_nil (st : store) : st = st ++ [].
Proof. now rewrite app_nil_r. Qed.

(** Evaluation of the reads of a run [H] of the store program: the
    store is the caller's store followed by an explicit list of the
    storages allocated so far. *)
Ltac compute_nth H :=
  repeat match type of H with
         | context [nth_error ?l ?k] =>
             let r := eval cbn [nth_error] in (nth_error l k) in
             progress change (nth_error l k) with r in H
         end.

Ltac reads H :=
  repeat first
    [ rewrite bind_some in H
    | match goal with
      | Hin : value ?st ?h = Some _ |- _ =>
          first [ rewrite (value_old st _ h _ Hin) in H
                | rewrite (value_old_view st _ h _ _ Hin) in H ]
      end
    | rewrite value_base_fresh in H; compute_nth H
    | rewrite value_fresh in H; compute_nth H
    | match goal with
      | E : ?m = Some _ |- _ =>
          match type of H with context [bind m _] => rewrite E in H end
      end ].

Ltac head_scrut t :=
  lazymatch t with
  | bind ?m _ => head_scrut m
  | _ => t
  end.

(** Case analysis on the operation at the head of the run; a failing
    operation contradicts the success of the run. *)
Ltac settle H :=
  reads H;
  lazymatch type of H with
  | bind ?m0 _ = _ =>
      let m := head_scrut m0 in
      lazymatch m with
      | S.write _ _ _ =>
          rewrite write_fresh in H by (cbn [length]; lia);
          cbn [set_at firstn skipn app] in H; settle H
      | _ => let E := fresh "E" in
             destruct m eqn:E; [| first [discriminate H | congruence]];
             settle H
      end
  | _ => idtac
  end.

Ltac sstep H :=
  unfold sbind at 1 in H;
  lazymatch type of H with
  | bind (S.op2 _ _ _ _) _ = _ => unfold S.op2 at 1 in H
  | bind (S.op1 _ _ _) _ = _ => unfold S.op1 at 1 in H
  | bind (S.map1 _ _ _) _ = _ => unfold S.map1 at 1 in H
  | bind (S.view _ _ _) _ = _ => unfold S.view at 1 in H
  | bind (S.inplace2 _ _ _ _) _ = _ => unfold S.inplace2 at 1 in H
  | bind (S.inplace1 _ _ _) _ = _ => unfold S.inplace1 at 1 in H
  | bind (S.meta _ _ _) _ = _ => unfold S.meta at 1 in H
  end;
  settle H;
  rewrite ?alloc_fresh in H;
  cbn [fst snd length app sid vw base] in H.

(** A run of the store program only appends storages to the caller's
    store, and what it returns is what the function [backward] computes
    from the values of its arguments. *)
Lemma backward_st_sound (st : store) (hz hscale hlocs hlogits hpis hg : ref)
    (z sc ml lg pis g : tensor num) (r : nat * nat * nat) (st' : store) :
  value st hz = Some z -> value st hscale = Some sc ->
  value st hlocs = Some ml -> value st hlogits = Some lg ->
  value st hpis = Some pis -> value st hg = Some g ->
  backward_st hz hscale hlocs hlogits hpis hg st = Some (r, st') ->
  exists l gl gs glg,
    st' = st ++ l /\
    backward (mkSaved z sc ml lg pis) g = Some (gl, gs, glg) /\
    value st' (base (fst (fst r))) = Some gl /\
    value st' (base (snd (fst r))) = Some gs /\
    value st' (base (snd r)) = Some glg.
Proof.
  intros Hz Hscale Hlocs Hlogits Hpis Hg H.
  unfold backward_st in H.
  rewrite (store_nil st) in H.
  repeat sstep H.
  unfold ret in H. injection H as <- <-.
  eexists. eexists. eexists. eexists.
  split; [reflexivity |]. split.
  - unfold backward, backward_run.
    cbn [s_z s_scale s_locs s_logits s_pis]. cbv zeta.
    advance. reflexivity.
  - cbn [fst snd]. unfold base. rewrite !value_fresh.
    repeat split; reflexivity.
Qed.

(** Inversion of a successful run of the function [backward_run]. *)
Ltac pinv H :=
  repeat lazymatch type of H with
         | bind ?m0 _ = Some _ =>
             let m := head_scrut m0 in
             let E := fresh "P" in
             destruct m eqn:E; [| discriminate H];
             rewrite ?bind_some in H
         end.

(** Whenever the function [backward] returns, so does the store
    program. *)
Lemma backward_st_complete (st : store) (hz hscale hlocs hlogits hpis hg : ref)
    (z sc ml lg pis g : tensor num) (res : tensor num * tensor num * tensor num) :
  value st hz = Some z -> value st hscale = Some sc ->
  value st hlocs = Some ml -> value st hlogits = Some lg ->
  value st hpis = Some pis -> value st hg = Some g ->
  backward (mkSaved z sc ml lg pis) g = Some res ->
  exists r st', backward_st hz hscale hlocs hlogits hpis hg st = Some (r, st').
Proof.
  intros Hz Hscale Hlocs Hlogits Hpis Hg HP.
  unfold backward in HP.
  destruct (backward_run (mkSaved z sc ml lg pis) g) as [L |] eqn:HL;
    [clear HP | discriminate HP].
  unfold backward_run in HL.
  cbn [s_z s_scale s_locs s_logits s_pis] in HL. cbv zeta in HL.
  pinv HL. clear HL.
  destruct (backward_st hz hscale hlocs hlogits hpis hg st) as [[r st'] |] eqn:H;
    [eauto |].
  exfalso. unfold backward_st in H.
  rewrite (store_nil st) in H.
  repeat sstep H.
  discriminate H.
Qed.

(** C9: a run of [backward] leaves every storage of the caller's store
    as it was, so the saved tensors and the upstream gradient keep
    their values (the in-place updates write storages allocated during
    the run); what it returns is the value of the function [backward]
    at the values of its arguments, and a second run on the same
    arguments returns the same three gradients. *)
Theorem backward_is_pure (st : store) (hz hscale hlocs hlogits hpis hg : ref)
    (z sc ml lg pis g : tensor num) (r : nat * nat * nat) (st' : store) :
  value st hz = Some z -> value st hscale = Some sc ->
  value st hlocs = Some ml -> value st hlogits = Some lg ->
  value st hpis = Some pis -> value st hg = Some g ->
  backward_st hz hscale hlocs hlogits hpis hg st = Some (r, st') ->
  (forall n, (n < length st)%nat -> nth_error st' n = nth_error st n) /\
  (value st' hz = Some z /\ value st' hscale = Some sc /\
   value st' hlocs = Some ml /\ value st' hlogits = Some lg /\
   value st' hpis = Some pis /\ value st' hg = Some g) /\
  exists gl gs glg r2 st'',
    backward (mkSaved z sc ml lg pis) g = Some (gl, gs, glg) /\
    value st' (base (fst (fst r))) = Some gl /\
    value st' (base (snd (fst r))) = Some gs /\
    value st' (base (snd r)) = Some glg /\
    backward_st hz hscale hlocs hlogits hpis hg st' = Some (r2, st'') /\
    value st'' (base (fst (fst r2))) = Some gl /\
    value st'' (base (snd (fst r2))) = Some gs /\
    value st'' (base (snd r2)) = Some glg.
Proof.
  intros Hz Hscale Hlocs Hlogits Hpis Hg H.
  destruct (backward_st_sound st hz hscale hlocs hlogits hpis hg z sc ml lg pis g
              r st' Hz Hscale Hlocs Hlogits Hpis Hg H)
    as (l & gl & gs & glg & -> & HP & V1 & V2 & V3).
  assert (Hz' := value_old st l hz z Hz).
  assert (Hscale' := value_old st l hscale sc Hscale).
  assert (Hlocs' := value_old st l hlocs ml Hlocs).
  assert (Hlogits' := value_old st l hlogits lg Hlogits).
  assert (Hpis' := value_old st l hpis pis Hpis).
  assert (Hg' := value_old st l hg g Hg).
  split; [| split].
  - intros n Hn. now apply nth_error_app1.
  - repeat split; assumption.
  - destruct (backward_st_complete (st ++ l) hz hscale hlocs hlogits hpis hg
                z sc ml lg pis g (gl, gs, glg)
                Hz' Hscale' Hlocs' Hlogits' Hpis' Hg' HP)
      as (r2 & st'' & H2).
    destruct (backward_st_sound (st ++ l) hz hscale hlocs hlogits hpis hg
                z sc ml lg pis g r2 st'' Hz' Hscale' Hlocs' Hlogits' Hpis' Hg' H2)
      as (l2 & gl2 & gs2 & glg2 & E2 & HP2 & W1 & W2 & W3).
    rewrite HP in HP2. injection HP2 as <- <- <-.
    exists gl, gs, glg, r2, st''. repeat split; assumption.
Qed.

(** The context with components at [-1] and [1], in a store. *)
Definition gx_store : store :=
  [s_z gx_ctx; s_scale gx_ctx; s_locs gx_ctx; s_logits gx_ctx; s_pis gx_ctx; gx_g].

Lemma gx_backward_some : exists res, backward gx_ctx gx_g = Some res.
Proof.
  destruct (backward_locs_scale 1 1 [] [] gx_zero gx_one sc_locsR gx_half gx_one
              gx_ctx gx_g gx_scale_pos gx_pis_pos
              (gx_agrees _ _) (gx_agrees _ _) sc_agrees_locs eq_refl
              (gx_agrees _ _) (gx_agrees _ _))
    as (gl & gs & glg & E & _).
  eauto.
Qed.

Lemma backward_is_pure_witness :
  exists r st',
    backward_st (base 0) (base 1) (base 2) (base 3) (base 4) (base 5) gx_store
    = Some (r, st') /\
    (forall n, (n < length gx_store)%nat ->
               nth_error st' n = nth_error gx_store n) /\
    value st' (base 0) = Some (s_z gx_ctx) /\
    value st' (base 5) = Some gx_g.
Proof.
  destruct gx_backward_some as [res Hres].
  destruct (backward_st_complete gx_store (base 0) (base 1) (base 2) (base 3)
              (base 4) (base 5) _ _ _ _ _ _ res
              eq_refl eq_refl eq_refl eq_refl eq_refl eq_refl Hres)
    as (r & st' & H).
  exists r, st'. split; [exact H |].
  destruct (backward_is_pure gx_store (base 0) (base 1) (base 2) (base 3)
              (base 4) (base 5) _ _ _ _ _ _ r st'
              eq_refl eq_refl eq_refl eq_refl eq_refl eq_refl H)
    as (Hframe & (Hz & _ & _ & _ & _ & Hg) & _).
  split; [exact Hframe |]. split; [exact Hz | exact Hg].
Defined.

(** * Further properties *)

(** ** [forward] and [rsample]: the sample returned *)

Lemma all_indices_in_range (s : shape) (i : index) :
  In i (all_indices s) <-> in_range s i.
Proof.
  revert i; induction s as [| n s IH]; intros i; simpl.
  - split.
    + intros [<- | []]. exact I.
    + destruct i; [auto | tauto].
  - rewrite in_flat_map. split.
    + intros (j & Hj & Hin). apply in_map_iff in Hin.
      destruct Hin as (k & <- & Hk). apply in_seq in Hk. simpl.
      split; [lia | now apply IH].
    + destruct i as [| k j]; [tauto |]. intros [Hk Hj].
      exists j. split; [now apply IH |]. apply in_map_iff. exists k.
      split; [reflexivity | apply in_seq; lia].
Qed.

Lemma gather_sizes_ok_refl (p k : nat) (s : shape) :
  T.gather_sizes_ok p k s s = true.
Proof.
  revert k; induction s as [| a s IH]; intros k; simpl; [reflexivity |].
  rewrite Nat.leb_refl, Bool.orb_true_r, IH. reflexivity.
Qed.

Section GatherSpecs.

Context {A : Type}.

(** [torch.gather] along axis [-2] with an index tensor that has the
    source's sizes off that axis. *)
Lemma gather_ok (t : tensor A) (idx : tensor nat) (a n m : nat) (r : shape)
    (ft : index -> A) (fi : index -> nat) :
  agrees t (a :: n :: r) ft -> agrees idx (a :: m :: r) fi ->
  (forall i, in_range (a :: m :: r) i -> (fi i < n)%nat) ->
  exists g, T.gather 1 t idx = Some g /\
            agrees g (a :: m :: r) (fun i => ft (set_at 1 (fi i) i)).
Proof.
  intros [Hts Htd] [Hxs Hxd] Hlt. unfold T.gather. rewrite Hts, Hxs.
  cbn [nth_error bind T.gather_sizes_ok Nat.eqb orb andb].
  rewrite Nat.leb_refl, gather_sizes_ok_refl. cbn [andb].
  replace (forallb _ _) with true.
  - eexists. split; [reflexivity |]. split; [reflexivity |].
    intros i Hi. cbn [tdata]. rewrite (Hxd i Hi).
    apply Htd. specialize (Hlt i Hi). dest_idx i Hi.
    unfold set_at. cbn [firstn skipn app]. simpl. tauto.
  - symmetry. apply forallb_forall. intros i Hi.
    apply all_indices_in_range in Hi. rewrite (Hxd i Hi).
    apply Nat.ltb_lt. now apply Hlt.
Qed.

(** An entry of the index tensor outside the gathered axis makes
    [torch.gather] raise. *)
Lemma gather_out_of_range (t : tensor A) (idx : tensor nat) (p n : nat)
    (s : shape) (fi : index -> nat) (i : index) :
  nth_error (tshape t) p = Some n -> agrees idx s fi ->
  in_range s i -> (n <= fi i)%nat ->
  T.gather p t idx = None.
Proof.
  intros Hn [Hxs Hxd] Hi Hge. unfold T.gather. rewrite Hn. cbn [bind].
  destruct (forallb _ _) eqn:E; [| now rewrite Bool.andb_false_r].
  exfalso. rewrite forallb_forall in E.
  specialize (E i). rewrite Hxs in E.
  specialize (E (proj2 (all_indices_in_range s i) Hi)).
  apply Nat.ltb_lt in E. rewrite (Hxd i Hi) in E. lia.
Qed.

(** [squeeze] of an axis of size 1. *)
Lemma squeeze_ok (p : nat) (a : tensor A) (s : shape) (fa : index -> A) :
  agrees a s fa -> nth_error s p = Some 1%nat ->
  exists c, T.squeeze p a = Some c /\
            agrees c (remove_at p s) (fun i => fa (insert_at p 0%nat i)).
Proof.
  intros [Hs Hd] Hn. unfold T.squeeze. rewrite Hs, Hn. cbn [Nat.eqb].
  eexists. split; [reflexivity |]. split; [reflexivity |].
  intros i Hi. cbn [tdata]. apply Hd.
  apply (in_range_insert p 1); [exact Hn | lia | exact Hi].
Qed.

(** [squeeze] of an axis of another size returns its argument. *)
Lemma squeeze_id (p n : nat) (a : tensor A) :
  nth_error (tshape a) p = Some n -> n <> 1%nat -> T.squeeze p a = Some a.
Proof.
  intros Hn Hne. unfold T.squeeze. rewrite Hn.
  destruct (Nat.eqb_spec n 1); [contradiction | reflexivity].
Qed.

Lemma expandable_in_range (s t : shape) (i : index) :
  expandable s t = true -> in_range t i -> in_range s (bidx s i).
Proof.
  revert t i; induction s as [| a s IH]; intros t i; simpl; [auto |].
  destruct t as [| b t]; [discriminate |].
  intros H. apply Bool.andb_true_iff in H. destruct H as [Hab Hst].
  destruct i as [| k i]; simpl; [tauto |]. intros [Hk Hi].
  split; [| now apply (IH t)].
  apply Bool.orb_true_iff in Hab.
  destruct (Nat.eqb_spec a 1) as [-> | Hne]; [lia |].
  destruct Hab as [Hab | Hab]; [| discriminate].
  apply Nat.eqb_eq in Hab. lia.
Qed.

Lemma expand_ok (a : tensor A) (s t : shape) (fa : index -> A) :
  agrees a s fa -> expandable s t = true ->
  exists c, T.expand a t = Some c /\ agrees c t (fun i => fa (bidx s i)).
Proof.
  intros [Hs Hd] He. unfold T.expand. rewrite Hs, He.
  eexists. split; [reflexivity |]. split; [reflexivity |].
  intros i Hi. cbn [tdata]. unfold tget. rewrite Hs. apply Hd.
  now apply (expandable_in_range s t).
Qed.

End GatherSpecs.

Lemma expandable_refl (s : shape) : expandable s s = true.
Proof.
  induction s as [| a s IH]; simpl; [reflexivity |].
  now rewrite Nat.eqb_refl, IH.
Qed.

Lemma forallb_false_witness {A : Type} (f : A -> bool) (l : list A) :
  forallb f l = false -> exists x, In x l /\ f x = false.
Proof.
  induction l as [| a l IH]; simpl; [discriminate |].
  destruct (f a) eqn:E; simpl.
  - intros H. destruct (IH H) as (x & Hx & Hf). exists x. auto.
  - intros _. exists a. auto.
Qed.

(** The sample [z[l,b,:] = locs[b, which[l,b], :] + scale[b,:] *
    white[l,b,:]], read at the index [x :: r] of [z], where [r] holds
    the batch axes followed by the sample axes. *)
Definition sample_val (bs : shape) (fl fs fn : index -> num)
    (fw : index -> nat) (i : index) : num :=
  Num.add (fl (ax 0 i :: fw (rest 1 i) :: bidx bs (rest 1 i)))
          (Num.mul (fs (ax 0 i :: bidx bs (rest 1 i))) (fn i)).

Section ForwardSpec.

Variables (D K : nat).
Variables (fl fs fn : index -> num) (fw : index -> nat).
Variables (ml sc lg pis : tensor num) (which : tensor nat).

(** No sample axis, any batch shape. *)
Lemma forward_no_sample_axis (bs : shape) :
  agrees ml (D :: K :: bs) fl -> agrees sc (D :: bs) fs ->
  agrees which bs fw ->
  (forall b, in_range bs b -> (fw b < K)%nat) ->
  exists z, forward ml sc lg pis which (D :: bs) fn
            = Some (z, mkSaved z sc ml lg pis) /\
            agrees z (D :: bs) (sample_val bs fl fs fn fw).
Proof.
  intros Hml Hsc Hw Hlt. unfold forward, size, rank.
  rewrite (agrees_shape _ _ _ Hsc), (agrees_shape _ _ _ Hml),
    (agrees_shape _ _ _ Hw).
  cbn [nth_error bind length].
  replace (S (S (length bs)) - length bs)%nat with 2%nat by lia.
  cbn [unsqueeze_loop].
  step (unsqueeze_ok 0 _ _ _ Hw) w1; [lia |].
  step (unsqueeze_ok 0 _ _ _ Hw1) w2; [simpl; lia |].
  rewrite (agrees_shape _ _ _ Hw2). cbn [tl].
  step (expand_ok _ _ (D :: 1%nat :: bs) _ Hw2) idx.
  { cbn [expandable Nat.eqb]. rewrite expandable_refl.
    now rewrite Bool.orb_true_r. }
  clean Hidx (fun i : index => fw (rest 2 i)).
  step (gather_ok _ _ _ _ _ _ _ _ Hml Hidx) gt.
  { intros i Hi. dest_idx i Hi. unfold rest. cbn [skipn]. now apply Hlt. }
  step (squeeze_ok 1 _ _ _ Hgt eq_refl) loc.
  pose proof (agrees_self (D :: bs) fn) as Hwhite.
  step (bop_ok Num.mul _ _ _ _ (D :: bs) _ _ Hsc Hwhite) sw; [shape_tac |].
  step (bop_ok Num.add _ _ _ _ (D :: bs) _ _ Hloc Hsw) z; [shape_tac |].
  exists z. split; [reflexivity |].
  apply (agrees_ext _ _ _ _ Hz). intros i Hi. dest_idx i Hi.
  unfold sample_val. idx_norm. reflexivity.
Qed.

(** One sample axis, no batch axis. *)
Lemma forward_sample_axis_no_batch (L : nat) :
  agrees ml [D; K] fl -> agrees sc [D] fs -> agrees which [L] fw ->
  (forall l, (l < L)%nat -> (fw [l] < K)%nat) ->
  exists z, forward ml sc lg pis which [D; L] fn
            = Some (z, mkSaved z sc ml lg pis) /\
            agrees z [D; L] (sample_val [] fl fs fn fw).
Proof.
  intros Hml Hsc Hw Hlt. unfold forward, size, rank.
  rewrite (agrees_shape _ _ _ Hsc), (agrees_shape _ _ _ Hml),
    (agrees_shape _ _ _ Hw).
  cbn [nth_error bind length Nat.sub unsqueeze_loop].
  step (unsqueeze_ok 0 _ _ _ Hw) w1; [simpl; lia |].
  rewrite (agrees_shape _ _ _ Hw1). cbn [tl].
  step (expand_ok _ _ [D; L] _ Hw1) idx.
  { cbn [expandable Nat.eqb]. rewrite Nat.eqb_refl.
    now rewrite Bool.orb_true_r. }
  clean Hidx (fun i : index => fw (rest 1 i)).
  step (gather_ok _ _ _ _ _ _ _ _ Hml Hidx) gt.
  { intros i Hi. dest_idx i Hi. destruct i; [| simpl in Hi; tauto].
    unfold rest. cbn [skipn]. now apply Hlt. }
  pose proof (agrees_self [D; L] fn) as Hwhite.
  destruct (Nat.eq_dec L 1) as [-> | HL].
  - step (squeeze_ok 1 _ _ _ Hgt eq_refl) loc.
    step (bop_ok Num.mul _ _ _ _ [D; 1%nat] _ _ Hsc Hwhite) sw; [shape_tac |].
    step (bop_ok Num.add _ _ _ _ [D; 1%nat] _ _ Hloc Hsw) z; [shape_tac |].
    exists z. split; [reflexivity |].
    apply (agrees_ext _ _ _ _ Hz). intros i Hi. dest_idx i Hi.
    destruct i; [| simpl in Hi; tauto].
    unfold sample_val. idx_norm. cbn [bidx].
    replace k0 with 0%nat by lia. reflexivity.
  - rewrite (squeeze_id 1 L gt) by
      (first [exact HL | rewrite (agrees_shape _ _ _ Hgt); reflexivity]).
    advance.
    step (bop_ok Num.mul _ _ _ _ [D; L] _ _ Hsc Hwhite) sw; [shape_tac |].
    step (bop_ok Num.add _ _ _ _ [D; L] _ _ Hgt Hsw) z; [shape_tac |].
    exists z. split; [reflexivity |].
    apply (agrees_ext _ _ _ _ Hz). intros i Hi. dest_idx i Hi.
    destruct i; [| simpl in Hi; tauto].
    unfold sample_val. idx_norm. cbn [bidx]. reflexivity.
Qed.

End ForwardSpec.

Lemma agrees_of_shape {A : Type} (t : tensor A) (s : shape) :
  tshape t = s -> agrees t s (tdata t).
Proof. intros <-. apply agrees_refl. Qed.

Lemma init_batch_shape (D K : nat) (bs : shape) (ml sc lg : tensor num)
    (d : dist) :
  tshape ml = D :: K :: bs -> init ml sc lg = Some d ->
  batch_shape d = bs /\ event_shape d = [D].
Proof.
  intros Hs Hd.
  destruct (init_fields _ _ _ _ Hd) as (_ & Hb & HD & He & _).
  unfold size in HD. rewrite Hs in HD. cbn in HD. injection HD as HD.
  rewrite Hb, He, <- HD. unfold spec_batch_shape, rank. rewrite Hs.
  split; [| reflexivity].
  destruct bs; reflexivity.
Qed.

(** X1: for a distribution built by the constructor from [locs] of
    shape [(batch..., K, D)], [scale] of shape [(batch..., D)] and
    [logits] of shape [(batch..., K)], with any batch shape, [rsample]
    with the default empty sample shape returns, for valid component
    indices, a sample of shape [batch_shape + event_shape] with
    [z[b,:] = locs[b, which[b], :] + scale[b,:] * white[b,:]], and saves
    [(z, scale, locs, logits, probs)] for [backward]. *)
Theorem rsample_no_sample_axis (D K : nat) (bs : shape)
    (ml sc lg : tensor num) (d : dist)
    (which_data : index -> nat) (noise : index -> num) :
  tshape ml = D :: K :: bs -> tshape sc = D :: bs -> tshape lg = K :: bs ->
  init ml sc lg = Some d ->
  (forall b, in_range bs b -> (which_data b < K)%nat) ->
  exists z,
    rsample d [] which_data noise = Some (z, mkSaved z sc ml lg (probs d)) /\
    tshape z = event_shape d ++ batch_shape d /\
    forall b x, in_range bs b -> (x < D)%nat ->
      tdata z (x :: b)
      = Num.add (tdata ml (x :: which_data b :: b))
                (Num.mul (tdata sc (x :: b)) (noise (x :: b))).
Proof.
  intros Hml Hsc Hlg Hd Hlt.
  destruct (init_batch_shape _ _ _ _ _ _ _ Hml Hd) as [Hb He].
  destruct (init_fields _ _ _ _ Hd) as (_ & _ & _ & _ & El & Es & Eg & _).
  unfold rsample. rewrite El, Es, Eg, Hsc, Hlg. cbn [tl].
  rewrite !app_nil_r.
  destruct (forward_no_sample_axis D K (tdata ml) (tdata sc) noise which_data
              ml sc lg (probs d) (mkT bs which_data) bs
              (agrees_of_shape _ _ Hml) (agrees_of_shape _ _ Hsc)
              (agrees_self _ _) Hlt) as (z & Ez & Hz).
  exists z. split; [exact Ez |].
  split; [rewrite He, Hb; exact (agrees_shape _ _ _ Hz) |].
  intros b x Hb' Hx.
  rewrite (agrees_data _ _ _ (x :: b) Hz) by (simpl; tauto).
  unfold sample_val. idx_norm. reflexivity.
Qed.

Lemma rsample_no_sample_axis_witness :
  exists d z,
    init sc_locs sc_scale sc_logits = Some d /\
    rsample d [] (fun _ => 1%nat) (fun _ => Fin 0)
    = Some (z, mkSaved z sc_scale sc_locs sc_logits (probs d)) /\
    tdata z [0%nat]
    = Num.add (tdata sc_locs [0; 1]%nat)
              (Num.mul (tdata sc_scale [0%nat]) (Fin 0)).
Proof.
  destruct sc_init as [d Hd]. exists d.
  destruct (rsample_no_sample_axis 1 2 [] sc_locs sc_scale sc_logits d
              (fun _ => 1%nat) (fun _ => Fin 0)
              eq_refl eq_refl eq_refl Hd
              (fun _ _ => Nat.lt_succ_diag_r 1)) as (z & Ez & _ & Hz).
  exists z. split; [exact Hd |]. split; [exact Ez |].
  exact (Hz [] 0%nat I Nat.lt_0_1).
Defined.

(** X2: without batch axes, [rsample] with a sample shape [(L,)]
    returns a sample of shape [(L, D)] with
    [z[l,:] = locs[which[l], :] + scale * white[l,:]]. *)
Theorem rsample_sample_axis_no_batch (D K L : nat)
    (ml sc lg : tensor num) (d : dist)
    (which_data : index -> nat) (noise : index -> num) :
  tshape ml = [D; K] -> tshape sc = [D] -> tshape lg = [K] ->
  init ml sc lg = Some d ->
  (forall l, (l < L)%nat -> (which_data [l] < K)%nat) ->
  exists z,
    rsample d [L] which_data noise = Some (z, mkSaved z sc ml lg (probs d)) /\
    tshape z = [D; L] /\
    forall l x, (l < L)%nat -> (x < D)%nat ->
      tdata z [x; l]
      = Num.add (tdata ml [x; which_data [l]])
                (Num.mul (tdata sc [x]) (noise [x; l])).
Proof.
  intros Hml Hsc Hlg Hd Hlt.
  destruct (init_fields _ _ _ _ Hd) as (_ & _ & _ & _ & El & Es & Eg & _).
  unfold rsample. rewrite El, Es, Eg, Hsc, Hlg. cbn [tl app].
  destruct (forward_sample_axis_no_batch D K (tdata ml) (tdata sc) noise
              which_data ml sc lg (probs d) (mkT [L] which_data) L
              (agrees_of_shape _ _ Hml) (agrees_of_shape _ _ Hsc)
              (agrees_self _ _) Hlt) as (z & Ez & Hz).
  exists z. split; [exact Ez |].
  split; [exact (agrees_shape _ _ _ Hz) |].
  intros l x Hl Hx.
  rewrite (agrees_data _ _ _ [x; l] Hz) by (simpl; tauto).
  unfold sample_val. idx_norm. reflexivity.
Qed.

Lemma rsample_sample_axis_no_batch_witness :
  exists d z,
    init sc_locs sc_scale sc_logits = Some d /\
    rsample d [3%nat] (fun i => Nat.modulo (hd 0%nat i) 2) (fun _ => Fin 0)
    = Some (z, mkSaved z sc_scale sc_locs sc_logits (probs d)) /\
    tshape z = [1; 3]%nat.
Proof.
  destruct sc_init as [d Hd]. exists d.
  destruct (rsample_sample_axis_no_batch 1 2 3 sc_locs sc_scale sc_logits d
              (fun i => Nat.modulo (hd 0%nat i) 2) (fun _ => Fin 0)
              eq_refl eq_refl eq_refl Hd
              (fun l _ => Nat.mod_upper_bound l 2 (Nat.neq_succ_0 1)))
    as (z & Ez & Hs & _).
  exists z. split; [exact Hd |]. split; [exact Ez | exact Hs].
Defined.

(** X3: [forward] without a sample axis raises exactly when some entry
    of [which] is not a valid component index: [torch.gather] is the
    only operation of [forward] that inspects the indices. *)
Theorem forward_raises_iff_index_out_of_range (D K : nat) (bs : shape)
    (ml sc lg pis : tensor num) (which : tensor nat) (noise : index -> num) :
  tshape ml = D :: K :: bs -> tshape sc = D :: bs -> tshape which = bs ->
  (0 < D)%nat ->
  (forward ml sc lg pis which (D :: bs) noise = None <->
   exists b, in_range bs b /\ (K <= tdata which b)%nat).
Proof.
  intros Hml Hsc Hw HD. split.
  - intros Hnone.
    destruct (forallb (fun b => (tdata which b <? K)%nat) (all_indices bs))
      eqn:E.
    + exfalso. rewrite forallb_forall in E.
      destruct (forward_no_sample_axis D K (tdata ml) (tdata sc) noise
                  (tdata which) ml sc lg pis which bs
                  (agrees_of_shape _ _ Hml) (agrees_of_shape _ _ Hsc)
                  (agrees_of_shape _ _ Hw)) as (z & Ez & _).
      { intros b Hb. apply Nat.ltb_lt, E. now apply all_indices_in_range. }
      congruence.
    + destruct (forallb_false_witness _ _ E) as (b & Hb & Hf).
      exists b. split; [now apply all_indices_in_range |].
      now apply Nat.ltb_ge.
  - intros (b & Hb & Hge).
    pose proof (agrees_of_shape _ _ Hw) as Hwa.
    unfold forward, size, rank. rewrite Hsc, Hml, Hw.
    cbn [nth_error bind length].
    replace (S (S (length bs)) - length bs)%nat with 2%nat by lia.
    cbn [unsqueeze_loop].
    step (unsqueeze_ok 0 _ _ _ Hwa) w1; [lia |].
    step (unsqueeze_ok 0 _ _ _ Hw1) w2; [simpl; lia |].
    rewrite (agrees_shape _ _ _ Hw2). cbn [tl].
    step (expand_ok _ _ (D :: 1%nat :: bs) _ Hw2) idx.
    { cbn [expandable Nat.eqb]. rewrite expandable_refl.
      now rewrite Bool.orb_true_r. }
    clean Hidx (fun i : index => tdata which (rest 2 i)).
    rewrite (gather_out_of_range ml idx 1 K _ _ (0%nat :: 0%nat :: b)
               ltac:(now rewrite Hml) Hidx).
    + reflexivity.
    + simpl. auto.
    + exact Hge.
Qed.

Definition bad_which : tensor nat := mkT [] (fun _ => 2%nat).

Lemma forward_raises_iff_index_out_of_range_witness :
  forward sc_locs sc_scale sc_logits sc_logits bad_which [1%nat]
          (fun _ => Fin 0) = None <->
  exists b, in_range [] b /\ (2 <= tdata bad_which b)%nat.
Proof.
  exact (forward_raises_iff_index_out_of_range 1 2 [] sc_locs sc_scale
           sc_logits sc_logits bad_which (fun _ => Fin 0)
           eq_refl eq_refl eq_refl Nat.lt_0_1).
Defined.

(** ** [rsample] in batch mode with a sample axis *)

Section GatherNarrow.

Context {A : Type}.

(** [torch.gather] along axis [-2] of a source of shape [(B, n, a)]
    with indices of shape [(L, m, a)], [L <= B]. *)
Lemma gather_ok_narrow (t : tensor A) (idx : tensor nat) (a n m B L : nat)
    (ft : index -> A) (fi : index -> nat) :
  agrees t [a; n; B] ft -> agrees idx [a; m; L] fi -> (L <= B)%nat ->
  (forall i, in_range [a; m; L] i -> (fi i < n)%nat) ->
  exists g, T.gather 1 t idx = Some g /\
            agrees g [a; m; L] (fun i => ft (set_at 1 (fi i) i)).
Proof.
  intros [Hts Htd] [Hxs Hxd] HLB Hlt. unfold T.gather. rewrite Hts, Hxs.
  cbn [nth_error bind T.gather_sizes_ok Nat.eqb orb andb].
  rewrite Nat.leb_refl. cbn [andb].
  destruct (Nat.leb_spec L B) as [_ | H]; [| lia]. cbn [andb].
  replace (forallb _ _) with true.
  - eexists. split; [reflexivity |]. split; [reflexivity |].
    intros i Hi. cbn [tdata]. rewrite (Hxd i Hi).
    apply Htd. specialize (Hlt i Hi). dest_idx i Hi.
    destruct i; [| simpl in Hi; tauto].
    unfold set_at. cbn [firstn skipn app]. simpl. repeat split; lia.
  - symmetry. apply forallb_forall. intros i Hi.
    apply all_indices_in_range in Hi. rewrite (Hxd i Hi).
    apply Nat.ltb_lt. now apply Hlt.
Qed.

(** More draws than batch elements: the size check of [torch.gather]
    fails. *)
Lemma gather_too_wide (t : tensor A) (idx : tensor nat) (a n m B L : nat) :
  tshape t = [a; n; B] -> tshape idx = [a; m; L] -> (B < L)%nat ->
  T.gather 1 t idx = None.
Proof.
  intros Hts Hxs HBL. unfold T.gather. rewrite Hts, Hxs.
  cbn [nth_error bind T.gather_sizes_ok Nat.eqb orb andb].
  destruct (Nat.leb_spec L B) as [H | _]; [lia |].
  now rewrite Bool.andb_false_r.
Qed.

End GatherNarrow.

(** X12: [rsample] in batch mode with one batch axis of size [B > 1]
    and a sample shape [(L,)].  [which] is unsqueezed once and expanded
    to [(L, B, D)], so that [torch.gather] along axis [-2] reads the
    leading axis of [locs], the batch axis, at the draw's position:
    for [L > B] the call raises, and for [L <= B] the sample is
    [z[l,b,:] = locs[l, which[l,b], :] + scale[b,:] * white[l,b,:]],
    the mean being taken from batch element [l], not [b]. *)
Theorem rsample_batch_mode_sample_axis (D K B L : nat)
    (ml sc lg : tensor num) (d : dist)
    (which_data : index -> nat) (noise : index -> num) :
  tshape ml = [D; K; B] -> tshape sc = [D; B] -> tshape lg = [K; B] ->
  init ml sc lg = Some d ->
  (1 < B)%nat ->
  ((B < L)%nat -> rsample d [L] which_data noise = None) /\
  ((L <= B)%nat ->
   (forall b l, (b < B)%nat -> (l < L)%nat -> (which_data [b; l] < K)%nat) ->
   exists z,
     rsample d [L] which_data noise = Some (z, mkSaved z sc ml lg (probs d)) /\
     tshape z = [D; B; L] /\
     forall x b l, (x < D)%nat -> (b < B)%nat -> (l < L)%nat ->
       tdata z [x; b; l]
       = Num.add (tdata ml [x; which_data [b; l]; l])
                 (Num.mul (tdata sc [x; b]) (noise [x; b; l]))).
Proof.
  intros Hml Hsc Hlg Hd HB.
  destruct (init_fields _ _ _ _ Hd) as (_ & _ & _ & _ & El & Es & Eg & _).
  pose proof (agrees_of_shape _ _ Hml) as Hmla.
  pose proof (agrees_of_shape _ _ Hsc) as Hsca.
  pose proof (agrees_self [B; L] which_data) as Hw.
  unfold rsample, forward, size, rank. rewrite El, Es, Eg, Hsc, Hlg, Hml.
  cbn [tshape tl app nth_error bind length Nat.sub unsqueeze_loop].
  step (unsqueeze_ok 0 _ _ _ Hw) w1; [simpl; lia |].
  rewrite (agrees_shape _ _ _ Hw1). cbn [tl].
  step (expand_ok _ _ [D; B; L] _ Hw1) idx.
  { cbn [expandable Nat.eqb]. rewrite !Nat.eqb_refl.
    now rewrite Bool.orb_true_r. }
  clean Hidx (fun i : index => which_data (rest 1 i)).
  split.
  - intros HBL.
    rewrite (gather_too_wide ml idx D K B B L Hml (agrees_shape _ _ _ Hidx) HBL).
    reflexivity.
  - intros HLB Hlt.
    step (gather_ok_narrow _ _ _ _ _ _ _ _ _ Hmla Hidx HLB) gt.
    { intros i Hi. dest_idx i Hi. destruct i; [| simpl in Hi; tauto].
      unfold rest. cbn [skipn]. now apply Hlt. }
    rewrite (squeeze_id 1 B gt) by
      (first [lia | rewrite (agrees_shape _ _ _ Hgt); reflexivity]).
    advance.
    pose proof (agrees_self [D; B; L] noise) as Hwhite.
    step (bop_ok Num.mul _ _ _ _ [D; B; L] _ _ Hsca Hwhite) sw; [shape_tac |].
    step (bop_ok Num.add _ _ _ _ [D; B; L] _ _ Hgt Hsw) z; [shape_tac |].
    exists z. split; [reflexivity |].
    split; [exact (agrees_shape _ _ _ Hz) |].
    intros x b l Hx Hb Hl.
    rewrite (agrees_data _ _ _ [x; b; l] Hz) by (simpl; tauto).
    idx_norm. cbn [bidx]. reflexivity.
Qed.

Lemma rsample_batch_mode_sample_axis_witness :
  exists d z,
    init fi_locs fi_scale fi_logits = Some d /\
    rsample d [2%nat] fi_which_data fi_noise
    = Some (z, mkSaved z fi_scale fi_locs fi_logits (probs d)) /\
    tdata z [0; 1; 0]%nat
    = Num.add (tdata fi_locs [0; fi_which_data [1; 0]; 0]%nat)
              (Num.mul (tdata fi_scale [0; 1]%nat) (fi_noise [0; 1; 0]%nat)).
Proof.
  assert (Hd : exists d, init fi_locs fi_scale fi_logits = Some d)
    by (eexists; reflexivity).
  destruct Hd as [d Hd]. exists d.
  destruct (proj2 (rsample_batch_mode_sample_axis 1 1 2 2
                     fi_locs fi_scale fi_logits d fi_which_data fi_noise
                     eq_refl eq_refl eq_refl Hd (Nat.lt_succ_diag_r 1))
              (Nat.le_refl 2) (fun _ _ _ _ => Nat.lt_0_1))
    as (z & Ez & _ & Hz).
  exists z. split; [exact Hd |]. split; [exact Ez |].
  exact (Hz 0%nat 1%nat 0%nat Nat.lt_0_1 (Nat.lt_succ_diag_r 1) Nat.lt_0_2).
Defined.

(** ** The error function is odd *)

Definition gauss_int (x : R) : R := RiemannInt (gauss_integrable 0 x).

Lemma gauss_int_0 : gauss_int 0 = 0.
Proof. unfold gauss_int. apply RiemannInt_P9. Qed.

(** The integral of [gauss] from 0 is a primitive of [gauss]. *)
Lemma gauss_int_derive (x : R) : derivable_pt_lim gauss_int x (gauss x).
Proof.
  set (a := Rmin 0 x - 1). set (b := Rmax 0 x + 1).
  assert (Ha0 : a < 0) by (unfold a; pose proof (Rmin_l 0 x); lra).
  assert (Hax : a < x) by (unfold a; pose proof (Rmin_r 0 x); lra).
  assert (Hxb : x < b) by (unfold b; pose proof (Rmax_r 0 x); lra).
  assert (Hab : a <= b) by lra.
  pose (C0 := fun (y : R) (_ : a <= y <= b) => gauss_continuous y).
  pose proof (@RiemannInt_P27 gauss a b x Hab C0 (conj Hax Hxb)) as HP.
  assert (Heq : forall y, a <= y <= b ->
            primitive Hab (FTC_P1 Hab C0) y
            = RiemannInt (gauss_integrable a 0) + gauss_int y).
  { intros y [H1 H2]. unfold primitive.
    destruct (Rle_dec a y) as [r | n]; [| lra].
    destruct (Rle_dec y b) as [r0 | n]; [| lra].
    unfold gauss_int. symmetry. apply RiemannInt_P26. }
  intros eps Heps. destruct (HP eps Heps) as [delta Hd].
  assert (Hm : 0 < Rmin delta (Rmin (x - a) (b - x))).
  { apply Rmin_pos; [apply cond_pos | apply Rmin_pos; lra]. }
  exists (mkposreal _ Hm). intros h Hh Hlt. simpl in Hlt.
  assert (H1 : Rabs h < delta)
    by (eapply Rlt_le_trans; [exact Hlt | apply Rmin_l]).
  assert (H2 : Rabs h < x - a).
  { eapply Rlt_le_trans; [exact Hlt |].
    eapply Rle_trans; [apply Rmin_r | apply Rmin_l]. }
  assert (H3 : Rabs h < b - x).
  { eapply Rlt_le_trans; [exact Hlt |].
    eapply Rle_trans; [apply Rmin_r | apply Rmin_r]. }
  assert (H4 : a <= x + h <= b).
  { pose proof (Rle_abs h). pose proof (Rle_abs (- h)).
    rewrite Rabs_Ropp in *. lra. }
  specialize (Hd h Hh H1). rewrite !Heq in Hd by lra.
  replace (RiemannInt (gauss_integrable a 0) + gauss_int (x + h)
           - (RiemannInt (gauss_integrable a 0) + gauss_int x))
    with (gauss_int (x + h) - gauss_int x) in Hd by ring.
  exact Hd.
Qed.

Lemma gauss_int_odd (x : R) : gauss_int (- x) = - gauss_int x.
Proof.
  set (b := Rabs x).
  assert (Hb : - b <= b) by (unfold b; pose proof (Rabs_pos x); lra).
  assert (A1 : antiderivative gauss gauss_int (- b) b).
  { split; [| exact Hb]. intros y _.
    exists (exist _ (gauss y) (gauss_int_derive y)). reflexivity. }
  assert (A2 : antiderivative gauss (fun y => - gauss_int (- y)) (- b) b).
  { split; [| exact Hb]. intros y _.
    assert (HD : derivable_pt_lim (fun y => - gauss_int (- y)) y (gauss y)).
    { replace (gauss y) with (- (gauss (- y) * -1))
        by (unfold gauss; replace (- y * - y) with (y * y) by ring; ring).
      apply (derivable_pt_lim_opp (comp gauss_int (fun y => - y))).
      apply derivable_pt_lim_comp; [| apply gauss_int_derive].
      apply (derivable_pt_lim_opp id), derivable_pt_lim_id. }
    exists (exist _ (gauss y) HD). reflexivity. }
  destruct (antiderivative_Ucte _ _ _ _ _ A1 A2) as [c Hc].
  assert (H0 : gauss_int 0 = - gauss_int (- 0) + c) by (apply Hc; lra).
  assert (Hx : gauss_int x = - gauss_int (- x) + c).
  { apply Hc. unfold b. pose proof (Rle_abs x). pose proof (Rle_abs (- x)).
    rewrite Rabs_Ropp in *. lra. }
  rewrite Ropp_0, gauss_int_0 in H0. lra.
Qed.

Lemma erf_odd (x : R) : erf (- x) = - erf x.
Proof.
  unfold erf. fold (gauss_int (- x)) (gauss_int x).
  rewrite gauss_int_odd. ring.
Qed.

(** ** [backward]: identities between the gradients *)

Lemma rsum_opp (n : nat) (f : nat -> R) :
  rsum n (fun k => - f k) = - rsum n f.
Proof. induction n as [| n IH]; simpl; [lra | rewrite IH; lra]. Qed.

Lemma rmsum_plus (ds : shape) (f h : index -> R) :
  rmsum ds (fun m => f m + h m) = rmsum ds f + rmsum ds h.
Proof.
  revert f h; induction ds as [| a ds IH]; intros f h; simpl; [reflexivity |].
  rewrite <- rsum_plus. apply rsum_ext. intros k _. apply IH.
Qed.

Lemma rmsum_scal (c : R) (ds : shape) (f : index -> R) :
  rmsum ds (fun m => c * f m) = c * rmsum ds f.
Proof.
  revert f; induction ds as [| a ds IH]; intros f; simpl; [reflexivity |].
  rewrite <- rsum_scal. apply rsum_ext. intros k _. apply IH.
Qed.

Lemma rmsum_zero (ds : shape) (f : index -> R) :
  (forall m, in_range ds m -> f m = 0) -> rmsum ds f = 0.
Proof.
  revert f; induction ds as [| a ds IH]; intros f H; simpl.
  - apply H. exact I.
  - apply rsum_zero. intros k Hk. apply IH. intros m Hm. apply H.
    simpl. tauto.
Qed.

(** A double sum of an antisymmetric family vanishes. *)
Lemma rsum_antisym (n : nat) (a : nat -> nat -> R) :
  (forall p q, (p < n)%nat -> (q < n)%nat -> a p q = - a q p) ->
  rsum n (fun p => rsum n (fun q => a p q)) = 0.
Proof.
  induction n as [| n IH]; intros H; [reflexivity |].
  cbn [rsum]. rewrite rsum_plus.
  rewrite IH by (intros; apply H; lia).
  rewrite (rsum_ext n (fun p => a p n) (fun p => - a n p))
    by (intros; apply H; lia).
  rewrite rsum_opp.
  change (rsum n (fun q => a n q)) with (rsum n (a n)).
  pose proof (H n n ltac:(lia) ltac:(lia)). lra.
Qed.

(** The upstream gradient [c * g1 + g2]. *)
Definition lin_comb (c : R) (g1R g2R : index -> R) (i : index) : R :=
  c * g1R i + g2R i.

Section BackwardAlgebra.

Variables (D K' : nat) (bs ls : shape).
Variables (zR scaleR locsR pisR : index -> R).

Lemma mu_spec_antisym (b : index) (p q x : nat) :
  mu_spec D scaleR locsR b q p x = - mu_spec D scaleR locsR b p q x.
Proof.
  unfold mu_spec. rewrite (Nat.eqb_sym q p).
  destruct (p =? q)%nat; [lra |].
  rewrite (rsum_ext D
             (fun y => (lt scaleR locsR b q y - lt scaleR locsR b p y)
                       * (lt scaleR locsR b q y - lt scaleR locsR b p y))
             (fun y => (lt scaleR locsR b p y - lt scaleR locsR b q y)
                       * (lt scaleR locsR b p y - lt scaleR locsR b q y)))
    by (intros; ring).
  unfold Rdiv. ring.
Qed.

Lemma z_ll_spec_antisym (r : index) (p q : nat) :
  z_ll_spec D bs zR scaleR locsR r q p = - z_ll_spec D bs zR scaleR locsR r p q.
Proof.
  unfold z_ll_spec. rewrite <- rsum_opp. apply rsum_ext. intros x _.
  rewrite mu_spec_antisym. ring.
Qed.

Lemma z_perp_sqr_spec_sym (r : index) (p q : nat) :
  z_perp_sqr_spec D bs zR scaleR locsR r q p
  = z_perp_sqr_spec D bs zR scaleR locsR r p q.
Proof.
  unfold z_perp_sqr_spec. apply rsum_ext. intros x _.
  rewrite z_ll_spec_antisym, mu_spec_antisym. ring.
Qed.

Lemma sigma_g_spec_antisym (gR : index -> R) (r : index) (p q : nat) :
  sigma_g_spec D bs scaleR locsR gR r q p
  = - sigma_g_spec D bs scaleR locsR gR r p q.
Proof.
  unfold sigma_g_spec. rewrite <- rsum_opp. apply rsum_ext. intros x _.
  rewrite mu_spec_antisym. ring.
Qed.

(** The pair [(q,p)] contributes to component [q] the opposite of what
    the pair [(p,q)] contributes to component [p]. *)
Lemma term_antisym (gR : index -> R) (r : index) (p q : nat) :
  pisR (p :: bidx bs r)
  * term_with D bs zR scaleR locsR pisR gR (mu_ll_code D scaleR locsR) r p q
  = - (pisR (q :: bidx bs r)
       * term_with D bs zR scaleR locsR pisR gR (mu_ll_code D scaleR locsR)
                   r q p).
Proof.
  unfold term_with.
  rewrite (z_ll_spec_antisym r p q), (z_perp_sqr_spec_sym r p q),
    (sigma_g_spec_antisym gR r p q).
  set (zl := z_ll_spec D bs zR scaleR locsR r p q).
  set (m1 := mu_ll_code D scaleR locsR (bidx bs r) p q).
  set (m2 := mu_ll_code D scaleR locsR (bidx bs r) q p).
  replace ((- zl - m2) / sqrt 2) with (- ((zl + m2) / sqrt 2))
    by (unfold Rdiv; ring).
  replace ((- zl + m1) / sqrt 2) with (- ((zl - m1) / sqrt 2))
    by (unfold Rdiv; ring).
  rewrite !erf_odd. ring.
Qed.

Lemma grad_logits_sum_zero (gR : index -> R) (b : index) :
  in_range bs b ->
  rsum (S K')
       (fun p => grad_logits_with D K' bs ls zR scaleR locsR pisR gR
                                  (mu_ll_code D scaleR locsR) b p) = 0.
Proof.
  intros Hb. unfold grad_logits_with.
  rewrite (rsum_ext (S K') _
             (fun p =>
                rmsum ls (fun l =>
                  sqrt (PI / 2) / qtot_spec D K' bs zR scaleR locsR pisR (b ++ l)
                  * rsum (S K') (fun q =>
                      pisR (p :: bidx bs (b ++ l))
                      * term_with D bs zR scaleR locsR pisR gR
                                  (mu_ll_code D scaleR locsR) (b ++ l) p q)))).
  - rewrite <- rmsum_rsum_swap. apply rmsum_zero. intros l Hl.
    rewrite rsum_scal, rsum_antisym; [ring |].
    intros p q _ _. apply term_antisym.
  - intros p _. rewrite <- rmsum_scal. apply rmsum_ext. intros l Hl.
    rewrite rsum_div, rsum_scal, (bidx_app_l bs b l Hb). unfold Rdiv. ring.
Qed.

(** The responsibilities [weights[j] * q'[j] / q_tot'] sum to one. *)
Lemma pref_spec_sum (gR : index -> R) (r : index) (x : nat) :
  (forall i, in_range (S K' :: bs) i -> 0 < pisR i) ->
  in_range (bs ++ ls) r ->
  rsum (S K') (fun j => pref_spec D K' bs zR scaleR locsR pisR gR r j x)
  = gR (x :: r).
Proof.
  intros Hp Hr. unfold pref_spec.
  pose proof (qtotp_pos D K' bs ls zR scaleR locsR pisR Hp r Hr) as Hq.
  rewrite qtotp_spec_eq in Hq.
  rewrite rsum_div.
  rewrite (rsum_ext (S K') _
             (fun j => gR (x :: r)
                       * (pisR (j :: bidx bs r)
                          * qp_spec D K' bs zR scaleR locsR r j)))
    by (intros; ring).
  rewrite rsum_scal. fold (qtotp_spec D K' bs zR scaleR locsR pisR r).
  field. lra.
Qed.

Lemma grad_locs_spec_sum (gR : index -> R) (b : index) (x : nat) :
  (forall i, in_range (S K' :: bs) i -> 0 < pisR i) ->
  in_range bs b ->
  rsum (S K')
       (fun j => grad_locs_spec D K' bs ls zR scaleR locsR pisR gR b j x)
  = rmsum ls (fun l => gR (x :: b ++ l)).
Proof.
  intros Hp Hb. unfold grad_locs_spec. rewrite <- rmsum_rsum_swap.
  apply rmsum_ext. intros l Hl. apply pref_spec_sum; [exact Hp |].
  now apply in_range_app.
Qed.

(** *** Linearity in the upstream gradient *)

Variables (c : R) (g1R g2R : index -> R).


Lemma pref_spec_linear (r : index) (j x : nat) :
  pref_spec D K' bs zR scaleR locsR pisR (lin_comb c g1R g2R) r j x
  = c * pref_spec D K' bs zR scaleR locsR pisR g1R r j x
    + pref_spec D K' bs zR scaleR locsR pisR g2R r j x.
Proof. unfold pref_spec, lin_comb, Rdiv. ring. Qed.

Lemma grad_locs_spec_linear (b : index) (j x : nat) :
  grad_locs_spec D K' bs ls zR scaleR locsR pisR (lin_comb c g1R g2R) b j x
  = c * grad_locs_spec D K' bs ls zR scaleR locsR pisR g1R b j x
    + grad_locs_spec D K' bs ls zR scaleR locsR pisR g2R b j x.
Proof.
  unfold grad_locs_spec. rewrite <- rmsum_scal, <- rmsum_plus.
  apply rmsum_ext. intros l _. apply pref_spec_linear.
Qed.

Lemma grad_scale_spec_linear (b : index) (x : nat) :
  grad_scale_spec D K' bs ls zR scaleR locsR pisR (lin_comb c g1R g2R) b x
  = c * grad_scale_spec D K' bs ls zR scaleR locsR pisR g1R b x
    + grad_scale_spec D K' bs ls zR scaleR locsR pisR g2R b x.
Proof.
  unfold grad_scale_spec. rewrite <- rmsum_scal, <- rmsum_plus.
  apply rmsum_ext. intros l _.
  rewrite <- rsum_scal, <- rsum_plus. apply rsum_ext. intros j _.
  rewrite pref_spec_linear. ring.
Qed.

Lemma sigma_g_spec_linear (r : index) (p q : nat) :
  sigma_g_spec D bs scaleR locsR (lin_comb c g1R g2R) r p q
  = c * sigma_g_spec D bs scaleR locsR g1R r p q
    + sigma_g_spec D bs scaleR locsR g2R r p q.
Proof.
  unfold sigma_g_spec. rewrite <- rsum_scal, <- rsum_plus.
  apply rsum_ext. intros x _. unfold lin_comb. ring.
Qed.

Lemma grad_logits_linear (mull : index -> nat -> nat -> R) (b : index)
    (p : nat) :
  grad_logits_with D K' bs ls zR scaleR locsR pisR (lin_comb c g1R g2R) mull b p
  = c * grad_logits_with D K' bs ls zR scaleR locsR pisR g1R mull b p
    + grad_logits_with D K' bs ls zR scaleR locsR pisR g2R mull b p.
Proof.
  unfold grad_logits_with.
  rewrite (rmsum_ext ls
             (fun l => rsum (S K') (fun q =>
                term_with D bs zR scaleR locsR pisR (lin_comb c g1R g2R) mull (b ++ l) p q
                / qtot_spec D K' bs zR scaleR locsR pisR (b ++ l)))
             (fun l =>
                c * rsum (S K') (fun q =>
                  term_with D bs zR scaleR locsR pisR g1R mull (b ++ l) p q
                  / qtot_spec D K' bs zR scaleR locsR pisR (b ++ l))
                + rsum (S K') (fun q =>
                  term_with D bs zR scaleR locsR pisR g2R mull (b ++ l) p q
                  / qtot_spec D K' bs zR scaleR locsR pisR (b ++ l)))).
  - rewrite rmsum_plus, rmsum_scal. ring.
  - intros l _. rewrite <- rsum_scal, <- rsum_plus. apply rsum_ext.
    intros q _. unfold term_with. rewrite sigma_g_spec_linear.
    unfold Rdiv. ring.
Qed.

End BackwardAlgebra.

(** X4: the locs gradient distributes the upstream gradient among the
    components: for every batch element and coordinate, the sum over the
    components [j] of [locs_grad[b,j,x]] is the sum over the sample
    axes of [grad_output[l,b,x]], because the weights
    [pis[j] * q'[j] / q_tot'] of [prefactor] sum to one. *)
Theorem backward_locs_grad_sums_to_upstream
    (D K' : nat) (bs ls : shape) (zR scaleR locsR pisR gR : index -> R)
    (ctx : saved) (g : tensor num) :
  (forall i, in_range (D :: bs) i -> 0 < scaleR i) ->
  (forall i, in_range (S K' :: bs) i -> 0 < pisR i) ->
  agrees (s_z ctx) (D :: bs ++ ls) (fun i => Fin (zR i)) ->
  agrees (s_scale ctx) (D :: bs) (fun i => Fin (scaleR i)) ->
  agrees (s_locs ctx) (D :: S K' :: bs) (fun i => Fin (locsR i)) ->
  tshape (s_logits ctx) = S K' :: bs ->
  agrees (s_pis ctx) (S K' :: bs) (fun i => Fin (pisR i)) ->
  agrees g (D :: bs ++ ls) (fun i => Fin (gR i)) ->
  exists gl gs glg,
    backward ctx g = Some (gl, gs, glg) /\
    forall b x, in_range bs b -> (x < D)%nat ->
      nsum (S K') (fun j => tdata gl (x :: j :: b))
      = Fin (rmsum ls (fun l => gR (x :: b ++ l))).
Proof.
  intros Hsp Hpp Hz Hsc Hml Hlg Hpis Hg.
  destruct (backward_locs_scale D K' bs ls zR scaleR locsR pisR gR ctx g
              Hsp Hpp Hz Hsc Hml Hlg Hpis Hg)
    as (gl & gs & glg & E & Hl & _).
  exists gl, gs, glg. split; [exact E |].
  intros b x Hb Hx.
  rewrite (nsum_fin_ext (S K') _
             (fun j => grad_locs_spec D K' bs ls zR scaleR locsR pisR gR b j x)).
  - f_equal. now apply grad_locs_spec_sum.
  - intros j Hj.
    rewrite (agrees_data _ _ _ (x :: j :: b) Hl) by (simpl; tauto).
    reflexivity.
Qed.

Lemma backward_locs_grad_sums_to_upstream_witness :
  exists gl gs glg,
    backward gx_ctx gx_g = Some (gl, gs, glg) /\
    forall b x, in_range [] b -> (x < 1)%nat ->
      nsum 2 (fun j => tdata gl (x :: j :: b))
      = Fin (rmsum [] (fun l => gx_one (x :: b ++ l))).
Proof.
  exact (backward_locs_grad_sums_to_upstream 1 1 [] [] gx_zero gx_one
           sc_locsR gx_half gx_one gx_ctx gx_g gx_scale_pos gx_pis_pos
           (gx_agrees _ _) (gx_agrees _ _) sc_agrees_locs eq_refl
           (gx_agrees _ _) (gx_agrees _ _)).
Defined.

(** X6: [backward] is linear in [grad_output]: for upstream gradients
    [g1], [g2] and a factor [c], every entry of the three gradients
    returned for [c * g1 + g2] is [c] times the entry returned for [g1]
    plus the entry returned for [g2] (component means pairwise
    distinct, so that all entries are numbers). *)
Theorem backward_linear_in_grad_output
    (D K' : nat) (bs ls : shape) (zR scaleR locsR pisR : index -> R)
    (c : R) (g1R g2R : index -> R)
    (ctx : saved) (g1 g2 g12 : tensor num) :
  (forall i, in_range (D :: bs) i -> 0 < scaleR i) ->
  (forall i, in_range (S K' :: bs) i -> 0 < pisR i) ->
  agrees (s_z ctx) (D :: bs ++ ls) (fun i => Fin (zR i)) ->
  agrees (s_scale ctx) (D :: bs) (fun i => Fin (scaleR i)) ->
  agrees (s_locs ctx) (D :: S K' :: bs) (fun i => Fin (locsR i)) ->
  tshape (s_logits ctx) = S K' :: bs ->
  agrees (s_pis ctx) (S K' :: bs) (fun i => Fin (pisR i)) ->
  (forall b p q, in_range bs b -> (p < S K')%nat -> (q < S K')%nat -> p <> q ->
     exists x, (x < D)%nat /\ locsR (x :: p :: b) <> locsR (x :: q :: b)) ->
  agrees g1 (D :: bs ++ ls) (fun i => Fin (g1R i)) ->
  agrees g2 (D :: bs ++ ls) (fun i => Fin (g2R i)) ->
  agrees g12 (D :: bs ++ ls) (fun i => Fin (c * g1R i + g2R i)) ->
  exists gl1 gs1 gg1 gl2 gs2 gg2 gl gs gg,
    backward ctx g1 = Some (gl1, gs1, gg1) /\
    backward ctx g2 = Some (gl2, gs2, gg2) /\
    backward ctx g12 = Some (gl, gs, gg) /\
    (forall i, in_range (D :: S K' :: bs) i ->
       tdata gl i = Num.add (Num.mul (Fin c) (tdata gl1 i)) (tdata gl2 i)) /\
    (forall i, in_range (D :: bs) i ->
       tdata gs i = Num.add (Num.mul (Fin c) (tdata gs1 i)) (tdata gs2 i)) /\
    (forall i, in_range (S K' :: bs) i ->
       tdata gg i = Num.add (Num.mul (Fin c) (tdata gg1 i)) (tdata gg2 i)).
Proof.
  intros Hsp Hpp Hz Hsc Hml Hlg Hpis Hdist Hg1 Hg2 Hg12.
  change (agrees g12 (D :: bs ++ ls) (fun i => Fin (lin_comb c g1R g2R i)))
    in Hg12.
  destruct (backward_locs_scale D K' bs ls zR scaleR locsR pisR g1R ctx g1
              Hsp Hpp Hz Hsc Hml Hlg Hpis Hg1)
    as (gl1 & gs1 & gg1 & E1 & Hl1 & Hs1).
  destruct (backward_locs_scale D K' bs ls zR scaleR locsR pisR g2R ctx g2
              Hsp Hpp Hz Hsc Hml Hlg Hpis Hg2)
    as (gl2 & gs2 & gg2 & E2 & Hl2 & Hs2).
  destruct (backward_locs_scale D K' bs ls zR scaleR locsR pisR _ ctx g12
              Hsp Hpp Hz Hsc Hml Hlg Hpis Hg12)
    as (gl & gs & gg & E & Hl & Hs).
  destruct (backward_logits D K' bs ls zR scaleR locsR pisR g1R ctx g1
              Hsp Hpp Hz Hsc Hml Hlg Hpis Hg1 Hdist)
    as (? & ? & gg1' & E1' & Hg1').
  destruct (backward_logits D K' bs ls zR scaleR locsR pisR g2R ctx g2
              Hsp Hpp Hz Hsc Hml Hlg Hpis Hg2 Hdist)
    as (? & ? & gg2' & E2' & Hg2').
  destruct (backward_logits D K' bs ls zR scaleR locsR pisR _ ctx g12
              Hsp Hpp Hz Hsc Hml Hlg Hpis Hg12 Hdist)
    as (? & ? & gg' & E' & Hg').
  rewrite E1 in E1'. rewrite E2 in E2'. rewrite E in E'.
  injection E1' as <- <- <-. injection E2' as <- <- <-.
  injection E' as <- <- <-.
  exists gl1, gs1, gg1, gl2, gs2, gg2, gl, gs, gg.
  split; [exact E1 |]. split; [exact E2 |]. split; [exact E |].
  split; [| split]; intros i Hi.
  - rewrite (agrees_data _ _ _ i Hl Hi), (agrees_data _ _ _ i Hl1 Hi),
      (agrees_data _ _ _ i Hl2 Hi).
    cbn [Num.mul Num.add]. f_equal. apply grad_locs_spec_linear.
  - rewrite (agrees_data _ _ _ i Hs Hi), (agrees_data _ _ _ i Hs1 Hi),
      (agrees_data _ _ _ i Hs2 Hi).
    cbn [Num.mul Num.add]. f_equal. apply grad_scale_spec_linear.
  - rewrite (agrees_data _ _ _ i Hg' Hi), (agrees_data _ _ _ i Hg1' Hi),
      (agrees_data _ _ _ i Hg2' Hi).
    cbn [Num.mul Num.add]. f_equal. apply grad_logits_linear.
Qed.

Lemma backward_linear_in_grad_output_witness :
  exists gl1 gl,
    (exists gs1 gg1, backward gx_ctx gx_g = Some (gl1, gs1, gg1)) /\
    (exists gs gg,
        backward gx_ctx (mkT [1%nat] (fun i => Fin (2 * gx_one i + gx_one i)))
        = Some (gl, gs, gg)) /\
    forall i, in_range [1; 2]%nat i ->
      tdata gl i = Num.add (Num.mul (Fin 2) (tdata gl1 i)) (tdata gl1 i).
Proof.
  destruct (backward_linear_in_grad_output 1 1 [] [] gx_zero gx_one sc_locsR
              gx_half 2 gx_one gx_one gx_ctx gx_g gx_g
              (mkT [1%nat] (fun i => Fin (2 * gx_one i + gx_one i)))
              gx_scale_pos gx_pis_pos
              (gx_agrees _ _) (gx_agrees _ _) sc_agrees_locs eq_refl
              (gx_agrees _ _) gx_distinct (gx_agrees _ _) (gx_agrees _ _)
              (agrees_self _ _))
    as (gl1 & gs1 & gg1 & gl2 & gs2 & gg2 & gl & gs & gg
        & E1 & E2 & E & Hl & _).
  exists gl1, gl. split; [eauto |]. split; [eauto |].
  intros i Hi. rewrite (Hl i Hi). rewrite E1 in E2.
  injection E2 as <- _ _. reflexivity.
Defined.

(** ** [log_prob]: the density computed *)

Fixpoint rprod (n : nat) (f : nat -> R) : R :=
  match n with
  | O => 1
  | S m => rprod m f * f m
  end.

(** The density of the normal distribution with mean [m] and standard
    deviation [s]. *)
Definition normal_pdf (m s v : R) : R :=
  / (s * sqrt (2 * PI)) * exp (- (((v - m) / s) * ((v - m) / s)) / 2).

Lemma two_pi_pos : 0 < 2 * PI.
Proof. pose proof PI_RGT_0. lra. Qed.

Lemma normal_pdf_exp (m s v : R) :
  0 < s ->
  normal_pdf m s v
  = exp (- (((v - m) / s) * ((v - m) / s)) / 2 - ln s - ln (2 * PI) / 2).
Proof.
  intros Hs. unfold normal_pdf.
  assert (Hr : 0 < sqrt (2 * PI)) by (apply sqrt_lt_R0, two_pi_pos).
  assert (Hp : 0 < s * sqrt (2 * PI)) by now apply Rmult_lt_0_compat.
  rewrite <- (exp_ln (/ (s * sqrt (2 * PI)))) by now apply Rinv_0_lt_compat.
  rewrite ln_Rinv by exact Hp.
  rewrite ln_mult by assumption.
  rewrite ln_root by apply two_pi_pos.
  rewrite <- exp_plus. f_equal. lra.
Qed.

Lemma rprod_normal_pdf (n : nat) (mf sf vf : nat -> R) :
  (forall x, (x < n)%nat -> 0 < sf x) ->
  rprod n (fun x => normal_pdf (mf x) (sf x) (vf x))
  = exp (- (1 / 2 * rsum n (fun x => ((vf x - mf x) / sf x)
                                      * ((vf x - mf x) / sf x)))
         - rsum n (fun x => ln (sf x))
         - INR n / 2 * ln (2 * PI)).
Proof.
  induction n as [| n IH]; intros Hs.
  - cbn [rprod rsum INR]. rewrite <- exp_0. f_equal. lra.
  - cbn [rprod rsum]. rewrite IH by (intros; apply Hs; lia).
    rewrite normal_pdf_exp by (apply Hs; lia).
    rewrite <- exp_plus. f_equal. rewrite S_INR. lra.
Qed.

Lemma weightsR_sum (K' : nat) (logitsR : index -> R) (b : index) :
  rsum (S K') (fun k => weightsR K' logitsR b k) = 1.
Proof.
  unfold weightsR. rewrite rsum_div.
  assert (0 < rsum (S K') (fun k => exp (logitsR (k :: b))))
    by (apply rsum_pos; [lia | intros; apply exp_pos]).
  field. lra.
Qed.

(** The softmax weights do not change when a constant is added to all
    the logits of a batch element. *)
Lemma weightsR_shift (K' : nat) (logitsR c : index -> R) (b : index) (k : nat) :
  weightsR K' (fun i => logitsR i + c (tl i)) b k = weightsR K' logitsR b k.
Proof.
  unfold weightsR. cbn [tl].
  rewrite (rsum_ext (S K') _ (fun j => exp (c b) * exp (logitsR (j :: b))))
    by (intros; rewrite exp_plus; ring).
  rewrite rsum_scal, exp_plus.
  assert (0 < rsum (S K') (fun k => exp (logitsR (k :: b))))
    by (apply rsum_pos; [lia | intros; apply exp_pos]).
  pose proof (exp_pos (c b)). field. lra.
Qed.

Section LogProbDensity.

Variables (D K' : nat) (bs vt : shape) (vD : nat).
Variables (locsR scaleR logitsR valueR : index -> R).

(** The density of the mixture at the value read at the result index
    [r]: the weighted sum over the components of the product over the
    coordinates of the normal densities. *)
Definition mixture_density (r : index) : R :=
  rsum (S K')
       (fun k => weightsR K' logitsR (bidx bs r) k
                 * rprod D (fun x =>
                              normal_pdf (locsR (x :: k :: bidx bs r))
                                         (scaleR (x :: bidx bs r))
                                         (lp_value vt vD valueR r x))).

(** The log-density at the mode of one component. *)
Definition peak_log_density (r : index) : R :=
  - rsum D (fun x => ln (scaleR (x :: bidx bs r))) - INR D / 2 * ln (2 * PI).

Hypothesis scale_pos : forall i, in_range (D :: bs) i -> 0 < scaleR i.

Lemma lp_m_nonneg (r : index) :
  0 <= lp_m D K' bs vt vD locsR scaleR valueR r.
Proof.
  unfold lp_m.
  destruct (rfold_min_attained K'
              (lp_eps_sqr_spec D bs vt vD locsR scaleR valueR r))
    as (k & _ & ->).
  unfold lp_eps_sqr_spec.
  assert (0 <= rsum D (fun d =>
            lp_epsilon bs vt vD locsR scaleR valueR r k d
            * lp_epsilon bs vt vD locsR scaleR valueR r k d))
    by (apply rsum_nonneg; intros; apply Rle_0_sqr).
  lra.
Qed.

Lemma log_prob_spec_density (r : index) :
  in_range bs (bidx bs r) ->
  exp (log_prob_spec D K' bs vt vD locsR scaleR logitsR valueR r)
  = mixture_density r.
Proof.
  intros Hb. unfold log_prob_spec.
  pose proof (lp_sum_spec_pos D K' bs vt vD locsR scaleR logitsR valueR r)
    as Hpos.
  set (m := lp_m D K' bs vt vD locsR scaleR valueR r) in *.
  set (C := rsum D (fun d => ln (scaleR (d :: bidx bs r)))).
  replace (ln (lp_sum_spec D K' bs vt vD locsR scaleR logitsR valueR r)
           - 1 / 2 * INR D * ln (2 * PI) - C - m)
    with (ln (lp_sum_spec D K' bs vt vD locsR scaleR logitsR valueR r)
          + (- C - INR D / 2 * ln (2 * PI) - m)) by lra.
  rewrite exp_plus, exp_ln by exact Hpos.
  unfold lp_sum_spec, mixture_density. fold m.
  rewrite Rmult_comm, <- rsum_scal. apply rsum_ext. intros k Hk.
  rewrite rprod_normal_pdf
    by (intros x Hx; apply scale_pos; simpl; tauto).
  rewrite Rmult_comm, Rmult_assoc, <- exp_plus. f_equal. f_equal.
  unfold lp_eps_sqr_spec, lp_epsilon. fold C. lra.
Qed.

Lemma log_prob_spec_upper (r : index) :
  log_prob_spec D K' bs vt vD locsR scaleR logitsR valueR r
  <= peak_log_density r.
Proof.
  unfold log_prob_spec, peak_log_density.
  pose proof (lp_sum_spec_pos D K' bs vt vD locsR scaleR logitsR valueR r)
    as Hpos.
  pose proof (lp_m_nonneg r) as Hm.
  assert (Hle : lp_sum_spec D K' bs vt vD locsR scaleR logitsR valueR r <= 1).
  { rewrite <- (weightsR_sum K' logitsR (bidx bs r)). unfold lp_sum_spec.
    assert (Hgen : forall n, (n <= S K')%nat ->
              rsum n (fun k =>
                weightsR K' logitsR (bidx bs r) k
                * exp (lp_m D K' bs vt vD locsR scaleR valueR r
                       - lp_eps_sqr_spec D bs vt vD locsR scaleR valueR r k))
              <= rsum n (fun k => weightsR K' logitsR (bidx bs r) k)).
    { induction n as [| n IH]; intros Hn; cbn [rsum]; [lra |].
      specialize (IH ltac:(lia)).
      pose proof (weightsR_pos K' logitsR (bidx bs r) n) as Hw.
      pose proof (lp_exponent_nonpos D K' bs vt vD locsR scaleR valueR r n
                    ltac:(lia)) as He.
      assert (exp (lp_m D K' bs vt vD locsR scaleR valueR r
                   - lp_eps_sqr_spec D bs vt vD locsR scaleR valueR r n) <= 1).
      { rewrite <- exp_0. destruct He as [He | ->]; [| lra].
        now apply Rlt_le, exp_increasing. }
      nra. }
    apply Hgen. lia. }
  assert (Hln : ln (lp_sum_spec D K' bs vt vD locsR scaleR logitsR valueR r)
                <= 0).
  { rewrite <- ln_1. destruct Hle as [Hlt | ->]; [| lra].
    now apply Rlt_le, ln_increasing. }
  lra.
Qed.

End LogProbDensity.

Lemma log_prob_spec_shift (D K' : nat) (bs vt : shape) (vD : nat)
    (locsR scaleR logitsR valueR c : index -> R) (r : index) :
  log_prob_spec D K' bs vt vD locsR scaleR
                (fun i => logitsR i + c (tl i)) valueR r
  = log_prob_spec D K' bs vt vD locsR scaleR logitsR valueR r.
Proof.
  unfold log_prob_spec, lp_sum_spec.
  rewrite (rsum_ext (S K') _
             (fun k => weightsR K' logitsR (bidx bs r) k
                       * exp (lp_m D K' bs vt vD locsR scaleR valueR r
                              - lp_eps_sqr_spec D bs vt vD locsR scaleR
                                                valueR r k)))
    by (intros; now rewrite weightsR_shift).
  reflexivity.
Qed.

(** X7: [log_prob] returns the logarithm of the mixture density: at
    every index of the result, the exponential of the returned value is
    [sum_k weights[b,k] * prod_d N(value[d]; locs[b,k,d], scale[b,d])]
    with [N] the normal density; the shift by the smallest squared
    distance on lines 52 to 57 cancels. *)
Theorem log_prob_is_log_mixture_density
    (D K' : nat) (bs vt os : shape) (vD : nat)
    (locsR scaleR logitsR valueR : index -> R)
    (ml sc lg value : tensor num) (d : dist) :
  bshape vt bs = Some os ->
  bdim vD D = Some D ->
  (forall i, in_range (D :: bs) i -> 0 < scaleR i) ->
  agrees ml (D :: S K' :: bs) (fun i => Fin (locsR i)) ->
  agrees sc (D :: bs) (fun i => Fin (scaleR i)) ->
  agrees lg (S K' :: bs) (fun i => Fin (logitsR i)) ->
  agrees value (vD :: vt) (fun i => Fin (valueR i)) ->
  init ml sc lg = Some d ->
  exists res,
    log_prob d value = Some res /\
    tshape res = os /\
    forall r, in_range os r ->
      exists v, tdata res r = Fin v /\
                exp v = mixture_density D K' bs vt vD locsR scaleR logitsR
                                        valueR r.
Proof.
  intros Hos HvD Hpos Hml Hsc Hlg Hv Hinit.
  destruct (log_prob_general D K' bs vt os vD locsR scaleR logitsR valueR
              Hos HvD Hpos ml sc lg value d Hml Hsc Hlg Hv Hinit)
    as (res & E & Hres).
  exists res. split; [exact E |]. split; [exact (agrees_shape _ _ _ Hres) |].
  intros r Hr. eexists. split; [exact (agrees_data _ _ _ r Hres Hr) |].
  apply log_prob_spec_density; [exact Hpos |].
  exact (lp_batch_in_range bs vt os Hos r Hr).
Qed.

Lemma log_prob_is_log_mixture_density_witness :
  exists d res,
    init sc_locs sc_scale sc_logits = Some d /\
    log_prob d sc_value = Some res /\
    exists v, tdata res [] = Fin v /\
              exp v = mixture_density 1 1 [] [] 1 sc_locsR (fun _ => 1)
                                      (fun _ => 0) (fun _ => 0) [].
Proof.
  destruct sc_init as [d Hd]. exists d.
  destruct (log_prob_is_log_mixture_density 1 1 [] [] [] 1 sc_locsR
              (fun _ => 1) (fun _ => 0) (fun _ => 0)
              sc_locs sc_scale sc_logits sc_value d
              eq_refl eq_refl sc_scale_pos
              sc_agrees_locs (sc_agrees_const _ _) (sc_agrees_const _ _)
              (sc_agrees_const _ _) Hd) as (res & E & _ & Hres).
  exists res. split; [exact Hd |]. split; [exact E |]. exact (Hres [] I).
Defined.

(** X8: the value returned by [log_prob] never exceeds the log-density
    at the mode of one component,
    [- sum_d log(scale[b,d]) - D/2 * log(2*pi)]. *)
Theorem log_prob_upper_bound
    (D K' : nat) (bs vt os : shape) (vD : nat)
    (locsR scaleR logitsR valueR : index -> R)
    (ml sc lg value : tensor num) (d : dist) :
  bshape vt bs = Some os ->
  bdim vD D = Some D ->
  (forall i, in_range (D :: bs) i -> 0 < scaleR i) ->
  agrees ml (D :: S K' :: bs) (fun i => Fin (locsR i)) ->
  agrees sc (D :: bs) (fun i => Fin (scaleR i)) ->
  agrees lg (S K' :: bs) (fun i => Fin (logitsR i)) ->
  agrees value (vD :: vt) (fun i => Fin (valueR i)) ->
  init ml sc lg = Some d ->
  exists res,
    log_prob d value = Some res /\
    forall r, in_range os r ->
      exists v, tdata res r = Fin v /\ v <= peak_log_density D bs scaleR r.
Proof.
  intros Hos HvD Hpos Hml Hsc Hlg Hv Hinit.
  destruct (log_prob_general D K' bs vt os vD locsR scaleR logitsR valueR
              Hos HvD Hpos ml sc lg value d Hml Hsc Hlg Hv Hinit)
    as (res & E & Hres).
  exists res. split; [exact E |].
  intros r Hr. eexists. split; [exact (agrees_data _ _ _ r Hres Hr) |].
  apply log_prob_spec_upper.
Qed.

Lemma log_prob_upper_bound_witness :
  exists d res,
    init sc_locs sc_scale sc_logits = Some d /\
    log_prob d far_value = Some res /\
    exists v, tdata res [] = Fin v /\
              v <= peak_log_density 1 [] (fun _ => 1) [].
Proof.
  destruct sc_init as [d Hd]. exists d.
  destruct (log_prob_upper_bound 1 1 [] [] [] 1 sc_locsR
              (fun _ => 1) (fun _ => 0) (fun _ => 201)
              sc_locs sc_scale sc_logits far_value d
              eq_refl eq_refl sc_scale_pos
              sc_agrees_locs (sc_agrees_const _ _) (sc_agrees_const _ _)
              (sc_agrees_const _ _) Hd) as (res & E & Hres).
  exists res. split; [exact Hd |]. split; [exact E |]. exact (Hres [] I).
Defined.

(** X9: [log_prob] does not change when a constant is added to all the
    logits of a batch element: two distributions built from the same
    [locs] and [scale] and from logits that differ by [c[b]] return the
    same value at every index. *)
Theorem log_prob_invariant_under_logit_shift
    (D K' : nat) (bs vt os : shape) (vD : nat)
    (locsR scaleR logitsR valueR c : index -> R)
    (ml sc lg lg' value : tensor num) (d d' : dist) :
  bshape vt bs = Some os ->
  bdim vD D = Some D ->
  (forall i, in_range (D :: bs) i -> 0 < scaleR i) ->
  agrees ml (D :: S K' :: bs) (fun i => Fin (locsR i)) ->
  agrees sc (D :: bs) (fun i => Fin (scaleR i)) ->
  agrees lg (S K' :: bs) (fun i => Fin (logitsR i)) ->
  agrees lg' (S K' :: bs) (fun i => Fin (logitsR i + c (tl i))) ->
  agrees value (vD :: vt) (fun i => Fin (valueR i)) ->
  init ml sc lg = Some d ->
  init ml sc lg' = Some d' ->
  exists res res',
    log_prob d value = Some res /\
    log_prob d' value = Some res' /\
    tshape res = tshape res' /\
    forall r, in_range os r -> tdata res r = tdata res' r.
Proof.
  intros Hos HvD Hpos Hml Hsc Hlg Hlg' Hv Hinit Hinit'.
  destruct (log_prob_general D K' bs vt os vD locsR scaleR logitsR valueR
              Hos HvD Hpos ml sc lg value d Hml Hsc Hlg Hv Hinit)
    as (res & E & Hres).
  destruct (log_prob_general D K' bs vt os vD locsR scaleR
              (fun i => logitsR i + c (tl i)) valueR
              Hos HvD Hpos ml sc lg' value d' Hml Hsc Hlg' Hv Hinit')
    as (res' & E' & Hres').
  exists res, res'. split; [exact E |]. split; [exact E' |].
  split.
  - now rewrite (agrees_shape _ _ _ Hres), (agrees_shape _ _ _ Hres').
  - intros r Hr.
    rewrite (agrees_data _ _ _ r Hres Hr), (agrees_data _ _ _ r Hres' Hr).
    now rewrite log_prob_spec_shift.
Qed.

(** The logits of the scenario shifted by 3. *)
Definition sc_logits_shifted : tensor num := mkT [2]%nat (fun _ => Fin (0 + 3)).

Lemma sc_init_shifted :
  exists d, init sc_locs sc_scale sc_logits_shifted = Some d.
Proof. eexists. reflexivity. Qed.

Lemma log_prob_invariant_under_logit_shift_witness :
  exists d d' res res',
    init sc_locs sc_scale sc_logits = Some d /\
    init sc_locs sc_scale sc_logits_shifted = Some d' /\
    log_prob d sc_value = Some res /\
    log_prob d' sc_value = Some res' /\
    tdata res [] = tdata res' [].
Proof.
  destruct sc_init as [d Hd]. destruct sc_init_shifted as [d' Hd'].
  exists d, d'.
  destruct (log_prob_invariant_under_logit_shift 1 1 [] [] [] 1 sc_locsR
              (fun _ => 1) (fun _ => 0) (fun _ => 0) (fun _ => 3)
              sc_locs sc_scale sc_logits sc_logits_shifted sc_value d d'
              eq_refl eq_refl sc_scale_pos
              sc_agrees_locs (sc_agrees_const _ _) (sc_agrees_const _ _)
              (agrees_self _ _) (sc_agrees_const _ _) Hd Hd')
    as (res & res' & E & E' & _ & H).
  exists res, res'. repeat (split; [assumption |]). exact (H [] I).
Defined.

(** ** [log_prob]: when it raises *)

Lemma bdim_absorb_r (a b e : nat) : bdim a b = Some e -> bdim e b = Some e.
Proof.
  intros H. destruct (bdim_inv _ _ _ H) as [_ [-> | ->]];
    [apply bdim_refl | apply bdim_1_r].
Qed.

Lemma bop_none {A B C : Type} (h : A -> B -> C) (a : tensor A) (b : tensor B) :
  bshape (tshape a) (tshape b) = None -> T.bop h a b = None.
Proof. intros H. unfold T.bop. now rewrite H. Qed.

(** X13: [log_prob] raises exactly when the shape of [value] does not
    broadcast against [batch_shape + (D,)].  For a distribution built by
    the constructor and whatever the entries of the tensors, a value of
    shape [(vt..., vD)] whose last size broadcasts with [D] and whose
    leading sizes broadcast with the batch shape to [os] gives a result
    of shape [os]; a value of rank 0, or one whose sizes do not
    broadcast, raises.  The event size of [value] is not compared with
    [D]: a last axis of size 1 is accepted. *)
Theorem log_prob_raises_iff_shape_mismatch (D K' : nat) (bs : shape)
    (ml sc lg value : tensor num) (d : dist) :
  tshape ml = D :: S K' :: bs -> tshape sc = D :: bs ->
  tshape lg = S K' :: bs ->
  init ml sc lg = Some d ->
  (forall (vD : nat) (vt : shape) (e : nat) (os : shape),
      tshape value = vD :: vt -> bdim vD D = Some e ->
      bshape vt bs = Some os ->
      exists res, log_prob d value = Some res /\ tshape res = os) /\
  (tshape value = [] -> log_prob d value = None) /\
  (forall (vD : nat) (vt : shape),
      tshape value = vD :: vt ->
      bdim vD D = None \/ bshape vt bs = None ->
      log_prob d value = None).
Proof.
  intros Hml Hsc Hlg Hd.
  destruct (init_fields _ _ _ _ Hd) as (Hbm & _ & _ & _ & El & Es & Eg & Hp).
  pose proof (agrees_of_shape _ _ Hml) as Hmla.
  pose proof (agrees_of_shape _ _ Hsc) as Hsca.
  pose proof (agrees_of_shape _ _ Hlg) as Hlga.
  assert (Hscale' : exists s' ss,
            (if batch_mode d then T.unsqueeze 1 (scale d) else Some (scale d))
            = Some s' /\
            agrees s' ss (tdata s') /\
            forall e os, bdim e D = Some e ->
                         bshape os bs = Some os ->
                         bshape (e :: S K' :: os) ss = Some (e :: S K' :: os)).
  { rewrite Hbm, Es. unfold rank. rewrite Hml.
    destruct bs as [| b0 bs'] eqn:Hbs.
    - exists sc, [D]. split; [reflexivity |]. split; [exact Hsca |].
      intros e os He _. cbn [bshape]. now rewrite He.
    - cbn [length Nat.ltb Nat.leb].
      destruct (unsqueeze_ok 1 _ _ _ Hsca) as (s' & Es' & Hs'); [simpl; lia |].
      exists s', (D :: 1%nat :: b0 :: bs'). split; [exact Es' |].
      split; [apply agrees_of_shape; exact (agrees_shape _ _ _ Hs') |].
      intros e os He Hos.
      apply bshape_cons; [exact He |].
      apply bshape_cons; [apply bdim_1_r | exact Hos]. }
  destruct Hscale' as (s' & ss & Es' & Hs' & Hss).
  unfold log_prob, log_prob_run. rewrite Es'. cbn [bind].
  split; [| split].
  - intros vD vt e os Hv Hbd Hos.
    pose proof (agrees_of_shape _ _ Hv) as Hva.
    pose proof (bdim_absorb_r _ _ _ Hbd) as He.
    pose proof (bshape_absorb_r _ _ _ Hos) as Hob.
    destruct (categorical_probs_ok lg (S K') bs _ Hlga) as (p & Ep & Hpa).
    rewrite Ep in Hp. injection Hp as Hp. rewrite Hp in Hpa.
    rewrite El, Es.
    step (unsqueeze_ok 1 _ _ _ Hva) v; [simpl; lia |].
    step (bop_ok Num.sub _ _ _ _ (e :: S K' :: os) _ _ Hv0 Hmla) diff.
    { apply bshape_cons; [exact Hbd |].
      apply bshape_cons; [apply bdim_1_l | exact Hos]. }
    step (bop_ok Num.div _ _ _ _ (e :: S K' :: os) _ _ Hdiff Hs') eps;
      [now apply Hss |].
    pose proof (map_ok Num.sq _ _ _ Heps) as Hsq.
    step (sum_ok 0 e _ _ _ Hsq eq_refl) ssq.
    pose proof (map_ok (Num.mul (Fin (1 / 2))) _ _ _ Hssq) as Hes.
    step (reduce_ok Num.min 0 K' _ _ _ Hes eq_refl) emin.
    step (unsqueeze_ok 0 _ _ _ Hemin) m; [simpl; lia |].
    pose proof (map_ok Num.neg _ _ _ Hes) as Hneg.
    step (bop_ok Num.add _ _ _ _ (S K' :: os) _ _ Hneg Hm) ex; [shape_tac |].
    pose proof (map_ok Num.exp _ _ _ Hex) as Hexp.
    step (bop_ok Num.mul _ _ _ _ (S K' :: os) _ _ Hpa Hexp) terms.
    { apply bshape_cons; [apply bdim_refl |].
      rewrite bshape_comm. exact Hob. }
    step (sum_ok 0 (S K') _ _ _ Hterms eq_refl) tot.
    pose proof (map_ok Num.log _ _ _ Htot) as Hlog.
    pose proof (map_ok (fun x => Num.sub x (Fin (1 / 2 * ln (2 * PI) * INR (dim d))))
                       _ _ _ Hlog) as Hres1.
    pose proof (map_ok Num.log _ _ _ Hsca) as Hlsc0.
    step (sum_ok 0 D _ _ _ Hlsc0 eq_refl) lsc.
    step (bop_inplace_ok Num.sub _ _ _ _ _ _ Hres1 Hlsc) res2; [exact Hob |].
    step (bop_inplace_ok Num.sub _ _ _ _ _ _ Hres2 Hemin) res3; [shape_tac |].
    cbn [option_map lp_result]. exists res3.
    split; [reflexivity | exact (agrees_shape _ _ _ Hres3)].
  - intros Hv. unfold T.unsqueeze at 1, rank. rewrite Hv. reflexivity.
  - intros vD vt Hv Hbad.
    pose proof (agrees_of_shape _ _ Hv) as Hva.
    step (unsqueeze_ok 1 _ _ _ Hva) v; [simpl; lia |].
    rewrite (bop_none Num.sub v (locs d)); [reflexivity |].
    rewrite (agrees_shape _ _ _ Hv0), El, Hml. cbn [bshape].
    destruct Hbad as [-> | Hb]; [reflexivity |].
    destruct (bdim vD D); [| reflexivity]. cbn [bind].
    rewrite bdim_1_l. cbn [bind]. rewrite Hb. reflexivity.
Qed.

(** Values of event size 1 and 2 for an instance with [D = 3]. *)
Lemma log_prob_raises_iff_shape_mismatch_witness :
  exists d,
    init cx_locs (const_tensor [3]%nat 1) cx_logits = Some d /\
    (exists res, log_prob d (const_tensor [1]%nat 0) = Some res /\
                 tshape res = []) /\
    log_prob d (const_tensor [2]%nat 0) = None.
Proof.
  assert (Hd : exists d, init cx_locs (const_tensor [3]%nat 1) cx_logits
                         = Some d) by (eexists; reflexivity).
  destruct Hd as [d Hd]. exists d. split; [exact Hd |].
  destruct (log_prob_raises_iff_shape_mismatch 3 1 [] cx_locs
              (const_tensor [3]%nat 1) cx_logits (const_tensor [1]%nat 0) d
              eq_refl eq_refl eq_refl Hd) as (Hok & _ & _).
  destruct (log_prob_raises_iff_shape_mismatch 3 1 [] cx_locs
              (const_tensor [3]%nat 1) cx_logits (const_tensor [2]%nat 0) d
              eq_refl eq_refl eq_refl Hd) as (_ & _ & Hbad).
  split.
  - exact (Hok 1%nat [] 3%nat [] eq_refl eq_refl eq_refl).
  - exact (Hbad 2%nat [] eq_refl (or_introl eq_refl)).
Defined.

(** ** [rsample] followed by [backward] *)

Section SingleComponent.

Variables (D : nat) (bs ls : shape).
Variables (whiteR scaleR locsR pisR gR : index -> R).

(** The sample of a mixture with one component. *)
Definition single_z (i : index) : R :=
  locsR (ax 0 i :: 0%nat :: bidx bs (rest 1 i))
  + scaleR (ax 0 i :: bidx bs (rest 1 i)) * whiteR i.

Hypothesis scale_pos : forall i, in_range (D :: bs) i -> 0 < scaleR i.
Hypothesis pis_pos : forall i, in_range (1%nat :: bs) i -> 0 < pisR i.

Lemma single_eps (r : index) (x : nat) :
  in_range (bs ++ ls) r -> (x < D)%nat ->
  eps_spec bs single_z scaleR locsR r 0 x = whiteR (x :: r).
Proof.
  intros Hr Hx. unfold eps_spec, single_z, ax, rest. cbn [nth skipn].
  assert (0 < scaleR (x :: bidx bs r)).
  { apply scale_pos. split; [exact Hx |]. now apply in_range_bidx_prefix with ls. }
  field. lra.
Qed.

Lemma single_grad_locs (b : index) (x : nat) :
  in_range bs b ->
  grad_locs_spec D 0 bs ls single_z scaleR locsR pisR gR b 0 x
  = rmsum ls (fun l => gR (x :: b ++ l)).
Proof.
  intros Hb.
  rewrite <- (grad_locs_spec_sum D 0 bs ls single_z scaleR locsR pisR gR b x
                pis_pos Hb).
  cbn [rsum]. ring.
Qed.

Lemma single_grad_scale (b : index) (x : nat) :
  in_range bs b -> (x < D)%nat ->
  grad_scale_spec D 0 bs ls single_z scaleR locsR pisR gR b x
  = rmsum ls (fun l => gR (x :: b ++ l) * whiteR (x :: b ++ l)).
Proof.
  intros Hb Hx. unfold grad_scale_spec. apply rmsum_ext. intros l Hl.
  assert (Hr : in_range (bs ++ ls) (b ++ l)) by now apply in_range_app.
  cbn [rsum]. rewrite single_eps by assumption.
  rewrite <- (pref_spec_sum D 0 bs ls single_z scaleR locsR pisR gR
                (b ++ l) x pis_pos Hr).
  cbn [rsum]. ring.
Qed.

End SingleComponent.

(** X10: with a single component, [backward] returns the pathwise
    gradients of [z = locs + scale * white] with respect to [locs] and
    [scale]: when the saved sample is
    [locs[b,0,:] + scale[b,:] * white[l,b,:]], the locs gradient is the
    upstream gradient summed over the sample axes and the scale gradient
    is the sum of [grad_output * white].  Both are computed from the
    max-relative weights [q_j_prime], whose total is at least the weight
    of the component. *)
Theorem backward_single_component
    (D : nat) (bs ls : shape) (whiteR scaleR locsR pisR gR : index -> R)
    (ctx : saved) (g : tensor num) :
  (forall i, in_range (D :: bs) i -> 0 < scaleR i) ->
  (forall i, in_range (1%nat :: bs) i -> 0 < pisR i) ->
  agrees (s_z ctx) (D :: bs ++ ls)
         (fun i => Fin (single_z bs whiteR scaleR locsR i)) ->
  agrees (s_scale ctx) (D :: bs) (fun i => Fin (scaleR i)) ->
  agrees (s_locs ctx) (D :: 1%nat :: bs) (fun i => Fin (locsR i)) ->
  tshape (s_logits ctx) = 1%nat :: bs ->
  agrees (s_pis ctx) (1%nat :: bs) (fun i => Fin (pisR i)) ->
  agrees g (D :: bs ++ ls) (fun i => Fin (gR i)) ->
  exists gl gs glg,
    backward ctx g = Some (gl, gs, glg) /\
    forall b, in_range bs b ->
      (forall x, (x < D)%nat ->
         tdata gl (x :: 0%nat :: b) = Fin (rmsum ls (fun l => gR (x :: b ++ l))) /\
         tdata gs (x :: b)
         = Fin (rmsum ls (fun l => gR (x :: b ++ l) * whiteR (x :: b ++ l)))).
Proof.
  intros Hsp Hpp Hz Hsc Hml Hlg Hpis Hg.
  destruct (backward_locs_scale D 0 bs ls _ scaleR locsR pisR gR ctx g
              Hsp Hpp Hz Hsc Hml Hlg Hpis Hg)
    as (gl & gs & glg & E & Hl & Hs).
  exists gl, gs, glg. split; [exact E |].
  intros b Hb x Hx. split.
  - rewrite (agrees_data _ _ _ (x :: 0%nat :: b) Hl) by (simpl; auto with arith).
    unfold rest, ax. cbn [skipn nth]. f_equal.
    now apply single_grad_locs.
  - rewrite (agrees_data _ _ _ (x :: b) Hs) by (simpl; tauto).
    unfold rest, ax. cbn [skipn nth]. f_equal.
    now apply single_grad_scale.
Qed.

(** A context with one component: mean 3, scale 2, two draws with
    noise 1. *)
Definition one_ctx : saved :=
  mkSaved (mkT [1; 2]%nat
               (fun i => Fin (single_z [] (fun _ => 1) (fun _ => 2)
                                       (fun _ => 3) i)))
          (mkT [1]%nat (fun _ => Fin 2))
          (mkT [1; 1]%nat (fun _ => Fin 3))
          (mkT [1]%nat (fun _ => Fin 0))
          (mkT [1]%nat (fun _ => Fin 1)).

Lemma backward_single_component_witness :
  exists gl gs glg,
    backward one_ctx (mkT [1; 2]%nat (fun _ => Fin 1)) = Some (gl, gs, glg) /\
    tdata gl [0; 0]%nat = Fin (rmsum [2%nat] (fun l => 1)) /\
    tdata gs [0%nat] = Fin (rmsum [2%nat] (fun l => 1 * 1)).
Proof.
  destruct (backward_single_component 1 [] [2%nat] (fun _ => 1) (fun _ => 2)
              (fun _ => 3) (fun _ => 1) (fun _ => 1)
              one_ctx (mkT [1; 2]%nat (fun _ => Fin 1))
              (fun _ _ => Rlt_0_2) (fun _ _ => Rlt_0_1)
              (agrees_self _ _) (agrees_self _ _) (agrees_self _ _) eq_refl
              (agrees_self _ _) (agrees_self _ _))
    as (gl & gs & glg & E & H).
  exists gl, gs, glg. split; [exact E |].
  exact (H [] I 0%nat Nat.lt_0_1).
Defined.

(** X11: [backward] accepts what [rsample] saves.  For a distribution
    built by the constructor from finite parameters with a positive
    scale, a draw with the default sample shape and valid component
    indices, and an upstream gradient of the sample's shape, [rsample]
    followed by [backward] does not raise, and the three gradients have
    the shapes of [locs], [scale] and [logits]; the gradients of [locs]
    and [scale] are finite numbers. *)
Theorem rsample_then_backward
    (D K' : nat) (bs : shape)
    (locsR scaleR logitsR noiseR gR : index -> R) (which_data : index -> nat)
    (ml sc lg g : tensor num) (d : dist) :
  (forall i, in_range (D :: bs) i -> 0 < scaleR i) ->
  agrees ml (D :: S K' :: bs) (fun i => Fin (locsR i)) ->
  agrees sc (D :: bs) (fun i => Fin (scaleR i)) ->
  agrees lg (S K' :: bs) (fun i => Fin (logitsR i)) ->
  init ml sc lg = Some d ->
  (forall b, in_range bs b -> (which_data b < S K')%nat) ->
  agrees g (D :: bs) (fun i => Fin (gR i)) ->
  exists z ctx gl gs glg,
    rsample d [] which_data (fun i => Fin (noiseR i)) = Some (z, ctx) /\
    backward ctx g = Some (gl, gs, glg) /\
    tshape gl = tshape ml /\ tshape gs = tshape sc /\ tshape glg = tshape lg /\
    (forall i, in_range (tshape ml) i -> is_finite (tdata gl i)) /\
    (forall i, in_range (tshape sc) i -> is_finite (tdata gs i)).
Proof.
  intros Hsp Hml Hsc Hlg Hd Hlt Hg.
  destruct (init_fields _ _ _ _ Hd) as (_ & _ & _ & _ & El & Es & Eg & _).
  pose proof (probs_agrees K' bs logitsR ml sc lg d Hlg Hd) as Hp.
  destruct (forward_no_sample_axis D (S K') _ _ (fun i => Fin (noiseR i))
              which_data ml sc lg (probs d) (mkT bs which_data) bs
              Hml Hsc (agrees_self _ _) Hlt) as (z & Ez & Hz).
  set (ctx := mkSaved z sc ml lg (probs d)) in *.
  set (zR := fun i : index =>
               locsR (ax 0 i :: which_data (rest 1 i) :: bidx bs (rest 1 i))
               + scaleR (ax 0 i :: bidx bs (rest 1 i)) * noiseR i).
  set (pisR := fun i : index => weightsR K' logitsR (tl i) (hd 0%nat i)).
  assert (Hz' : agrees (s_z ctx) (D :: bs ++ []) (fun i => Fin (zR i))).
  { rewrite app_nil_r. apply (agrees_ext _ _ _ _ Hz). intros i _. reflexivity. }
  assert (Hp' : agrees (s_pis ctx) (S K' :: bs) (fun i => Fin (pisR i))).
  { apply (agrees_ext _ _ _ _ Hp). intros i Hi. dest_idx i Hi. reflexivity. }
  assert (Hg' : agrees g (D :: bs ++ []) (fun i => Fin (gR i)))
    by now rewrite app_nil_r.
  destruct (backward_run_ok D K' bs [] zR scaleR locsR pisR gR ctx g Hsp)
    as (L & EL & Hgl & Hgs & Hgg & _);
    try assumption.
  { intros i Hi. apply weightsR_pos. }
  { exact (agrees_shape _ _ _ Hlg). }
  exists z, ctx, (locs_grad L), (scale_grad L), (logits_grad L).
  split.
  { unfold rsample. rewrite El, Es, Eg.
    rewrite (agrees_shape _ _ _ Hsc), (agrees_shape _ _ _ Hlg). cbn [tl].
    rewrite !app_nil_r. exact Ez. }
  split; [unfold backward; rewrite EL; reflexivity |].
  rewrite (agrees_shape _ _ _ Hml), (agrees_shape _ _ _ Hsc),
    (agrees_shape _ _ _ Hlg).
  split; [exact (agrees_shape _ _ _ Hgl) |].
  split; [exact (agrees_shape _ _ _ Hgs) |].
  split; [exact (agrees_shape _ _ _ Hgg) |].
  split; intros i Hi.
  - rewrite (agrees_data _ _ _ i Hgl Hi). exact I.
  - rewrite (agrees_data _ _ _ i Hgs Hi). exact I.
Qed.

Lemma rsample_then_backward_witness :
  exists d z ctx gl gs glg,
    init sc_locs sc_scale sc_logits = Some d /\
    rsample d [] (fun _ => 1%nat) (fun i => Fin 0) = Some (z, ctx) /\
    backward ctx gx_g = Some (gl, gs, glg) /\
    tshape gl = [1; 2]%nat /\ tshape gs = [1]%nat /\ tshape glg = [2]%nat.
Proof.
  destruct sc_init as [d Hd]. exists d.
  destruct (rsample_then_backward 1 1 [] sc_locsR (fun _ => 1) (fun _ => 0)
              (fun _ => 0) gx_one (fun _ => 1%nat)
              sc_locs sc_scale sc_logits gx_g d
              sc_scale_pos sc_agrees_locs (sc_agrees_const _ _)
              (sc_agrees_const _ _) Hd
              (fun _ _ => Nat.lt_succ_diag_r 1) (gx_agrees _ _))
    as (z & ctx & gl & gs & glg & Ez & Eb & H1 & H2 & H3 & _).
  exists z, ctx, gl, gs, glg.
  split; [exact Hd |]. split; [exact Ez |]. split; [exact Eb |].
  split; [exact H1 |]. split; [exact H2 | exact H3].
Defined.

(** ** [rsample] followed by [log_prob] *)

Lemma exp_le_inv (x y : R) : exp x <= exp y -> x <= y.
Proof.
  intros H. destruct (Rle_or_lt x y) as [Hle | Hlt]; [exact Hle |].
  apply exp_increasing in Hlt. lra.
Qed.

(** The mixture density is at least the weighted density of any one
    component. *)
Lemma mixture_density_ge_component (D K' : nat) (bs vt : shape) (vD : nat)
    (locsR scaleR logitsR valueR : index -> R) (r : index) (j : nat) :
  (forall i, in_range (D :: bs) i -> 0 < scaleR i) ->
  in_range bs (bidx bs r) -> (j < S K')%nat ->
  weightsR K' logitsR (bidx bs r) j
  * rprod D (fun x => normal_pdf (locsR (x :: j :: bidx bs r))
                                 (scaleR (x :: bidx bs r))
                                 (lp_value vt vD valueR r x))
  <= mixture_density D K' bs vt vD locsR scaleR logitsR valueR r.
Proof.
  intros Hpos Hb Hj. unfold mixture_density.
  apply (rsum_ge_term (S K')
           (fun k => weightsR K' logitsR (bidx bs r) k
                     * rprod D (fun x =>
                                  normal_pdf (locsR (x :: k :: bidx bs r))
                                             (scaleR (x :: bidx bs r))
                                             (lp_value vt vD valueR r x))) j);
    [| exact Hj].
  intros k _. apply Rlt_le, Rmult_lt_0_compat; [apply weightsR_pos |].
  rewrite rprod_normal_pdf by (intros x Hx; apply Hpos; simpl; tauto).
  apply exp_pos.
Qed.

(** X14: [log_prob] accepts what [rsample] returns.  For a distribution
    built by the constructor from finite parameters with a positive
    scale (any batch shape) and a draw with the default sample shape,
    [log_prob] of the sample does not raise, the result has the batch
    shape, and its value at [b] lies between the log-density
    contributed by the component that was drawn,
    [log(weights[b,which[b]]) - 0.5 * sum_d white[b,d]^2 - sum_d
    log(scale[b,d]) - D/2 * log(2*pi)], and the log-density at a mode. *)
Theorem rsample_then_log_prob
    (D K' : nat) (bs : shape)
    (locsR scaleR logitsR noiseR : index -> R) (which_data : index -> nat)
    (ml sc lg : tensor num) (d : dist) :
  (forall i, in_range (D :: bs) i -> 0 < scaleR i) ->
  agrees ml (D :: S K' :: bs) (fun i => Fin (locsR i)) ->
  agrees sc (D :: bs) (fun i => Fin (scaleR i)) ->
  agrees lg (S K' :: bs) (fun i => Fin (logitsR i)) ->
  init ml sc lg = Some d ->
  (forall b, in_range bs b -> (which_data b < S K')%nat) ->
  exists z ctx res,
    rsample d [] which_data (fun i => Fin (noiseR i)) = Some (z, ctx) /\
    log_prob d z = Some res /\
    tshape res = batch_shape d /\
    forall b, in_range bs b ->
      exists v, tdata res b = Fin v /\
                ln (weightsR K' logitsR b (which_data b))
                - 1 / 2 * rsum D (fun x => noiseR (x :: b) * noiseR (x :: b))
                + peak_log_density D bs scaleR b <= v /\
                v <= peak_log_density D bs scaleR b.
Proof.
  intros Hsp Hml Hsc Hlg Hd Hlt.
  destruct (init_fields _ _ _ _ Hd) as (_ & _ & _ & _ & El & Es & Eg & _).
  destruct (init_batch_shape D (S K') bs ml sc lg d (agrees_shape _ _ _ Hml) Hd)
    as [Hbs _].
  destruct (forward_no_sample_axis D (S K') _ _ (fun i => Fin (noiseR i))
              which_data ml sc lg (probs d) (mkT bs which_data) bs
              Hml Hsc (agrees_self _ _) Hlt) as (z & Ez & Hz).
  set (zR := fun i : index =>
               locsR (ax 0 i :: which_data (rest 1 i) :: bidx bs (rest 1 i))
               + scaleR (ax 0 i :: bidx bs (rest 1 i)) * noiseR i).
  assert (Hz' : agrees z (D :: bs) (fun i => Fin (zR i))).
  { apply (agrees_ext _ _ _ _ Hz). intros i _. reflexivity. }
  destruct (log_prob_general D K' bs bs bs D locsR scaleR logitsR zR
              (bshape_refl bs) (bdim_refl D) Hsp ml sc lg z d
              Hml Hsc Hlg Hz' Hd) as (res & Er & Hres).
  exists z, (mkSaved z sc ml lg (probs d)), res.
  split.
  { unfold rsample. rewrite El, Es, Eg.
    rewrite (agrees_shape _ _ _ Hsc), (agrees_shape _ _ _ Hlg). cbn [tl].
    rewrite !app_nil_r. exact Ez. }
  split; [exact Er |].
  split; [rewrite Hbs; exact (agrees_shape _ _ _ Hres) |].
  intros b Hb. eexists. split; [exact (agrees_data _ _ _ b Hres Hb) |].
  split; [| apply log_prob_spec_upper; exact Hsp].
  apply exp_le_inv.
  assert (Hbb : in_range bs (bidx bs b)) by now rewrite bidx_in_range.
  rewrite (log_prob_spec_density D K' bs bs D locsR scaleR logitsR zR Hsp b Hbb).
  eapply Rle_trans;
    [| apply (mixture_density_ge_component D K' bs bs D locsR scaleR logitsR zR
                b (which_data b) Hsp Hbb (Hlt b Hb))].
  rewrite rprod_normal_pdf
    by (intros x Hx; apply Hsp; simpl; tauto).
  rewrite (bidx_in_range bs b Hb).
  pose proof (weightsR_pos K' logitsR b (which_data b)) as Hw.
  rewrite <- (exp_ln (weightsR K' logitsR b (which_data b))) at 2 by exact Hw.
  rewrite <- exp_plus. apply Req_le. f_equal.
  unfold peak_log_density. rewrite (bidx_in_range bs b Hb).
  rewrite (rsum_ext D
             (fun x => (lp_value bs D zR b x - locsR (x :: which_data b :: b))
                       / scaleR (x :: b)
                       * ((lp_value bs D zR b x - locsR (x :: which_data b :: b))
                          / scaleR (x :: b)))
             (fun x => noiseR (x :: b) * noiseR (x :: b))).
  - lra.
  - intros x Hx.
    assert (Hs : 0 < scaleR (x :: b)) by (apply Hsp; simpl; tauto).
    unfold lp_value. rewrite (bix_lt D x Hx), (bidx_in_range bs b Hb).
    unfold zR, ax, rest. cbn [nth skipn]. rewrite (bidx_in_range bs b Hb).
    field. lra.
Qed.

Lemma rsample_then_log_prob_witness :
  exists d z ctx res,
    init sc_locs sc_scale sc_logits = Some d /\
    rsample d [] (fun _ => 1%nat) (fun i => Fin 0) = Some (z, ctx) /\
    log_prob d z = Some res /\
    tshape res = batch_shape d.
Proof.
  destruct sc_init as [d Hd]. exists d.
  destruct (rsample_then_log_prob 1 1 [] sc_locsR (fun _ => 1) (fun _ => 0)
              (fun _ => 0) (fun _ => 1%nat)
              sc_locs sc_scale sc_logits d
              sc_scale_pos sc_agrees_locs (sc_agrees_const _ _)
              (sc_agrees_const _ _) Hd
              (fun _ _ => Nat.lt_succ_diag_r 1))
    as (z & ctx & res & Ez & Er & Hs & _).
  exists z, ctx, res.
  split; [exact Hd |]. split; [exact Ez |]. split; [exact Er | exact Hs].
Defined.

(** * [log_prob] when the exponential has a limited range

    In a floating-point format [torch.exp] returns 0 below the logarithm
    of the smallest positive number and [+inf] above the logarithm of
    the largest one.  This part reads [log_prob] and the softmax of the
    constructor with such an exponential; all other arithmetic stays
    exact, so rounding is still not modelled. *)

(** [torch.exp] with underflow below [lo] and overflow above [hi]
    (about [-745] and [709] in binary64, [-104] and [88] in float32). *)
Definition fexp (lo hi : R) (x : num) : num :=
  match x with
  | Fin r =>
      if Rlt_dec r lo then Fin 0
      else if Rlt_dec hi r then PInf
           else Fin (exp r)
  | PInf => PInf
  | NInf => Fin 0
  | NaN => NaN
  end.

(** The value of [fexp] on a real that does not overflow. *)
Definition fexpR (lo : R) (r : R) : R :=
  if Rlt_dec r lo then 0 else exp r.

(** The largest of [n] numbers, [-inf] for none. *)
Fixpoint nmax (n : nat) (f : nat -> num) : num :=
  match n with
  | O => NInf
  | S m => Num.max (nmax m f) (f m)
  end.

(** [torch.distributions.Categorical(logits=...).probs] with the
    exponential [ex]: torch's softmax takes every exponential relative
    to the largest logit of the row.  Logits of rank 0 are refused. *)
Definition categorical_probs_with (ex : num -> num) (logits : tensor num)
  : option (tensor num) :=
  if (rank logits =? 0)%nat then None
  else
    let K := hd 0%nat (tshape logits) in
    let e (i : index) (k : nat) : num :=
      ex (Num.sub (tdata logits (k :: tl i))
                  (nmax K (fun j => tdata logits (j :: tl i)))) in
    Some (mkT (tshape logits)
              (fun i => Num.div (e i (hd 0%nat i)) (nsum K (e i)))).

(** [MixtureOfDiagNormalsSharedCovariance.__init__] with the exponential
    [ex] inside the softmax. *)
Definition init_with (ex : num -> num) (locs scale logits : tensor num)
  : option dist :=
  let batch_mode := (2 <? rank locs)%nat in
  _ <- assert (batch_mode || (rank locs =? 2)%nat) ;;
  batch_shape <-
    (if negb batch_mode then
       _ <- assert (rank scale =? 1)%nat ;;
       _ <- assert (rank logits =? 1)%nat ;;
       _ <- assert (opt_eqb (size_front logits 0) (size_front locs 0)) ;;
       Some []
     else
       _ <- assert (1 <? rank scale)%nat ;;
       _ <- assert (1 <? rank logits)%nat ;;
       _ <- assert (opt_eqb (size logits 0) (size locs 1)) ;;
       Some (skipn 2 (tshape locs))) ;;
  dim <- size locs 0 ;;
  probs <- categorical_probs_with ex logits ;;
  Some (mkDist batch_mode locs scale logits dim probs batch_shape [dim]).

(** [log_prob] with the exponential [ex] on line 53. *)
Definition log_prob_run_with (ex : num -> num) (d : dist) (value : tensor num)
  : option log_prob_locals :=
  scale' <- (if batch_mode d then T.unsqueeze 1 (scale d) else Some (scale d)) ;;
  v <- T.unsqueeze 1 value ;;
  diff <- T.sub v (locs d) ;;
  epsilon <- T.div diff scale' ;;
  ssq <- T.sum 0 (T.pow2 epsilon) ;;
  let eps_sqr := T.smul (1 / 2) ssq in
  eps_sqr_min <- T.min 0 eps_sqr ;;
  m <- T.unsqueeze 0 eps_sqr_min ;;
  e <- T.add (T.neg eps_sqr) m ;;
  terms <- T.mul (probs d) (T.map ex e) ;;
  tot <- T.sum 0 terms ;;
  let result := T.log tot in
  let result :=
    T.map (fun x => Num.sub x (Fin (1 / 2 * ln (2 * PI) * INR (dim d)))) result in
  lsc <- T.sum 0 (T.log (scale d)) ;;
  result <- T.sub_ result lsc ;;
  result <- T.sub_ result eps_sqr_min ;;
  Some (mkLP eps_sqr eps_sqr_min e tot result).

Definition log_prob_with (ex : num -> num) (d : dist) (value : tensor num)
  : option (tensor num) :=
  option_map lp_result (log_prob_run_with ex d value).

(** With the exact exponential this is [log_prob]. *)
Lemma log_prob_run_with_exact (d : dist) (value : tensor num) :
  log_prob_run_with Num.exp d value = log_prob_run d value.
Proof. reflexivity. Qed.

(** ** The exponential *)

Lemma fexp_fin (lo hi r : R) :
  r <= hi -> fexp lo hi (Fin r) = Fin (fexpR lo r).
Proof.
  intros Hr. unfold fexp, fexpR.
  destruct (Rlt_dec r lo); [reflexivity |].
  destruct (Rlt_dec hi r); [lra | reflexivity].
Qed.

Lemma fexpR_range (lo r : R) : r <= 0 -> 0 <= fexpR lo r <= 1.
Proof.
  intros Hr. unfold fexpR. destruct (Rlt_dec r lo); [lra |].
  split; [apply Rlt_le, exp_pos |].
  rewrite <- exp_0. destruct Hr as [Hlt | ->]; [| lra].
  apply Rlt_le, exp_increasing, Hlt.
Qed.

Lemma fexpR_0 (lo : R) : lo < 0 -> fexpR lo 0 = 1.
Proof.
  intros Hlo. unfold fexpR. destruct (Rlt_dec 0 lo); [lra | apply exp_0].
Qed.

Lemma fexpR_underflow (lo r : R) : r < lo -> fexpR lo r = 0.
Proof.
  intros Hr. unfold fexpR. destruct (Rlt_dec r lo); [reflexivity | lra].
Qed.
(** ** The softmax *)

Lemma nmax_fin (n : nat) (g : nat -> R) :
  nmax (S n) (fun k => Fin (g k)) = Fin (rfold Rmax n g).
Proof.
  induction n as [| n IH]; [reflexivity |].
  change (nmax (S (S n)) (fun k => Fin (g k)))
    with (Num.max (nmax (S n) (fun k => Fin (g k))) (Fin (g (S n)))).
  rewrite IH. reflexivity.
Qed.

Lemma nmax_ext (n : nat) (f g : nat -> num) :
  (forall k, (k < n)%nat -> f k = g k) -> nmax n f = nmax n g.
Proof.
  induction n as [| n IH]; intros H; simpl; [reflexivity |].
  rewrite IH by (intros; apply H; lia). rewrite H by lia. reflexivity.
Qed.

Section Softmax.

Variables (lo hi : R) (K' : nat) (logitsR : index -> R).
Hypothesis lo_neg : lo < 0.
Hypothesis hi_pos : 0 < hi.

(** The largest logit of a row, and the weights the softmax returns. *)
Definition logit_max (b : index) : R :=
  rfold Rmax K' (fun j => logitsR (j :: b)).

Definition fweight_num (b : index) (k : nat) : R :=
  fexpR lo (logitsR (k :: b) - logit_max b).

Definition fweights (b : index) (k : nat) : R :=
  fweight_num b k / rsum (S K') (fweight_num b).

Lemma fweight_num_range (b : index) (k : nat) :
  (k < S K')%nat -> 0 <= fweight_num b k <= 1.
Proof.
  intros Hk. apply fexpR_range.
  pose proof (rfold_max_ge K' (fun j => logitsR (j :: b)) k ltac:(lia)) as H.
  cbv beta in H. unfold logit_max. lra.
Qed.

Lemma fweight_total_ge_1 (b : index) : 1 <= rsum (S K') (fweight_num b).
Proof.
  destruct (rfold_max_attained K' (fun j => logitsR (j :: b))) as (k & Hk & Hmax).
  cbv beta in Hmax.
  eapply Rle_trans; [| apply (rsum_ge_term (S K') (fweight_num b) k)].
  - unfold fweight_num, logit_max. rewrite Hmax.
    replace (logitsR (k :: b) - logitsR (k :: b)) with 0 by lra.
    rewrite fexpR_0 by exact lo_neg. lra.
  - intros j Hj. apply fweight_num_range, Hj.
  - lia.
Qed.

Lemma fweights_range (b : index) (k : nat) :
  (k < S K')%nat -> 0 <= fweights b k <= 1.
Proof.
  intros Hk. pose proof (fweight_total_ge_1 b) as Ht.
  pose proof (fweight_num_range b k Hk) as Hn.
  pose proof (rsum_ge_term (S K') (fweight_num b) k
                (fun j Hj => proj1 (fweight_num_range b j Hj)) Hk) as Hle.
  unfold fweights. split.
  - apply Rmult_le_pos; [lra |]. apply Rlt_le, Rinv_0_lt_compat. lra.
  - apply (Rmult_le_reg_r (rsum (S K') (fweight_num b))); [lra |].
    unfold Rdiv. rewrite Rmult_assoc, Rinv_l by lra. lra.
Qed.

Lemma fweights_sum (b : index) : rsum (S K') (fweights b) = 1.
Proof.
  pose proof (fweight_total_ge_1 b) as Ht.
  unfold fweights.
  rewrite (rsum_div (rsum (S K') (fweight_num b)) (S K') (fweight_num b)).
  field. lra.
Qed.

Lemma categorical_probs_with_ok (bs : shape) (lg : tensor num) :
  agrees lg (S K' :: bs) (fun i => Fin (logitsR i)) ->
  exists p, categorical_probs_with (fexp lo hi) lg = Some p /\
            agrees p (S K' :: bs)
                   (fun i => Fin (fweights (tl i) (hd 0%nat i))).
Proof.
  intros [Hs Hd]. unfold categorical_probs_with, rank. rewrite Hs.
  cbn [length Nat.eqb hd]. eexists. split; [reflexivity |].
  split; [reflexivity |].
  intros [| k b] Hi; [simpl in Hi; tauto |]. destruct Hi as [Hk Hb].
  cbn [tdata hd tl].
  assert (Hmax : nmax (S K') (fun j => tdata lg (j :: b)) = Fin (logit_max b)).
  { rewrite (nmax_ext _ _ (fun j => Fin (logitsR (j :: b)))).
    - apply nmax_fin.
    - intros j Hj. apply Hd. simpl. tauto. }
  rewrite Hmax.
  assert (He : forall j, (j < S K')%nat ->
             fexp lo hi (Num.sub (tdata lg (j :: b)) (Fin (logit_max b)))
             = Fin (fweight_num b j)).
  { intros j Hj. rewrite Hd by (simpl; tauto).
    cbn [Num.sub Num.neg Num.add].
    replace (logitsR (j :: b) + - logit_max b)
      with (logitsR (j :: b) - logit_max b) by lra.
    apply fexp_fin.
    pose proof (rfold_max_ge K' (fun i => logitsR (i :: b)) j ltac:(lia)) as H.
    cbv beta in H. unfold logit_max. lra. }
  rewrite (nsum_fin_ext (S K') _ (fweight_num b) He).
  rewrite He by exact Hk.
  apply div_fin. pose proof (fweight_total_ge_1 b). lra.
Qed.

End Softmax.

(** The fields the constructor sets. *)
Lemma init_with_fields (ex : num -> num) (ml sc lg : tensor num) (d : dist) :
  init_with ex ml sc lg = Some d ->
  batch_mode d = (2 <? rank ml)%nat /\
  batch_shape d = spec_batch_shape ml /\
  size ml 0 = Some (dim d) /\
  event_shape d = [dim d] /\
  locs d = ml /\ scale d = sc /\ logits d = lg /\
  categorical_probs_with ex lg = Some (probs d).
Proof.
  unfold init_with, spec_batch_shape.
  destruct (assert _); [| discriminate]. cbn [bind].
  destruct (2 <? rank ml)%nat; cbn [negb];
    repeat (destruct (assert _); [| discriminate]; cbn [bind]);
    (destruct (size ml 0) as [D |]; [| discriminate]); cbn [bind];
    (destruct (categorical_probs_with ex lg) as [p |]; [| discriminate]);
    cbn [bind];
    intros [= <-]; cbn; repeat split; reflexivity.
Qed.

(** The constructor accepts the same parameters whatever the
    exponential. *)
Lemma init_with_some_iff (ex : num -> num) (ml sc lg : tensor num) :
  (exists d, init_with ex ml sc lg = Some d) <->
  (exists d, init ml sc lg = Some d).
Proof.
  unfold init_with, init.
  destruct (assert _); cbn [bind]; [| split; intros [d H]; discriminate].
  assert (Hp : (0 < rank lg)%nat ->
               (exists p, categorical_probs_with ex lg = Some p) /\
               (exists p, categorical_probs lg = Some p)).
  { intros Hr. split; [| now apply categorical_probs_some].
    unfold categorical_probs_with.
    destruct (Nat.eqb_spec (rank lg) 0); [lia | eauto]. }
  destruct (2 <? rank ml)%nat; cbn [negb].
  - destruct (assert (1 <? rank sc)%nat); cbn [bind];
      [| split; intros [d H]; discriminate].
    destruct (Nat.ltb_spec 1 (rank lg)) as [Hl | Hl]; cbn [assert bind];
      [| split; intros [d H]; discriminate].
    destruct (assert _); cbn [bind]; [| split; intros [d H]; discriminate].
    destruct (size ml 0); cbn [bind]; [| split; intros [d H]; discriminate].
    destruct (Hp ltac:(lia)) as [[p Ep] [q Eq]]. rewrite Ep, Eq. cbn [bind].
    split; intros _; eauto.
  - destruct (assert (rank sc =? 1)%nat); cbn [bind];
      [| split; intros [d H]; discriminate].
    destruct (Nat.eqb_spec (rank lg) 1) as [Hl | Hl]; cbn [assert bind];
      [| split; intros [d H]; discriminate].
    destruct (assert _); cbn [bind]; [| split; intros [d H]; discriminate].
    destruct (size ml 0); cbn [bind]; [| split; intros [d H]; discriminate].
    destruct (Hp ltac:(lia)) as [[p Ep] [q Eq]]. rewrite Ep, Eq. cbn [bind].
    split; intros _; eauto.
Qed.
(** With the exact exponential the softmax relative to the largest
    logit returns the weights of [categorical_probs]. *)
Lemma categorical_probs_with_exact (K' : nat) (bs : shape)
    (logitsR : index -> R) (lg : tensor num) :
  agrees lg (S K' :: bs) (fun i => Fin (logitsR i)) ->
  exists p, categorical_probs_with Num.exp lg = Some p /\
            agrees p (S K' :: bs)
                   (fun i => Fin (weightsR K' logitsR (tl i) (hd 0%nat i))).
Proof.
  intros [Hs Hd]. unfold categorical_probs_with, rank. rewrite Hs.
  cbn [length Nat.eqb hd]. eexists. split; [reflexivity |].
  split; [reflexivity |].
  intros [| k b] Hi; [simpl in Hi; tauto |]. destruct Hi as [Hk Hb].
  cbn [tdata hd tl].
  set (m := rfold Rmax K' (fun j => logitsR (j :: b))).
  assert (Hmax : nmax (S K') (fun j => tdata lg (j :: b)) = Fin m).
  { rewrite (nmax_ext _ _ (fun j => Fin (logitsR (j :: b)))).
    - apply nmax_fin.
    - intros j Hj. apply Hd. simpl. tauto. }
  rewrite Hmax.
  assert (He : forall j, (j < S K')%nat ->
             Num.exp (Num.sub (tdata lg (j :: b)) (Fin m))
             = Fin (exp (logitsR (j :: b)) / exp m)).
  { intros j Hj. rewrite Hd by (simpl; tauto).
    cbn [Num.sub Num.neg Num.add Num.exp]. f_equal.
    rewrite exp_plus, exp_Ropp. reflexivity. }
  rewrite (nsum_fin_ext (S K') _ _ He), (He k Hk).
  rewrite (rsum_div (exp m) (S K') (fun j => exp (logitsR (j :: b)))).
  pose proof (exp_pos m) as Hm.
  assert (Hsum : 0 < rsum (S K') (fun j => exp (logitsR (j :: b))))
    by (apply rsum_pos; [lia | intros; apply exp_pos]).
  rewrite div_fin.
  - f_equal. unfold weightsR. field. lra.
  - apply Rgt_not_eq. apply Rdiv_lt_0_compat; lra.
Qed.

(** ** [log_prob] on arbitrary numbers *)

Section LogProbRange.

Variables (ex : num -> num).
Variables (D K' : nat) (bs vt os : shape) (vD : nat).
Variables (scaleR : index -> R).
Variables (d : dist) (value : tensor num).

Hypothesis Hos : bshape vt bs = Some os.
Hypothesis HvD : bdim vD D = Some D.
Hypothesis scale_pos : forall i, in_range (D :: bs) i -> 0 < scaleR i.
Hypothesis Hbm : batch_mode d = (2 <? rank (locs d))%nat.
Hypothesis Hml : tshape (locs d) = D :: S K' :: bs.
Hypothesis Hsc : agrees (scale d) (D :: bs) (fun i => Fin (scaleR i)).
Hypothesis Hpr : tshape (probs d) = S K' :: bs.
Hypothesis Hvalue : tshape value = vD :: vt.

(** The contents of the local variables, as numbers: [eps_sqr] on line
    51, its minimum on line 52, the argument of the exponential and the
    sum on lines 53 and 54, and the result. *)
Definition rg_epsilon (r : index) (k x : nat) : num :=
  Num.div (Num.sub (tdata value (bix vD x :: bidx vt r))
                   (tdata (locs d) (x :: k :: bidx bs r)))
          (Fin (scaleR (x :: bidx bs r))).

Definition rg_eps_sqr (r : index) (k : nat) : num :=
  Num.mul (Fin (1 / 2)) (nsum D (fun x => Num.sq (rg_epsilon r k x))).

Definition rg_min (r : index) : num := nfold Num.min K' (rg_eps_sqr r).

Definition rg_exponent (r : index) (k : nat) : num :=
  Num.add (Num.neg (rg_eps_sqr r k)) (rg_min r).

Definition rg_total (r : index) : num :=
  nsum (S K') (fun k => Num.mul (tdata (probs d) (k :: bidx bs r))
                                (ex (rg_exponent r k))).

Definition rg_log_scale (b : index) : R :=
  rsum D (fun x => ln (scaleR (x :: b))).

Definition rg_result (r : index) : num :=
  Num.sub
    (Num.sub
       (Num.sub (Num.log (rg_total r))
                (Fin (1 / 2 * ln (2 * PI) * INR (dim d))))
       (Fin (rg_log_scale (bidx bs r))))
    (rg_min r).

Lemma rg_batch_in_range (r : index) : in_range os r -> in_range bs (bidx bs r).
Proof. intros Hr. exact (proj2 (bshape_in_range _ _ _ _ Hos Hr)). Qed.

Lemma rg_epsilon_ok :
  exists eps,
    (scale' <- (if batch_mode d then T.unsqueeze 1 (scale d) else Some (scale d)) ;;
     v <- T.unsqueeze 1 value ;;
     diff <- T.sub v (locs d) ;;
     T.div diff scale') = Some eps /\
    agrees eps (D :: S K' :: os)
           (fun i => match i with
                     | x :: k :: r => rg_epsilon r k x
                     | _ => Fin 0
                     end).
Proof.
  pose proof (agrees_of_shape _ _ Hml) as Hmla.
  pose proof (agrees_of_shape _ _ Hvalue) as Hva.
  rewrite Hbm. unfold rank. rewrite Hml.
  assert (Hscale' : exists s' ss f,
            (if (2 <? length (D :: S K' :: bs))%nat
             then T.unsqueeze 1 (scale d) else Some (scale d)) = Some s' /\
            agrees s' ss f /\
            bshape (D :: S K' :: os) ss = Some (D :: S K' :: os) /\
            forall x k r, (x < D)%nat -> in_range os r ->
                          f (bidx ss (x :: k :: r)) = Fin (scaleR (x :: bidx bs r))).
  { destruct bs as [| b0 bs'] eqn:Hbs.
    - exists (scale d), [D], (fun i => Fin (scaleR i)).
      split; [reflexivity |]. split; [exact Hsc |]. split; [shape_tac |].
      intros x k r Hx Hr. idx_norm. reflexivity.
    - cbn [length Nat.ltb Nat.leb].
      step (unsqueeze_ok 1 _ _ _ Hsc) s'; [simpl; lia |].
      exists s', (D :: 1%nat :: b0 :: bs'), (fun i => Fin (scaleR (remove_at 1 i))).
      split; [reflexivity |]. split; [exact Hs' |]. split.
      + apply bshape_cons; [apply bdim_refl |].
        apply bshape_cons; [apply bdim_1_r |].
        now apply bshape_absorb_r with (a := vt).
      + intros x k r Hx Hr. rewrite !bidx_cons. idx_norm. reflexivity. }
  destruct Hscale' as (s' & ss & f & Es' & Hs' & Hss & Hread).
  rewrite Es'. cbn [bind].
  step (unsqueeze_ok 1 _ _ _ Hva) v; [simpl; lia |].
  step (bop_ok Num.sub _ _ _ _ (D :: S K' :: os) _ _ Hv Hmla) diff.
  { apply bshape_cons; [exact HvD |]. apply bshape_cons; [apply bdim_1_l |].
    exact Hos. }
  step (bop_ok Num.div _ _ _ _ (D :: S K' :: os) _ _ Hdiff Hs') eps; [exact Hss |].
  exists eps. split; [reflexivity |].
  apply (agrees_ext _ _ _ _ Heps). intros i Hi. dest_idx i Hi.
  rewrite Hread by assumption. idx_norm.
  reflexivity.
Qed.
(** What [log_prob] holds in its local variables when it returns. *)
Lemma log_prob_run_with_ok :
  exists L,
    log_prob_run_with ex d value = Some L /\
    agrees (lp_eps_sqr L) (S K' :: os)
           (fun i => rg_eps_sqr (tl i) (hd 0%nat i)) /\
    agrees (lp_eps_sqr_min L) os rg_min /\
    agrees (lp_exponent L) (S K' :: os)
           (fun i => rg_exponent (tl i) (hd 0%nat i)) /\
    agrees (lp_total L) os rg_total /\
    agrees (lp_result L) os rg_result.
Proof.
  destruct rg_epsilon_ok as (eps & Eeps & Heps).
  unfold log_prob_run_with. revert Eeps.
  repeat match goal with
         | |- (bind ?m _ = Some _) -> _ =>
             destruct m eqn:?; cbn [bind]; [| discriminate]
         end.
  intros Eeps. rewrite Eeps. cbn [bind].
  pose proof (map_ok Num.sq _ _ _ Heps) as Hsq.
  step (sum_ok 0 D _ _ _ Hsq eq_refl) ssq.
  pose proof (map_ok (Num.mul (Fin (1 / 2))) _ _ _ Hssq) as Hes.
  clean Hes (fun i => rg_eps_sqr (tl i) (hd 0%nat i)).
  step (reduce_ok Num.min 0 K' _ _ _ Hes eq_refl) emin.
  clean Hemin rg_min.
  step (unsqueeze_ok 0 _ _ _ Hemin) m; [simpl; lia |].
  pose proof (map_ok Num.neg _ _ _ Hes) as Hneg.
  step (bop_ok Num.add _ _ _ _ (S K' :: os) _ _ Hneg Hm) e; [shape_tac |].
  clean He (fun i => rg_exponent (tl i) (hd 0%nat i)).
  pose proof (map_ok ex _ _ _ He) as Hexp.
  pose proof (agrees_of_shape _ _ Hpr) as Hp.
  step (bop_ok Num.mul _ _ _ _ (S K' :: os) _ _ Hp Hexp) terms.
  { apply bshape_cons; [apply bdim_refl |].
    rewrite bshape_comm. exact (bshape_absorb_r _ _ _ Hos). }
  clean Hterms (fun i => Num.mul (tdata (probs d) (hd 0%nat i :: bidx bs (tl i)))
                                 (ex (rg_exponent (tl i) (hd 0%nat i)))).
  step (sum_ok 0 (S K') _ _ _ Hterms eq_refl) tot.
  clean Htot rg_total.
  pose proof (map_ok Num.log _ _ _ Htot) as Hlog.
  pose proof (map_ok (fun x => Num.sub x (Fin (1 / 2 * ln (2 * PI) * INR (dim d))))
                     _ _ _ Hlog) as Hres1.
  pose proof (map_ok Num.log _ _ _ Hsc) as Hlsc0.
  step (sum_ok 0 D _ _ _ Hlsc0 eq_refl) lsc.
  clean Hlsc (fun b => Fin (rg_log_scale b))
    by (apply nsum_fin_ext; intros x Hx; apply log_fin, scale_pos; simpl; tauto).
  step (bop_inplace_ok Num.sub _ _ _ _ _ _ Hres1 Hlsc) res2.
  { exact (bshape_absorb_r _ _ _ Hos). }
  step (bop_inplace_ok Num.sub _ _ _ _ _ _ Hres2 Hemin) res3; [shape_tac |].
  eexists. split; [reflexivity |]. cbn [lp_eps_sqr lp_eps_sqr_min lp_exponent
                                         lp_total lp_result].
  split; [exact Hes |]. split; [exact Hemin |]. split; [exact He |].
  split; [exact Htot |].
  apply (agrees_ext _ _ _ _ Hres3). intros r Hr. idx_norm.
  reflexivity.
Qed.

End LogProbRange.
(** ** Finite squared distances *)

Lemma min_fin (a b : R) : Num.min (Fin a) (Fin b) = Fin (Rmin a b).
Proof. reflexivity. Qed.

Section LogProbStabilised.

Variables (lo hi : R).
Hypothesis lo_neg : lo < 0.
Hypothesis hi_pos : 0 < hi.

Variables (D K' : nat) (bs vt os : shape) (vD : nat).
Variables (scaleR logitsR : index -> R).
Variables (ml sc lg value : tensor num) (d : dist).

Hypothesis Hos : bshape vt bs = Some os.
Hypothesis HvD : bdim vD D = Some D.
Hypothesis scale_pos : forall i, in_range (D :: bs) i -> 0 < scaleR i.
Hypothesis Hml : tshape ml = D :: S K' :: bs.
Hypothesis Hsc : agrees sc (D :: bs) (fun i => Fin (scaleR i)).
Hypothesis Hlg : agrees lg (S K' :: bs) (fun i => Fin (logitsR i)).
Hypothesis Hvalue : tshape value = vD :: vt.
Hypothesis Hinit : init_with (fexp lo hi) ml sc lg = Some d.

(** The sum on line 54 for squared distances [e] and weights [w]. *)
Definition range_total (w e : nat -> R) : R :=
  rsum (S K') (fun k => w k * fexpR lo (rfold Rmin K' e - e k)).

Lemma range_probs_agrees :
  agrees (probs d) (S K' :: bs)
         (fun i => Fin (fweights lo K' logitsR (tl i) (hd 0%nat i))).
Proof.
  destruct (init_with_fields _ _ _ _ _ Hinit) as (_ & _ & _ & _ & _ & _ & _ & Hp).
  destruct (categorical_probs_with_ok lo hi K' logitsR lo_neg hi_pos bs lg Hlg)
    as (p & Ep & Hpa).
  rewrite Ep in Hp. injection Hp as <-. exact Hpa.
Qed.

Lemma range_dim : dim d = D.
Proof.
  destruct (init_with_fields _ _ _ _ _ Hinit) as (_ & _ & HD & _).
  unfold size in HD. rewrite Hml in HD. cbn in HD. now injection HD.
Qed.

Lemma range_exponent (e : nat -> R) (k : nat) :
  (k < S K')%nat ->
  rfold Rmin K' e - e k <= 0 /\
  fexp lo hi (Fin (rfold Rmin K' e - e k))
  = Fin (fexpR lo (rfold Rmin K' e - e k)) /\
  0 <= fexpR lo (rfold Rmin K' e - e k) <= 1.
Proof.
  intros Hk.
  pose proof (rfold_min_le K' e k ltac:(lia)) as Hle.
  assert (H0 : rfold Rmin K' e - e k <= 0) by lra.
  split; [exact H0 |]. split; [apply fexp_fin; lra | now apply fexpR_range].
Qed.

Lemma range_total_bounds (w e : nat -> R) :
  (forall k, (k < S K')%nat -> 0 <= w k) ->
  exists k, (k < S K')%nat /\ e k = rfold Rmin K' e /\
            0 <= w k <= range_total w e.
Proof.
  intros Hw.
  destruct (rfold_min_attained K' e) as (k & Hk & Hmin).
  exists k. split; [lia |]. split; [symmetry; exact Hmin |].
  split; [apply Hw; lia |].
  unfold range_total.
  eapply Rle_trans;
    [| apply (rsum_ge_term (S K')
                (fun j => w j * fexpR lo (rfold Rmin K' e - e j)) k)].
  - cbv beta. rewrite Hmin.
    replace (e k - e k) with 0 by lra.
    rewrite fexpR_0 by exact lo_neg. lra.
  - intros j Hj. apply Rmult_le_pos; [now apply Hw |].
    exact (proj1 (proj2 (proj2 (range_exponent e j Hj)))).
  - lia.
Qed.

(** [log_prob] returns, and where the squared distances are finite
    numbers every local variable is determined. *)
Lemma log_prob_range :
  exists L,
    log_prob_run_with (fexp lo hi) d value = Some L /\
    tshape (lp_result L) = os /\
    (forall k r, (k < S K')%nat -> in_range os r ->
       tdata (lp_eps_sqr L) (k :: r)
       = rg_eps_sqr D bs vt vD scaleR d value r k) /\
    forall (r : index) (e : nat -> R),
      in_range os r ->
      (forall k, (k < S K')%nat -> tdata (lp_eps_sqr L) (k :: r) = Fin (e k)) ->
      let m := rfold Rmin K' e in
      let w := fweights lo K' logitsR (bidx bs r) in
      let t := range_total w e in
      tdata (lp_eps_sqr_min L) r = Fin m /\
      (forall k, (k < S K')%nat ->
         tdata (lp_exponent L) (k :: r) = Fin (m - e k) /\
         m - e k <= 0 /\
         fexp lo hi (tdata (lp_exponent L) (k :: r)) = Fin (fexpR lo (m - e k)) /\
         0 <= fexpR lo (m - e k) <= 1) /\
      tdata (lp_total L) r = Fin t /\
      (exists k, (k < S K')%nat /\ e k = m /\ 0 <= w k <= t) /\
      (0 < t ->
       tdata (lp_result L) r
       = Fin (ln t - 1 / 2 * ln (2 * PI) * INR D
              - rsum D (fun x => ln (scaleR (x :: bidx bs r))) - m)) /\
      (t = 0 -> tdata (lp_result L) r = NInf).
Proof.
  destruct (init_with_fields _ _ _ _ _ Hinit)
    as (Hbm & _ & _ & _ & Hlocs & Hscale & _ & _).
  pose proof range_probs_agrees as Hp.
  assert (Hbm' : batch_mode d = (2 <? rank (locs d))%nat) by now rewrite Hlocs.
  assert (Hml' : tshape (locs d) = D :: S K' :: bs) by now rewrite Hlocs.
  assert (Hsc' : agrees (scale d) (D :: bs) (fun i => Fin (scaleR i)))
    by now rewrite Hscale.
  destruct (log_prob_run_with_ok (fexp lo hi) D K' bs vt os vD scaleR d value
              Hos HvD scale_pos Hbm' Hml' Hsc' (agrees_shape _ _ _ Hp) Hvalue)
    as (L & EL & Hes & Hmin & Hexp & Htot & Hres).
  exists L. split; [exact EL |]. split; [exact (agrees_shape _ _ _ Hres) |].
  split.
  { intros k r Hk Hr.
    rewrite (agrees_data _ _ _ (k :: r) Hes) by (simpl; tauto). reflexivity. }
  intros r e Hr He m w t. subst m w t.
  set (m := rfold Rmin K' e).
  set (w := fweights lo K' logitsR (bidx bs r)).
  set (t := range_total w e).
  assert (HE : forall k, (k < S K')%nat ->
             rg_eps_sqr D bs vt vD scaleR d value r k = Fin (e k)).
  { intros k Hk. rewrite <- (He k Hk).
    rewrite (agrees_data _ _ _ (k :: r) Hes) by (simpl; tauto). reflexivity. }
  assert (Hm : rg_min D K' bs vt vD scaleR d value r = Fin m).
  { unfold rg_min. apply nfold_fin_ext; [exact min_fin |].
    intros k Hk. apply HE. lia. }
  assert (Hx : forall k, (k < S K')%nat ->
             rg_exponent D K' bs vt vD scaleR d value r k = Fin (m - e k)).
  { intros k Hk. unfold rg_exponent. rewrite Hm, (HE k Hk).
    cbn [Num.neg Num.add]. f_equal. lra. }
  assert (Hw : forall k, (k < S K')%nat ->
             tdata (probs d) (k :: bidx bs r) = Fin (w k)).
  { intros k Hk. rewrite (agrees_data _ _ _ _ Hp); [reflexivity |].
    split; [exact Hk |]. exact (proj2 (bshape_in_range _ _ _ _ Hos Hr)). }
  assert (Ht : rg_total (fexp lo hi) D K' bs vt vD scaleR d value r = Fin t).
  { unfold rg_total. apply nsum_fin_ext. intros k Hk.
    rewrite (Hw k Hk), (Hx k Hk).
    destruct (range_exponent e k Hk) as (_ & H2 & _). fold m in H2.
    rewrite H2. reflexivity. }
  assert (HR : tdata (lp_result L) r
               = Num.sub
                   (Num.sub
                      (Num.sub (Num.log (Fin t))
                               (Fin (1 / 2 * ln (2 * PI) * INR D)))
                      (Fin (rsum D (fun x => ln (scaleR (x :: bidx bs r))))))
                   (Fin m)).
  { rewrite (agrees_data _ _ _ r Hres Hr). unfold rg_result.
    rewrite Ht, Hm, range_dim. reflexivity. }
  split; [rewrite (agrees_data _ _ _ r Hmin Hr); exact Hm |].
  split.
  { intros k Hk.
    assert (Hxk : tdata (lp_exponent L) (k :: r) = Fin (m - e k)).
    { rewrite (agrees_data _ _ _ (k :: r) Hexp) by (simpl; tauto).
      cbn [hd tl]. now apply Hx. }
    destruct (range_exponent e k Hk) as (H1 & H2 & H3). fold m in H1, H2, H3.
    split; [exact Hxk |]. split; [exact H1 |].
    split; [rewrite Hxk; exact H2 | exact H3]. }
  split; [rewrite (agrees_data _ _ _ r Htot Hr); exact Ht |].
  split.
  { apply range_total_bounds. intros k Hk.
    exact (proj1 (fweights_range lo K' logitsR lo_neg (bidx bs r) k Hk)). }
  split.
  - intros Hpos. rewrite HR, (log_fin _ Hpos). reflexivity.
  - intros Hz. rewrite HR, Hz.
    replace (Num.log (Fin 0)) with NInf; [reflexivity |].
    simpl. destruct (Req_dec_T 0 0) as [_ | H]; [reflexivity | now destruct H].
Qed.

End LogProbStabilised.
(** C6, amended: with an exponential that underflows below [lo < 0] and
    overflows above [hi > 0], for every instance built by the
    constructor from finite logits and a positive scale and for every
    value, [log_prob] returns; [eps_sqr] is half the squared normalised
    distance; and wherever the squared distances [e] of the components
    are finite numbers, however large, every exponential is applied to
    [m - e[k] <= 0] with [m] the smallest of them, and is a number
    between 0 and 1, so none overflows; the argument of the logarithm
    is the number [t = sum_k weights[k] * exp(m - e[k])], which is at
    least the weight of a minimising component; and the result is the
    finite number [log t - 0.5*D*log(2*pi) - sum_d log(scale[d]) - m]
    when [t > 0] and [-inf] when [t = 0]. *)
Theorem log_prob_stabilised
    (lo hi : R) (D K' : nat) (bs vt os : shape) (vD : nat)
    (scaleR logitsR : index -> R)
    (ml sc lg value : tensor num) (d : dist) :
  lo < 0 -> 0 < hi ->
  bshape vt bs = Some os ->
  bdim vD D = Some D ->
  (forall i, in_range (D :: bs) i -> 0 < scaleR i) ->
  tshape ml = D :: S K' :: bs ->
  agrees sc (D :: bs) (fun i => Fin (scaleR i)) ->
  agrees lg (S K' :: bs) (fun i => Fin (logitsR i)) ->
  tshape value = vD :: vt ->
  init_with (fexp lo hi) ml sc lg = Some d ->
  exists L,
    log_prob_run_with (fexp lo hi) d value = Some L /\
    tshape (lp_result L) = os /\
    (forall k r, (k < S K')%nat -> in_range os r ->
       tdata (lp_eps_sqr L) (k :: r)
       = rg_eps_sqr D bs vt vD scaleR d value r k) /\
    forall (r : index) (e : nat -> R),
      in_range os r ->
      (forall k, (k < S K')%nat -> tdata (lp_eps_sqr L) (k :: r) = Fin (e k)) ->
      let m := rfold Rmin K' e in
      let w := fweights lo K' logitsR (bidx bs r) in
      let t := range_total lo K' w e in
      tdata (lp_eps_sqr_min L) r = Fin m /\
      (forall k, (k < S K')%nat ->
         tdata (lp_exponent L) (k :: r) = Fin (m - e k) /\
         m - e k <= 0 /\
         fexp lo hi (tdata (lp_exponent L) (k :: r)) = Fin (fexpR lo (m - e k)) /\
         0 <= fexpR lo (m - e k) <= 1) /\
      tdata (lp_total L) r = Fin t /\
      (exists k, (k < S K')%nat /\ e k = m /\ 0 <= w k <= t) /\
      (0 < t ->
       tdata (lp_result L) r
       = Fin (ln t - 1 / 2 * ln (2 * PI) * INR D
              - rsum D (fun x => ln (scaleR (x :: bidx bs r))) - m)) /\
      (t = 0 -> tdata (lp_result L) r = NInf).
Proof.
  intros Hlo Hhi Hos HvD Hpos Hml Hsc Hlg Hv Hinit.
  exact (log_prob_range lo hi Hlo Hhi D K' bs vt os vD scaleR logitsR
           ml sc lg value d Hos HvD Hpos Hml Hsc Hlg Hv Hinit).
Qed.
(** *** One dimension, no batch axis, unit scale *)

Lemma rg_eps_sqr_scalar (d : dist) (value : tensor num) (v l : R) (k : nat) :
  tdata value [0%nat] = Fin v ->
  tdata (locs d) [0%nat; k] = Fin l ->
  rg_eps_sqr 1 [] [] 1 (fun _ => 1) d value [] k
  = Fin (1 / 2 * ((v - l) * (v - l))).
Proof.
  intros Hv Hl. unfold rg_eps_sqr, rg_epsilon.
  cbn [nsum bidx]. unfold bix. cbn [Nat.eqb].
  rewrite Hv, Hl. cbn [Num.sub Num.neg Num.add].
  rewrite div_fin by lra.
  cbn [Num.sq Num.mul Num.add]. f_equal. field.
Qed.

(** The scenario [locs=[[-1],[1]]], [scale=[1]], [logits=[0,0]] at the
    value [201]: both squared distances exceed [1e4]. *)
Lemma sc_fweights (lo : R) (k : nat) :
  lo < 0 -> fweights lo 1 (fun _ => 0) [] k = 1 / 2.
Proof.
  intros Hlo. unfold fweights, fweight_num, logit_max.
  cbn [rsum rfold]. rewrite Rmax_left by lra.
  replace (0 - 0) with 0 by lra. rewrite fexpR_0 by exact Hlo. field.
Qed.

Definition far_eps_sqr (k : nat) : R :=
  match k with O => 20402 | S _ => 20000 end.

Lemma log_prob_stabilised_witness :
  exists d L,
    init_with (fexp (-745) 709) sc_locs sc_scale sc_logits = Some d /\
    log_prob_run_with (fexp (-745) 709) d far_value = Some L /\
    tdata (lp_eps_sqr L) [0%nat] = Fin 20402 /\
    tdata (lp_eps_sqr L) [1%nat] = Fin 20000 /\
    is_finite (tdata (lp_result L) []).
Proof.
  assert (Hlo : -745 < 0) by lra.
  assert (Hhi : 0 < 709) by lra.
  assert (Hd : exists d, init_with (fexp (-745) 709) sc_locs sc_scale sc_logits
                         = Some d) by (eexists; reflexivity).
  destruct Hd as [d Hd]. exists d.
  destruct (init_with_fields _ _ _ _ _ Hd) as (_ & _ & _ & _ & Hlocs & _).
  destruct (log_prob_stabilised (-745) 709 1 1 [] [] [] 1 (fun _ => 1)
              (fun _ => 0) sc_locs sc_scale sc_logits far_value d
              Hlo Hhi eq_refl eq_refl sc_scale_pos eq_refl
              (sc_agrees_const _ _) (sc_agrees_const _ _) eq_refl Hd)
    as (L & EL & _ & Heps & Hfin).
  exists L. split; [exact Hd |]. split; [exact EL |].
  assert (He : forall k, (k < 2)%nat ->
             tdata (lp_eps_sqr L) [k] = Fin (far_eps_sqr k)).
  { intros k Hk. rewrite (Heps k [] Hk I).
    rewrite (rg_eps_sqr_scalar d far_value 201 (sc_locsR [0%nat; k]) k);
      [| reflexivity | rewrite Hlocs; reflexivity].
    f_equal.
    destruct k as [| [| k]]; [| | lia]; unfold sc_locsR, far_eps_sqr;
      cbn [nth Nat.eqb]; lra. }
  split; [exact (He 0%nat ltac:(lia)) |].
  split; [exact (He 1%nat ltac:(lia)) |].
  destruct (Hfin [] far_eps_sqr I He) as (_ & _ & _ & (k & Hk & _ & Hw) & Hpos & _).
  rewrite Hpos; [exact I |].
  cbn [bidx] in Hw |- *. rewrite (sc_fweights (-745) k Hlo) in Hw. lra.
Defined.
(** *** A weight that underflows

    [K=2], [D=1], [locs=[[0],[40]]], [scale=[1]], [logits=[0,-800]],
    evaluated at the value [40], with the range of binary64. *)
Definition uf_locsR (i : index) : R :=
  if (nth 1 i 0%nat =? 0)%nat then 0 else 40.

Definition uf_logitsR (i : index) : R :=
  if (hd 0%nat i =? 0)%nat then 0 else -800.

Definition uf_locs : tensor num := mkT [1; 2]%nat (fun i => Fin (uf_locsR i)).
Definition uf_scale : tensor num := mkT [1]%nat (fun _ => Fin 1).
Definition uf_logits : tensor num := mkT [2]%nat (fun i => Fin (uf_logitsR i)).
Definition uf_value : tensor num := mkT [1]%nat (fun _ => Fin 40).

Definition uf_eps_sqr (k : nat) : R :=
  match k with O => 800 | S _ => 0 end.

Definition uf_weights (k : nat) : R :=
  match k with O => 1 | S _ => 0 end.

Lemma uf_fweights (k : nat) :
  (k < 2)%nat -> fweights (-745) 1 uf_logitsR [] k = uf_weights k.
Proof.
  intros Hk. unfold fweights, fweight_num, logit_max, uf_logitsR.
  cbn [rsum rfold hd Nat.eqb]. rewrite Rmax_left by lra.
  replace (0 - 0) with 0 by lra. rewrite (fexpR_0 (-745)) by lra.
  rewrite (fexpR_underflow (-745) (-800 - 0)) by lra.
  destruct k as [| [| k]]; [| | lia]; cbn [hd Nat.eqb uf_weights].
  - replace (0 - 0) with 0 by lra. rewrite (fexpR_0 (-745)) by lra. field.
  - rewrite (fexpR_underflow (-745) (-800 - 0)) by lra. field.
Qed.

Lemma uf_total : range_total (-745) 1 uf_weights uf_eps_sqr = 0.
Proof.
  unfold range_total. cbn [rsum rfold uf_eps_sqr uf_weights].
  rewrite Rmin_right by lra.
  rewrite (fexpR_underflow (-745) (0 - 800)) by lra. lra.
Qed.

(** C6 as stated fails: the instance is built by the constructor, the
    weight of the second component underflows to 0, the value lies on
    the mean of that component, the exponential of the first component
    underflows to 0, so the argument of the logarithm is 0 and
    [log_prob] returns [-inf], which is not a finite number. *)
Lemma log_prob_minus_infinity_when_weight_underflows :
  exists d L,
    init_with (fexp (-745) 709) uf_locs uf_scale uf_logits = Some d /\
    log_prob_run_with (fexp (-745) 709) d uf_value = Some L /\
    log_prob_with (fexp (-745) 709) d uf_value = Some (lp_result L) /\
    tdata (probs d) [0%nat] = Fin 1 /\
    tdata (probs d) [1%nat] = Fin 0 /\
    tdata (lp_eps_sqr L) [0%nat] = Fin 800 /\
    tdata (lp_eps_sqr L) [1%nat] = Fin 0 /\
    tdata (lp_total L) [] = Fin 0 /\
    tdata (lp_result L) [] = NInf /\
    ~ is_finite (tdata (lp_result L) []).
Proof.
  assert (Hlo : -745 < 0) by lra.
  assert (Hhi : 0 < 709) by lra.
  assert (Hd : exists d, init_with (fexp (-745) 709) uf_locs uf_scale uf_logits
                         = Some d) by (eexists; reflexivity).
  destruct Hd as [d Hd]. exists d.
  destruct (init_with_fields _ _ _ _ _ Hd) as (_ & _ & _ & _ & Hlocs & _).
  pose proof (range_probs_agrees (-745) 709 Hlo Hhi 1 [] uf_logitsR
                uf_locs uf_scale uf_logits d (agrees_self _ _) Hd) as Hp.
  destruct (log_prob_range (-745) 709 Hlo Hhi 1 1 [] [] [] 1 (fun _ => 1)
              uf_logitsR uf_locs uf_scale uf_logits uf_value d
              eq_refl eq_refl (fun _ _ => Rlt_0_1) eq_refl
              (agrees_self _ _) (agrees_self _ _) eq_refl Hd)
    as (L & EL & _ & Heps & Hfin).
  exists L. split; [exact Hd |]. split; [exact EL |].
  split; [unfold log_prob_with; rewrite EL; reflexivity |].
  assert (Hw : forall k, (k < 2)%nat -> tdata (probs d) [k] = Fin (uf_weights k)).
  { intros k Hk. rewrite (agrees_data _ _ _ [k] Hp) by (simpl; tauto).
    cbn [hd tl]. f_equal. now apply uf_fweights. }
  assert (He : forall k, (k < 2)%nat ->
             tdata (lp_eps_sqr L) [k] = Fin (uf_eps_sqr k)).
  { intros k Hk. rewrite (Heps k [] Hk I).
    rewrite (rg_eps_sqr_scalar d uf_value 40 (uf_locsR [0%nat; k]) k);
      [| reflexivity | rewrite Hlocs; reflexivity].
    f_equal.
    destruct k as [| [| k]]; [| | lia]; unfold uf_locsR, uf_eps_sqr;
      cbn [nth Nat.eqb]; lra. }
  split; [exact (Hw 0%nat ltac:(lia)) |].
  split; [exact (Hw 1%nat ltac:(lia)) |].
  split; [exact (He 0%nat ltac:(lia)) |].
  split; [exact (He 1%nat ltac:(lia)) |].
  destruct (Hfin [] uf_eps_sqr I He) as (_ & _ & Ht & _ & _ & Hz).
  cbn [bidx] in Ht, Hz.
  assert (Htot : range_total (-745) 1 (fweights (-745) 1 uf_logitsR [])
                             uf_eps_sqr = 0).
  { rewrite <- uf_total. unfold range_total. apply rsum_ext.
    intros k Hk. now rewrite uf_fweights. }
  rewrite Htot in Ht. specialize (Hz Htot).
  split; [exact Ht |]. split; [exact Hz |].
  rewrite Hz. intros H. exact H.
Qed.
